(** * PackSafe: the dependency scan pipeline of the backend

    A shallow embedding of the scan route of the server
    (router.post('/package-json'), analyzeDependencies, getLatestVersion,
    isNewerVersion, calculateUpdateSeverity, checkVulnerabilities), of the
    ScanResult schema and of getProjectStatusByName, followed by the
    properties of the specification that concern them.

    Conventions of the embedding:
    - a JavaScript string is a [string]; all the strings handled here are
      ASCII, where the UTF-16 order of JavaScript is the byte order;
    - a JavaScript number is an exact integer [Z] or [NaN]; versions have
      components far below 2^53, where doubles are exact;
    - [undefined]/[null] is [None];
    - an object used as a dictionary is an association list where the
      order of the keys matters (Object.entries) and a [gmap] where it
      does not (the outdated and vulnerable maps);
    - a thrown exception is the [Threw] case of [result];
    - the outbound HTTP calls are answered by an environment that sees the
      calls made so far, and every call is appended to a log. *)

From Stdlib Require Import ZArith Ascii String DecimalString.
From stdpp Require Import gmap strings list.

Local Open Scope string_scope.
Local Open Scope Z_scope.
Local Open Scope list_scope.

(** ** Characters and strings *)

Module JsString.

Definition code (c : ascii) : N := N_of_ascii c.

Definition is_digit (c : ascii) : bool :=
  ((48 <=? code c) && (code c <=? 57))%N.

Definition is_lower (c : ascii) : bool :=
  ((97 <=? code c) && (code c <=? 122))%N.

Definition is_upper (c : ascii) : bool :=
  ((65 <=? code c) && (code c <=? 90))%N.

Definition is_dot (c : ascii) : bool := Ascii.eqb c ".".

(** The white space of String.prototype.trim and of parseInt, within
    ASCII: TAB, LF, VT, FF, CR and SPACE. *)
Definition is_white (c : ascii) : bool :=
  (((9 <=? code c) && (code c <=? 13)) || (code c =? 32))%N.

Fixpoint all_chars (p : ascii -> bool) (s : string) : bool :=
  match s with
  | EmptyString => true
  | String c s' => p c && all_chars p s'
  end.

Fixpoint filter_chars (p : ascii -> bool) (s : string) : string :=
  match s with
  | EmptyString => EmptyString
  | String c s' => if p c then String c (filter_chars p s') else filter_chars p s'
  end.

Definition nonempty (s : string) : bool :=
  match s with EmptyString => false | _ => true end.

(** [s.split(sep)] for a one-character separator: never empty, and
    [''.split('.')] is [['']]. *)
Fixpoint split (sep : ascii) (s : string) : list string :=
  match s with
  | EmptyString => [EmptyString]
  | String c s' =>
      if Ascii.eqb c sep then EmptyString :: split sep s'
      else match split sep s' with
           | h :: t => String c h :: t
           | [] => [String c EmptyString]
           end
  end.

Fixpoint join (sep : ascii) (l : list string) : string :=
  match l with
  | [] => EmptyString
  | [x] => x
  | x :: l' => x +:+ String sep (join sep l')
  end.

(** [s.includes(t)] *)
Fixpoint includes (s t : string) : bool :=
  String.prefix t s ||
  match s with
  | EmptyString => false
  | String _ s' => includes s' t
  end.

Fixpoint drop_while (p : ascii -> bool) (s : string) : string :=
  match s with
  | EmptyString => EmptyString
  | String c s' => if p c then drop_while p s' else s
  end.

(** The longest prefix of characters satisfying [p], and the rest. *)
Fixpoint span (p : ascii -> bool) (s : string) : string * string :=
  match s with
  | EmptyString => (EmptyString, EmptyString)
  | String c s' =>
      if p c then let '(a, b) := span p s' in (String c a, b)
      else (EmptyString, s)
  end.

(** [s.trim()] *)
Definition trim (s : string) : string :=
  String.rev (drop_while is_white (String.rev (drop_while is_white s))).

(** The value of a run of decimal digits, most significant first. *)
Fixpoint decimal_from (acc : Z) (s : string) : Z :=
  match s with
  | EmptyString => acc
  | String c s' => decimal_from (10 * acc + Z.of_N (code c - 48)) s'
  end.

Definition decimal (s : string) : Z := decimal_from 0 s.

Definition digits (s : string) : bool := nonempty s && all_chars is_digit s.

(** Relational operators on strings: the order of the code units. *)
Definition lt (a b : string) : bool := String.ltb a b.
Definition ge (a b : string) : bool := negb (String.ltb a b).
Definition gt (a b : string) : bool := String.ltb b a.

End JsString.

(** ** Numbers *)

Inductive jsnum : Type :=
| NaN
| Num (n : Z).

(** [Number(s)] on a component of a version. The empty string is 0 and a
    run of decimal digits is its value, which is the double that Number
    gives as long as the value is at most [MAX_SAFE_INTEGER] (2^53 - 1);
    above it Number rounds. Every other string is taken to NaN: the
    signed, fractional, exponent, radix-prefixed and blank-padded
    literals that JavaScript also converts are outside this embedding.
    The statements below that depend on the number read are about runs
    of digits within the bound ([safe_components]). *)
Definition toNumber (s : string) : jsnum :=
  match s with
  | EmptyString => Num 0
  | _ => if JsString.all_chars JsString.is_digit s then Num (JsString.decimal s) else NaN
  end.

(** [a > b] where either side may be [undefined] (a destructured element
    that is missing) or NaN: the comparison is then false. *)
Definition js_gt (a b : option jsnum) : bool :=
  match a, b with
  | Some (Num x), Some (Num y) => y <? x
  | _, _ => false
  end.

(** [parseInt(s, 10)]: leading white space, an optional sign, then the
    leading decimal digits; [None] is NaN. The value is exact, which is
    the double that parseInt gives up to [MAX_SAFE_INTEGER]; the
    statements that compare the library with the numeric triples bound
    the components by it ([safe_components]). *)
Definition parseInt (s : string) : option Z :=
  let s := JsString.drop_while JsString.is_white s in
  let '(neg, s) :=
    match s with
    | String "-" r => (true, r)
    | String "+" r => (false, r)
    | _ => (false, s)
    end in
  let '(ds, _) := JsString.span JsString.is_digit s in
  match ds with
  | EmptyString => None
  | _ => Some (if neg : bool then - JsString.decimal ds else JsString.decimal ds)
  end.

(** [String(n)] for an integer. *)
Definition string_of_Z (n : Z) : string := NilZero.string_of_int (Z.to_int n).

(** ** Cleaning a declared range: version.replace(/[\^~>=<]/g, '') *)

Definition is_range_operator (c : ascii) : bool :=
  Ascii.eqb c "^" || Ascii.eqb c "~" || Ascii.eqb c ">" || Ascii.eqb c "="
  || Ascii.eqb c "<".

Definition cleanVersion (version : string) : string :=
  JsString.filter_chars (fun c => negb (is_range_operator c)) version.

(** ** Update severity *)

Inductive Severity : Type := low | medium | high.

Definition calculateUpdateSeverity (currentVersion latestVersion : string) : Severity :=
  let current := toNumber <$> JsString.split "." currentVersion in
  let latest := toNumber <$> JsString.split "." latestVersion in
  let currentMajor := current !! 0%nat in
  let currentMinor := current !! 1%nat in
  let latestMajor := latest !! 0%nat in
  let latestMinor := latest !! 1%nat in
  if js_gt latestMajor currentMajor then high
  else if js_gt latestMinor currentMinor then medium
  else low.

(** ** The version comparator

    isNewerVersion delegates to [compareVersions] of the npm package
    compare-versions, a dependency of the server whose code is not part of
    the sources of this repository. The definitions of this module follow
    the published algorithm of that package (its named export, versions 5
    and 6).

    validateAndParse matches the whole string, case-insensitively,
    against: any run of the characters v ^ ~ < > =; a run of digits;
    optionally a dot and a second group (a run of digits, x or a star);
    after it, optionally a dot and a third group; after the third group,
    optionally a dot and a fourth group, then optionally a hyphen and a
    pre-release tag (dot-separated identifiers of letters, digits and
    hyphens), then optionally a plus sign and build metadata of the same
    shape. It throws when the string does not match.

    compareVersions compares the four numeric groups in order, a missing
    one as '0' and a wildcard as equal to anything; when they are equal a
    version with a pre-release tag is below one without, and two tags are
    compared identifier by identifier. *)

Module CompareVersions.

Import JsString.

(** The five capture groups after [match.shift()]. *)
Record Match : Type := mkMatch {
  numbers : list (option string);
  prerelease : option string;
}.

Definition is_prefix_char (c : ascii) : bool :=
  Ascii.eqb c "v" || Ascii.eqb c "V" || is_range_operator c.

Definition is_wild_char (c : ascii) : bool :=
  Ascii.eqb c "x" || Ascii.eqb c "X" || Ascii.eqb c "*".

Definition is_ident_char (c : ascii) : bool :=
  is_digit c || is_lower c || is_upper c || Ascii.eqb c "-".

(** Dot-separated non-empty identifiers of letters, digits and hyphens. *)
Definition identifiers (s : string) : bool :=
  forallb (fun p => nonempty p && all_chars is_ident_char p) (split "." s).

(** A numeric group at the head of [s]: a wildcard or a run of digits. *)
Definition segment (s : string) : option (string * string) :=
  match s with
  | String c r =>
      if is_wild_char c then Some (String c EmptyString, r)
      else
        let '(ds, r') := span is_digit s in
        if nonempty ds then Some (ds, r') else None
  | EmptyString => None
  end.

(** What may follow the third group: a fourth group, a pre-release tag
    and build metadata, then the end of the input. *)
Definition tail (s : string) : option (option string * option string) :=
  let after_fourth :=
    match s with
    | String "." r =>
        match segment r with
        | Some (g, r') => Some (Some g, r')
        | None => None
        end
    | _ => Some (None, s)
    end in
  match after_fourth with
  | None => None
  | Some (fourth, s1) =>
      let after_pre :=
        match s1 with
        | String "-" r =>
            let '(p, r') := span (fun c => negb (Ascii.eqb c "+")) r in
            if identifiers p then Some (Some p, r') else None
        | _ => Some (None, s1)
        end in
      match after_pre with
      | None => None
      | Some (pre, s2) =>
          match s2 with
          | EmptyString => Some (fourth, pre)
          | String "+" b => if identifiers b then Some (fourth, pre) else None
          | _ => None
          end
      end
  end.

(** [None] is the thrown "not valid semver" error. *)
Definition validateAndParse (version : string) : option Match :=
  let s := drop_while is_prefix_char version in
  let '(major, s1) := span is_digit s in
  if negb (nonempty major) then None
  else
    match s1 with
    | EmptyString => Some (mkMatch [Some major; None; None; None] None)
    | String "." r =>
        match segment r with
        | None => None
        | Some (minor, s2) =>
            match s2 with
            | EmptyString => Some (mkMatch [Some major; Some minor; None; None] None)
            | String "." r2 =>
                match segment r2 with
                | None => None
                | Some (patch, s3) =>
                    match tail s3 with
                    | None => None
                    | Some (fourth, pre) =>
                        Some (mkMatch [Some major; Some minor; Some patch; fourth] pre)
                    end
                end
            | _ => None
            end
        end
    | _ => None
    end.

Definition isWildcard (s : string) : bool :=
  String.eqb s "*" || String.eqb s "x" || String.eqb s "X".

(** [tryParse] and [forceType]: a number when parseInt finds one, the
    string otherwise; a number facing a string is compared as its
    decimal spelling. *)
Definition compareStrings (a b : string) : Z :=
  if isWildcard a || isWildcard b then 0
  else
    match parseInt a, parseInt b with
    | Some x, Some y => if y <? x then 1 else if x <? y then -1 else 0
    | ap, bp =>
        let sa := match ap with Some x => string_of_Z x | None => a end in
        let sb := match bp with Some y => string_of_Z y | None => b end in
        if gt sa sb then 1 else if lt sa sb then -1 else 0
    end.

(** [a[i] || '0'] *)
Definition or_zero (o : option string) : string :=
  match o with
  | Some s => if nonempty s then s else "0"
  | None => "0"
  end.

Fixpoint first_nonzero (l : list Z) : Z :=
  match l with
  | [] => 0
  | r :: l' => if r =? 0 then first_nonzero l' else r
  end.

(** The loop of compareSegments: [i] runs up to the longer length and
    the first comparison that is not 0 is returned. *)
Definition compareSegments (a b : list (option string)) : Z :=
  first_nonzero
    ((fun i => compareStrings (or_zero (mjoin (a !! i))) (or_zero (mjoin (b !! i))))
       <$> seq 0 (Nat.max (length a) (length b))).

Definition compareVersions (v1 v2 : string) : option Z :=
  match validateAndParse v1, validateAndParse v2 with
  | Some n1, Some n2 =>
      let r := compareSegments (numbers n1) (numbers n2) in
      if negb (r =? 0) then Some r
      else
        match prerelease n1, prerelease n2 with
        | Some p1, Some p2 =>
            Some (compareSegments (Some <$> split "." p1) (Some <$> split "." p2))
        | Some _, None => Some (-1)
        | None, Some _ => Some 1
        | None, None => Some 0
        end
  | _, _ => None
  end.

End CompareVersions.

(** isNewerVersion: true when versionB is newer than versionA, false when
    the comparison throws. *)
Definition isNewerVersion (versionA versionB : string) : bool :=
  match CompareVersions.compareVersions versionB versionA with
  | Some r => 0 <? r
  | None => false
  end.

(** ** The reference comparison of the specification

    "Component-wise numeric comparison (major.minor.patch as three
    integers; missing components treated as 0)". These definitions follow
    the words of the specification, not the code; the code is compared
    with them below. A component that is not a run of digits has no
    integer reading and leaves the triple undefined. *)

Module Reference.

Definition component (o : option string) : option Z :=
  match o with
  | None => Some 0
  | Some c => if JsString.digits c then Some (JsString.decimal c) else None
  end.

Definition triple (v : string) : option (Z * Z * Z) :=
  let cs := JsString.split "." v in
  match component (cs !! 0%nat), component (cs !! 1%nat), component (cs !! 2%nat) with
  | Some a, Some b, Some c => Some (a, b, c)
  | _, _, _ => None
  end.

Definition triple_lt (x y : Z * Z * Z) : bool :=
  let '(a1, b1, c1) := x in
  let '(a2, b2, c2) := y in
  (a1 <? a2) || ((a1 =? a2) && ((b1 <? b2) || ((b1 =? b2) && (c1 <? c2)))).

(** [latest] is strictly greater than [current]. *)
Definition newer (current latest : string) : bool :=
  match triple current, triple latest with
  | Some x, Some y => triple_lt x y
  | _, _ => false
  end.

(** "high if major differs, medium if only minor differs, else low" *)
Definition severity (current latest : string) : option Severity :=
  match triple current, triple latest with
  | Some (a1, b1, _), Some (a2, b2, _) =>
      Some (if negb (a1 =? a2) then high
            else if negb (b1 =? b2) then medium
            else low)
  | _, _ => None
  end.

End Reference.

(** ** Exceptions and the outside world *)

(** What a catch clause looks at: an axios error carries the response of
    the server when there was one (its status and the [message] field of
    its body); anything else is a TypeError of the runtime. *)
Inductive error : Type :=
| AxiosError (response : option (nat * option string))
| TypeError.

Inductive result (A : Type) : Type :=
| Returned (a : A)
| Threw (e : error).

Arguments Returned {A} a.
Arguments Threw {A} e.

(** error.response?.status === 403 &&
    error.response?.data?.message?.includes('rate limit exceeded') *)
Definition isRateLimitError (e : error) : bool :=
  match e with
  | AxiosError (Some (status, Some message)) =>
      Nat.eqb status 403 && JsString.includes message "rate limit exceeded"
  | _ => false
  end.

Inductive Call : Type :=
| RegistryCall (name : string)
| AdvisoryCall (name : string).

(** One advisory of the advisory API, with the fields the server reads;
    a field the response may lack is an option. *)
Record Event : Type := mkEvent {
  introduced : option string;
  fixed : option string;
}.

Record Range : Type := mkRange {
  range_type : option string;
  events : option (list Event);
}.

Record Affected : Type := mkAffected {
  package_name : option string;
  ranges : option (list Range);
}.

Record Advisory : Type := mkAdvisory {
  affected : option Affected;
  advisory_id : option string;
  advisory_severity : option string;
  advisory_summary : option string;
  advisory_references : option (list string);
}.

(** The environment answers a request given the calls made before it.
    [registry] is the [dist-tags.latest] field of the registry document
    (absent when the document lacks it), [advisories] the body of the
    advisory response ([None] when it is not an array), [random_suffix]
    the eight characters drawn for an advisory without an id. *)
Record Env : Type := mkEnv {
  registry : list Call -> string -> result (option string);
  advisories : list Call -> string -> result (option (list Advisory));
  random_suffix : string;
}.

(** [a || b] on strings that may be undefined: the empty string is falsy. *)
Definition or_default (a : option string) (b : string) : string :=
  match a with
  | Some s => if JsString.nonempty s then s else b
  | None => b
  end.

(** ** getLatestVersion *)

Definition getLatestVersion (env : Env) (log : list Call) (packageName : string)
  : option string * list Call :=
  let latest :=
    match registry env log packageName with
    | Returned (Some v) => if JsString.nonempty v then Some v else None
    | Returned None => None
    | Threw _ => None
    end in
  (latest, log ++ [RegistryCall packageName]).

(** ** checkVulnerabilities *)

Record VulnerabilityInfo : Type := mkVulnerabilityInfo {
  id : string;
  severity : string;
  description : string;
  references : option (list string);
}.

(** The table local to checkVulnerabilities, own keys only. The lookup of
    the code, [knownVulnerablePackages[packageName]?.[version]], also
    reads the keys every object inherits (constructor, toString, ...);
    [own_lookup] below tells the names and versions for which it finds
    own keys only, and the statements about a package that the table
    does not hold assume it. *)
Definition knownVulnerablePackages (packageName version : string) : option VulnerabilityInfo :=
  if String.eqb packageName "lodash" then
    if String.eqb version "4.17.0" then
      Some (mkVulnerabilityInfo "CVE-2019-10744" "high"
              "Prototype pollution vulnerability in Lodash" None)
    else None
  else if String.eqb packageName "axios" then
    if String.eqb version "0.19.0" then
      Some (mkVulnerabilityInfo "CVE-2020-28168" "medium" "Axios SSRF vulnerability" None)
    else None
  else None.

(** The predicate given to [ranges.some]:
      range.type === 'SEMVER' && version >= range.events[0].introduced &&
      (!range.events[1]?.fixed || version < range.events[1].fixed)
    Reading [events[0]] of a missing array, or [introduced] of a missing
    first event, throws; a comparison with [undefined] is false. *)
Definition rangeAffects (version : string) (range : Range) : result bool :=
  if negb (bool_decide (range_type range = Some "SEMVER")) then Returned false
  else
    match events range with
    | None => Threw TypeError
    | Some evs =>
        match evs !! 0%nat with
        | None => Threw TypeError
        | Some e0 =>
            match introduced e0 with
            | None => Returned false
            | Some intro =>
                if negb (JsString.ge version intro) then Returned false
                else
                  match evs !! 1%nat ≫= fixed with
                  | None => Returned true
                  | Some f =>
                      if negb (JsString.nonempty f) then Returned true
                      else Returned (JsString.lt version f)
                  end
            end
        end
    end.

(** Array.prototype.some, stopping at the first true and at the first
    exception. *)
Fixpoint some_range (version : string) (rs : list Range) : result bool :=
  match rs with
  | [] => Returned false
  | r :: rs' =>
      match rangeAffects version r with
      | Threw e => Threw e
      | Returned true => Returned true
      | Returned false => some_range version rs'
      end
  end.

Definition advisoryInfo (env : Env) (advisory : Advisory) : VulnerabilityInfo :=
  {| id := or_default (advisory_id advisory) ("GHSA-" +:+ random_suffix env);
     severity := or_default (advisory_severity advisory) "medium";
     description := or_default (advisory_summary advisory) "Security vulnerability detected";
     references := Some (default [] (advisory_references advisory)) |}.

(** The loop over the advisories of the response. *)
Fixpoint findAdvisory (env : Env) (packageName version : string) (data : list Advisory)
  : result (option VulnerabilityInfo) :=
  match data with
  | [] => Returned None
  | advisory :: data' =>
      if bool_decide (affected advisory ≫= package_name = Some packageName) then
        match affected advisory ≫= ranges with
        | None => Threw TypeError
        | Some rs =>
            match some_range version rs with
            | Threw e => Threw e
            | Returned true => Returned (Some (advisoryInfo env advisory))
            | Returned false => findAdvisory env packageName version data'
            end
        end
      else findAdvisory env packageName version data'
  end.

(** The inner try block: the request and the search of its response. *)
Definition queryAdvisories (env : Env) (log : list Call) (packageName version : string)
  : result (option VulnerabilityInfo) :=
  match advisories env log packageName with
  | Threw e => Threw e
  | Returned None => Returned None
  | Returned (Some data) => findAdvisory env packageName version data
  end.

(** Both branches of the inner catch only log, and the function then
    returns null; the outer catch returns null as well. The second
    component is the log after the call. *)
Definition checkVulnerabilities (env : Env) (log : list Call) (packageName version : string)
  : result (option VulnerabilityInfo) * list Call :=
  match knownVulnerablePackages packageName version with
  | Some info => (Returned (Some info), log)
  | None =>
      let log' := log ++ [AdvisoryCall packageName] in
      match queryAdvisories env log packageName version with
      | Returned (Some info) => (Returned (Some info), log')
      | Returned None => (Returned None, log')
      | Threw e =>
          if isRateLimitError e then (Returned None, log')
          else (Returned None, log')
      end
  end.

(** ** analyzeDependencies *)

Record OutdatedInfo : Type := mkOutdatedInfo {
  current : string;
  latest : string;
  update_severity : Severity;
}.

Record VulnerableInfo : Type := mkVulnerableInfo {
  vulnerable_current : string;
  vulnerability : VulnerabilityInfo;
}.

(** The three variables the callbacks of a scan share, and the log. *)
Record Analysis : Type := mkAnalysis {
  outdated : gmap string OutdatedInfo;
  vulnerable : gmap string VulnerableInfo;
  rateLimited : bool;
  calls : list Call;
}.

(** A callback suspended on [await getLatestVersion(name)]: the name, the
    cleaned version and the answer it will resume with. *)
Definition Pending : Type := string * string * option string.

(** The callbacks of a batch run in order up to their first await, each
    issuing its registry request. *)
Definition issueLookups (env : Env) (batch : list (string * string)) (log : list Call)
  : list Pending * list Call :=
  foldl (fun '(pending, log) '(name, version) =>
           let '(latestVersion, log') := getLatestVersion env log name in
           (pending ++ [(name, cleanVersion version, latestVersion)], log'))
        ([], log) batch.

(** The rest of a callback, from the answer of the registry on. The two
    maps are written under the name of the package; under the name
    __proto__ the assignment of the code sets the prototype of the object
    and adds no key, which the statement about the keys of the outdated
    map excludes. *)
Definition resume (env : Env) (st : Analysis) (p : Pending) : Analysis :=
  let '(name, cleanVersion, latestVersion) := p in
  let outdated' :=
    match latestVersion with
    | Some latestVersion =>
        if isNewerVersion cleanVersion latestVersion then
          <[name := mkOutdatedInfo cleanVersion latestVersion
                      (calculateUpdateSeverity cleanVersion latestVersion)]> (outdated st)
        else outdated st
    | None => outdated st
    end in
  if rateLimited st then mkAnalysis outdated' (vulnerable st) true (calls st)
  else
    match checkVulnerabilities env (calls st) name cleanVersion with
    | (Returned (Some info), log) =>
        mkAnalysis outdated' (<[name := mkVulnerableInfo cleanVersion info]> (vulnerable st))
          false log
    | (Returned None, log) => mkAnalysis outdated' (vulnerable st) false log
    | (Threw e, log) =>
        if isRateLimitError e then mkAnalysis outdated' (vulnerable st) true log
        else mkAnalysis outdated' (vulnerable st) false log
    end.

(** [await Promise.all(promises)] for one batch. The event loop resumes
    the callbacks in the order in which the registry answers; here each
    resumes, and runs to its end, in the order the requests were issued,
    which is one of the orders the code can take. The advisory requests
    of a batch are therefore logged in one of their possible orders
    ([batch_log]). The pause between two batches has no counterpart:
    nothing observes the time. *)
Definition processBatch (env : Env) (st : Analysis) (batch : list (string * string)) : Analysis :=
  let '(pending, log) := issueLookups env batch (calls st) in
  foldl (resume env) (mkAnalysis (outdated st) (vulnerable st) (rateLimited st) log) pending.

Definition batchSize : nat := 5.

(** [for (let i = 0; i < entries.length; i += batchSize)] collecting
    [entries.slice(i, i + batchSize)]; the length of [entries] is fuel
    enough, see [batches_concat]. *)
Fixpoint batchesFrom (fuel i : nat) (entries : list (string * string))
  : list (list (string * string)) :=
  match fuel with
  | O => []
  | S fuel' =>
      if (i <? length entries)%nat
      then take batchSize (drop i entries) :: batchesFrom fuel' (i + batchSize) entries
      else []
  end.

Definition batches (entries : list (string * string)) : list (list (string * string)) :=
  batchesFrom (length entries) 0 entries.

Definition analyzeDependencies (env : Env) (dependencies : list (string * string)) : Analysis :=
  foldl (processBatch env) (mkAnalysis ∅ ∅ false []) (batches dependencies).

(** ** The stored collections *)

Record Summary : Type := mkSummary {
  summary_outdated : nat;
  summary_vulnerable : nat;
  summary_total : nat;
}.

Record PackageJson : Type := mkPackageJson {
  dependencies : option (list (string * string));
  devDependencies : option (list (string * string));
}.

(** A document of the collection 'scanresults' (ScanResultSchema). *)
Record ScanResultDoc : Type := mkScanResultDoc {
  doc_id : nat;
  doc_userId : string;
  doc_projectName : string;
  doc_filePath : string;
  doc_packageJsonContent : PackageJson;
  doc_scanDate : nat;
  doc_summary : Summary;
  doc_outdated : gmap string OutdatedInfo;
  doc_vulnerable : gmap string VulnerableInfo;
}.

(** A document of the collection of projects (ProjectSchema), with the
    fields the status route reads and the rollup fields next to them. *)
Record ProjectDoc : Type := mkProjectDoc {
  project_name : string;
  project_userId : string;
  outdatedCount : nat;
  vulnerabilityCount : nat;
  lastScanned : nat;
}.

(** [available] is false when an operation on the database throws for a
    reason of its own (no connection); [next_id] is the next fresh _id. *)
Record Database : Type := mkDatabase {
  scanresults : list ScanResultDoc;
  projects : list ProjectDoc;
  next_id : nat;
  available : bool;
}.

(** [new ScanResult({...}).save()]: the schema trims projectName, then
    requires projectName and filePath; summary counts are at least 0 by
    their type. A valid document is appended under a fresh _id. The
    schema also casts userId to an ObjectId; the user ids here are the
    ones the authentication middleware passes, which are ObjectIds
    ([is_object_id]), and the cast of another string is not modelled. *)
Definition save (db : Database) (now : nat) (userId projectName filePath : string)
    (packageJson : PackageJson) (summary : Summary)
    (outdated : gmap string OutdatedInfo) (vulnerable : gmap string VulnerableInfo)
  : option Database :=
  let projectName := JsString.trim projectName in
  if available db && JsString.nonempty projectName && JsString.nonempty filePath then
    Some (mkDatabase
            (scanresults db ++
               [mkScanResultDoc (next_id db) userId projectName filePath packageJson now
                  summary outdated vulnerable])
            (projects db) (S (next_id db)) (available db))
  else None.

(** ** POST /api/scan/package-json *)

Record ScanRequest : Type := mkScanRequest {
  body_packageJson : option PackageJson;
  body_projectName : option string;
  body_filePath : option string;
  user_id : option string;
}.

Record Details : Type := mkDetails {
  details_projectName : string;
  details_scanDate : nat;
  details_outdated : gmap string OutdatedInfo;
  details_vulnerable : gmap string VulnerableInfo;
}.

Inductive ScanBody : Type :=
| ScanFailure (message : string)
| ScanSuccess (summary : Summary) (details : Details) (warnings_rateLimited : option bool).

Definition ScanResponse : Type := nat * ScanBody.

(** [obj[k] = v]: an existing key keeps its position, a new one goes
    last (package names are not array indices, which JavaScript would
    enumerate first). *)
Fixpoint set_key (k v : string) (o : list (string * string)) : list (string * string) :=
  match o with
  | [] => [(k, v)]
  | (k', v') :: o' => if String.eqb k' k then (k, v) :: o' else (k', v') :: set_key k v o'
  end.

(** [{ ...target, ...source }] *)
Definition spread (target source : list (string * string)) : list (string * string) :=
  foldl (fun o '(k, v) => set_key k v o) target source.

(** [s || d] where the empty string and undefined are falsy. *)
Definition truthy (s : option string) : option string :=
  match s with
  | Some s => if JsString.nonempty s then Some s else None
  | None => None
  end.

Definition allDependencies (packageJson : PackageJson) : list (string * string) :=
  spread (spread [] (default [] (dependencies packageJson)))
         (default [] (devDependencies packageJson)).

(** The handler: the response and the database it leaves. [now] is the
    clock. A failed save is caught and only logged. *)
Definition postPackageJson (env : Env) (now : nat) (db : Database) (req : ScanRequest)
  : ScanResponse * Database :=
  match body_packageJson req with
  | None => ((400%nat, ScanFailure "Missing package.json data in request body"), db)
  | Some packageJson =>
      match truthy (user_id req) with
      | None => ((401%nat, ScanFailure "User not authenticated"), db)
      | Some userId =>
          let deps := allDependencies packageJson in
          let analysisResults := analyzeDependencies env deps in
          let summary :=
            {| summary_outdated := size (outdated analysisResults);
               summary_vulnerable := size (vulnerable analysisResults);
               summary_total := length deps |} in
          let projectName := or_default (body_projectName req) "Unknown Project" in
          let details :=
            {| details_projectName := projectName;
               details_scanDate := now;
               details_outdated := outdated analysisResults;
               details_vulnerable := vulnerable analysisResults |} in
          let db' :=
            match save db now userId projectName
                    (or_default (body_filePath req) "package.json")
                    packageJson summary
                    (outdated analysisResults) (vulnerable analysisResults) with
            | Some db' => db'
            | None => db
            end in
          let warnings := if rateLimited analysisResults then Some true else None in
          ((200%nat, ScanSuccess summary details warnings), db')
      end
  end.

(** ** GET /api/projects/:name/status *)

Inductive StatusBody : Type :=
| StatusFailure (message : string)
| StatusCounts (outdated vulnerable : nat).

(** getProjectStatusByName; an exception of findOne goes to the error
    middleware, which answers 500. [new ObjectId(userId)] is taken to
    succeed, as it does on the ids the authentication middleware passes
    ([is_object_id]). *)
Definition getProjectStatusByName (db : Database) (projectName : string) (user : option string)
  : nat * StatusBody :=
  match truthy user with
  | None => (401%nat, StatusFailure "Authentication required")
  | Some userId =>
      if negb (available db) then (500%nat, StatusFailure "Internal Server Error")
      else
        match List.find (fun p => String.eqb (project_name p) projectName
                                  && String.eqb (project_userId p) userId) (projects db) with
        | None => (200%nat, StatusCounts 0 0)
        | Some project => (200%nat, StatusCounts (outdatedCount project) (vulnerabilityCount project))
        end
  end.

(** ** Definitions used by the statements *)

Definition is_version_char (c : ascii) : bool := JsString.is_digit c || JsString.is_dot c.

Definition keeps (c : ascii) : bool := negb (is_range_operator c).

(** A range with an [introduced] bound and no [fixed] bound. *)
Definition rangeFrom (intro : string) : Range :=
  mkRange (Some "SEMVER") (Some [mkEvent (Some intro) None]).

(** A range with both bounds. *)
Definition rangeBetween (intro fix_ : string) : Range :=
  mkRange (Some "SEMVER") (Some [mkEvent (Some intro) None; mkEvent None (Some fix_)]).

(** One to three dot-separated runs of digits. *)
Definition plain_version (v : string) : bool :=
  let cs := JsString.split "." v in
  (length cs <=? 3)%nat && forallb JsString.digits cs.

(** The value a group stands for in compareSegments. *)
Definition group_value (o : option string) (n : Z) : Prop :=
  CompareVersions.isWildcard (CompareVersions.or_zero o) = false ∧ parseInt (CompareVersions.or_zero o) = Some n.

Definition sign_of (x y : Z) : Z := if y <? x then 1 else if x <? y then -1 else 0.

Definition call_name (c : Call) : string :=
  match c with
  | RegistryCall n => n
  | AdvisoryCall n => n
  end.

(** The calls of a log that concern one package. *)
Definition calls_for (name : string) (log : list Call) : list Call :=
  filter (fun c => call_name c = name) log.

(** What a scan holds about one package. *)
Definition view (name : string) (st : Analysis)
  : option OutdatedInfo * option VulnerableInfo * list Call :=
  (outdated st !! name, vulnerable st !! name, calls_for name (calls st)).

(** What the scan of a package leaves when its registry request is
    answered after the calls [h1] and its callback resumes after the
    calls [h2]. *)
Definition package_outcome (env : Env) (name clean : string) (h1 h2 : list Call)
  : option OutdatedInfo * option VulnerableInfo * list Call :=
  (match (getLatestVersion env h1 name).1 with
   | Some latestVersion =>
       if isNewerVersion clean latestVersion
       then Some (mkOutdatedInfo clean latestVersion
                    (calculateUpdateSeverity clean latestVersion))
       else None
   | None => None
   end,
   match (checkVulnerabilities env h2 name clean).1 with
   | Returned (Some info) => Some (mkVulnerableInfo clean info)
   | _ => None
   end,
   RegistryCall name ::
     match knownVulnerablePackages name clean with
     | Some _ => []
     | None => [AdvisoryCall name]
     end).

(** A pending callback answers an entry of the batch. *)
Definition issued (env : Env) (entry : string * string) (p : Pending) : Prop :=
  p.1.1 = entry.1 ∧ p.1.2 = cleanVersion entry.2
  ∧ ∃ h, p.2 = (getLatestVersion env h entry.1).1.

(** A registry that cannot be reached and an advisory API that answers
    every request with a server error. *)
Definition failingEnv : Env :=
  mkEnv (fun _ _ => Threw (AxiosError None))
        (fun _ _ => Threw (AxiosError (Some (500%nat, Some "Internal Server Error"))))
        "00000000".

Definition lodashEnv : Env :=
  mkEnv (fun _ _ => Returned (Some "4.17.21")) (fun _ _ => Returned (Some [])) "00000000".

(** An advisory API that answers every request with the rate-limit
    response of GitHub. *)
Definition rateLimitedEnv : Env :=
  mkEnv (fun _ _ => Returned (Some "1.0.0"))
        (fun _ _ => Threw (AxiosError
                             (Some (403%nat,
                                    Some "API rate limit exceeded for 203.0.113.7."))))
        "00000000".

Definition sixPackages : list (string * string) :=
  [("a", "1.0.0"); ("b", "1.0.0"); ("c", "1.0.0"); ("d", "1.0.0"); ("e", "1.0.0");
   ("f", "1.0.0")].

Definition scan_warnings (r : ScanResponse) : option bool :=
  match r.2 with
  | ScanSuccess _ _ w => w
  | ScanFailure _ => None
  end.

Definition scan_summary (r : ScanResponse) : option Summary :=
  match r.2 with
  | ScanSuccess s _ _ => Some s
  | ScanFailure _ => None
  end.

Definition scan_details (r : ScanResponse) : option Details :=
  match r.2 with
  | ScanSuccess _ d _ => Some d
  | ScanFailure _ => None
  end.

Definition lodashManifest : PackageJson :=
  mkPackageJson (Some [("lodash", "^4.17.20")]) None.

Definition lodashRequest (user : string) : ScanRequest :=
  mkScanRequest (Some lodashManifest) (Some "demo") (Some "package.json") (Some user).

Definition emptyDatabase : Database := mkDatabase [] [] 0 true.

(** The project name under which the handler stores and answers. *)
Definition requestProjectName (req : ScanRequest) : string :=
  or_default (body_projectName req) "Unknown Project".

(** The condition under which [save] stores the document. *)
Definition saves (db : Database) (req : ScanRequest) : bool :=
  available db && JsString.nonempty (JsString.trim (requestProjectName req))
  && JsString.nonempty (or_default (body_filePath req) "package.json").

Definition vulnerableManifest : PackageJson :=
  mkPackageJson (Some [("lodash", "^4.17.0")]) None.

Definition vulnerableRequest : ScanRequest :=
  mkScanRequest (Some vulnerableManifest) (Some "demo") (Some "package.json") (Some "u1").

(** A database that is down. *)
Definition unavailableDatabase : Database := mkDatabase [] [] 0 false.

(** ** The requests and the entries of a scan *)

Definition is_registry_call (c : Call) : bool :=
  match c with RegistryCall _ => true | AdvisoryCall _ => false end.

Definition is_advisory_call (c : Call) : bool :=
  match c with RegistryCall _ => false | AdvisoryCall _ => true end.

(** An entry of the manifest whose name and cleaned version are in the
    static table. *)
Definition in_static_table (entry : string * string) : bool :=
  match knownVulnerablePackages entry.1 (cleanVersion entry.2) with
  | Some _ => true
  | None => false
  end.

(** The requests of one batch of entries: the registry requests, then
    the advisory requests of the entries outside the static table. *)
Definition batch_requests (batch : list (string * string)) : list Call :=
  (RegistryCall <$> batch.*1)
  ++ (AdvisoryCall <$> (filter (fun e => in_static_table e = false) batch).*1).

Definition scan_requests (entries : list (string * string)) : list Call :=
  concat (batch_requests <$> batches entries).

(** [obj[k]] on an object kept as a list of entries. *)
Fixpoint get_key (k : string) (o : list (string * string)) : option string :=
  match o with
  | [] => None
  | (k', v) :: o' => if String.eqb k' k then Some v else get_key k o'
  end.

(** ** The advisories of a response, read as a whole *)

(** A range whose fields rangeAffects can read without throwing. *)
Definition range_readable (range : Range) : bool :=
  if bool_decide (range_type range = Some "SEMVER") then
    match events range with
    | Some (_ :: _) => true
    | _ => false
    end
  else true.

(** An advisory that, when it names the package, has readable ranges. *)
Definition advisory_readable (packageName : string) (advisory : Advisory) : bool :=
  if bool_decide (affected advisory ≫= package_name = Some packageName) then
    match affected advisory ≫= ranges with
    | Some rs => forallb range_readable rs
    | None => false
    end
  else true.

Definition range_holds (version : string) (range : Range) : bool :=
  match rangeAffects version range with
  | Returned b => b
  | Threw _ => false
  end.

(** The advisory names the package and one of its ranges holds the
    version. *)
Definition advisory_affects (packageName version : string) (advisory : Advisory) : bool :=
  bool_decide (affected advisory ≫= package_name = Some packageName)
  && existsb (range_holds version) (default [] (affected advisory ≫= ranges)).

(** A response with an advisory for another package, then two for
    express, the first of which does not reach the version 4.17.1. *)
Definition advisoryData : list Advisory :=
  [mkAdvisory (Some (mkAffected (Some "lodash") (Some [rangeFrom "0.0.0"])))
     (Some "GHSA-0000") (Some "critical") (Some "other package") None;
   mkAdvisory (Some (mkAffected (Some "express") (Some [rangeBetween "3.0.0" "4.0.0"])))
     (Some "GHSA-0001") (Some "low") (Some "first") None;
   mkAdvisory (Some (mkAffected (Some "express") (Some [rangeFrom "4.0.0"])))
     (Some "GHSA-0002") (Some "high") (Some "second") None].

Definition advisoryEnv : Env :=
  mkEnv (fun _ _ => Returned None) (fun _ _ => Returned (Some advisoryData)) "00000000".

(** The same response behind an advisory for express without ranges. *)
Definition brokenAdvisoryEnv : Env :=
  mkEnv (fun _ _ => Returned None)
        (fun _ _ => Returned (Some (mkAdvisory (Some (mkAffected (Some "express") None))
                                      None None None None :: advisoryData)))
        "00000000".

(** ** The local scanner of the extension (LocalScanner.scanFile)

    The scan the extension falls back on: the manifest is checked against
    a table inside the function and no request is sent. The embedding
    starts from the parsed manifest; opening and parsing the document,
    the status bar and the log lines are left out. *)

Module LocalScanner.

(** knownOutdatedPackages: for a name, its [current] and [latest]. *)
Definition knownOutdatedPackages (name : string) : option (string * string) :=
  snd <$> List.find (fun e => String.eqb e.1 name)
    [("axios", ("1.3.0", "1.6.7"));
     ("lodash", ("4.17.20", "4.17.21"));
     ("express", ("4.17.1", "4.18.2"));
     ("moment", ("2.29.1", "2.30.1"));
     ("react", ("17.0.2", "18.2.0"));
     ("uuid", ("8.3.2", "9.0.0"));
     ("typescript", ("4.5.5", "5.3.3"))].

(** One turn of either loop: [outdatedCount] and [outdatedPackages]. *)
Definition check (severity : Severity) (st : nat * gmap string OutdatedInfo)
    (entry : string * string) : nat * gmap string OutdatedInfo :=
  let '(outdatedCount, outdatedPackages) := st in
  let '(name, version) := entry in
  let cleanVersion := cleanVersion version in
  match knownOutdatedPackages name with
  | Some (current, latest) =>
      if String.eqb cleanVersion current
      then (S outdatedCount,
            <[name := mkOutdatedInfo cleanVersion latest severity]> outdatedPackages)
      else st
  | None => st
  end.

Record Result : Type := mkResult {
  summary : Summary;
  outdatedPackages : gmap string OutdatedInfo;
  vulnerablePackages : gmap string VulnerableInfo;
}.

Definition scanFile (packageJson : PackageJson) : Result :=
  let dependencies := default [] (dependencies packageJson) in
  let devDependencies := default [] (devDependencies packageJson) in
  let totalDependencies := (length dependencies + length devDependencies)%nat in
  let st := foldl (check medium) (0%nat, ∅) dependencies in
  let '(outdatedCount, outdated) := foldl (check low) st devDependencies in
  mkResult (mkSummary outdatedCount 0 totalDependencies) outdated ∅.

(** What one section reports for a name: its entry, when the cleaned
    range is exactly the [current] of the table. *)
Definition report (severity : Severity) (section_ : list (string * string)) (name : string)
  : option OutdatedInfo :=
  match get_key name section_, knownOutdatedPackages name with
  | Some range, Some (current, latest) =>
      if String.eqb (cleanVersion range) current
      then Some (mkOutdatedInfo (cleanVersion range) latest severity)
      else None
  | _, _ => None
  end.

End LocalScanner.

(** ** GET /api/users/stats (getUserStats) *)

Module UserStats.

(** [ScanResult.find({ userId })] *)
Definition scansOf (userId : string) (docs : list ScanResultDoc) : list ScanResultDoc :=
  List.filter (fun doc => String.eqb (doc_userId doc) userId) docs.

(** [.sort({ scanDate: -1 })]: newest first. Documents of the same date
    keep the order of the collection here; the database promises no
    order among them. *)
Fixpoint insertNewest (doc : ScanResultDoc) (sorted : list ScanResultDoc)
  : list ScanResultDoc :=
  match sorted with
  | [] => [doc]
  | x :: sorted' =>
      if (doc_scanDate x <=? doc_scanDate doc)%nat then doc :: x :: sorted'
      else x :: insertNewest doc sorted'
  end.

Definition newestFirst (docs : list ScanResultDoc) : list ScanResultDoc :=
  foldr insertNewest [] docs.

(** [new Set(names).size] *)
Definition distinct (names : list string) : nat :=
  size (list_to_set (C := gset string) names).

Record RecentProject : Type := mkRecentProject {
  name : string;
  lastScan : nat;
  dependencyCount : nat;
}.

(** One turn of the loop filling [recentProjectsMap]. *)
Definition addRecent (recent : list RecentProject) (scan : ScanResultDoc)
  : list RecentProject :=
  if negb (existsb (fun r => String.eqb (name r) (doc_projectName scan)) recent)
     && (length recent <? 5)%nat
  then recent ++ [mkRecentProject (doc_projectName scan) (doc_scanDate scan)
                    (summary_total (doc_summary scan))]
  else recent.

Record Stats : Type := mkStats {
  projectsScanned : nat;
  totalDependencies : nat;
  scanCount : nat;
  activeProjects : nat;
  recentProjects : list RecentProject;
}.

Inductive Body : Type :=
| Failure (message : string)
| Success (data : Stats).

(** [thirtyDaysAgo] is the instant the handler computes from the clock;
    a query that throws goes to the error middleware. *)
Definition getUserStats (db : Database) (thirtyDaysAgo : nat) (user : option string)
  : nat * Body :=
  match truthy user with
  | None => (401%nat, Failure "User not authenticated")
  | Some userId =>
      if negb (available db) then (500%nat, Failure "Internal Server Error")
      else
        let scanResults := newestFirst (scansOf userId (scanresults db)) in
        let recentScans :=
          List.filter (fun scan => (thirtyDaysAgo <=? doc_scanDate scan)%nat) scanResults in
        (200%nat,
         Success
           {| projectsScanned := distinct (doc_projectName <$> scanResults);
              totalDependencies :=
                foldl (fun sum scan => (sum + summary_total (doc_summary scan))%nat)
                      0%nat scanResults;
              scanCount := length scanResults;
              activeProjects := distinct (doc_projectName <$> recentScans);
              recentProjects := foldl addRecent [] scanResults |})
  end.

Definition stats (r : nat * Body) : option Stats :=
  match r.2 with
  | Success data => Some data
  | Failure _ => None
  end.

End UserStats.

(** The database with the documents of one user only. *)
Definition onlyUser (userId : string) (db : Database) : Database :=
  mkDatabase (UserStats.scansOf userId (scanresults db))
             (List.filter (fun p => String.eqb (project_userId p) userId) (projects db))
             (next_id db) (available db).

(** Two scans of one project by u1, one scan by u2. *)
Definition statsDatabase : Database :=
  mkDatabase
    [mkScanResultDoc 0 "u1" "demo" "package.json" lodashManifest 10 (mkSummary 0 0 3) ∅ ∅;
     mkScanResultDoc 1 "u2" "other" "package.json" lodashManifest 20 (mkSummary 1 0 9) ∅ ∅;
     mkScanResultDoc 2 "u1" "demo" "package.json" lodashManifest 60 (mkSummary 1 1 4) ∅ ∅]
    [] 3 true.

Definition statsOf (userId : string) : UserStats.Stats :=
  default (UserStats.mkStats 0 0 0 0 [])
    (UserStats.stats (UserStats.getUserStats statsDatabase 50 (Some userId))).

(** ** The in-memory cache (InMemoryCache, CacheService and the routes of
    the cache)

    The Map of the cache is the list of its entries in insertion order,
    every key once. The clock is an argument of the operations that read
    it. [calculateSize] is the byte length of the JSON text of a value;
    it is an argument of the embedding, [None] where JSON.stringify gives
    no text and the measure throws. The timer of the constructor, the
    log lines and the two float fields of getStats are left out. *)

Module Cache.

Section Values.

Context {V : Type}.

Record Item : Type := mkItem {
  value : V;
  expiresAt : option Z;
  accessCount : nat;
  lastAccessed : Z;
  item_size : nat;
}.

Record Stats : Type := mkStats {
  totalItems : Z;
  totalSize : Z;
  hitCount : nat;
  missCount : nat;
  evictionCount : nat;
}.

Record State : Type := mkState {
  entries : list (string * Item);
  stats : Stats;
  maxItems : Z;
  maxMemoryMB : Z;
}.

(** Map.prototype.get, set and delete. *)
Fixpoint map_get (key : string) (m : list (string * Item)) : option Item :=
  match m with
  | [] => None
  | (k, item) :: m' => if String.eqb k key then Some item else map_get key m'
  end.

Fixpoint map_set (key : string) (item : Item) (m : list (string * Item))
  : list (string * Item) :=
  match m with
  | [] => [(key, item)]
  | (k, i) :: m' =>
      if String.eqb k key then (key, item) :: m' else (k, i) :: map_set key item m'
  end.

Fixpoint map_delete (key : string) (m : list (string * Item)) : list (string * Item) :=
  match m with
  | [] => []
  | (k, i) :: m' => if String.eqb k key then m' else (k, i) :: map_delete key m'
  end.

(** [options.maxItems || 10000] and [options.maxMemoryMB || 100] *)
Definition create (maxItems maxMemoryMB : option Z) : State :=
  let or_ (o : option Z) (d : Z) :=
    match o with
    | Some n => if n =? 0 then d else n
    | None => d
    end in
  mkState [] (mkStats 0 0 0 0 0) (or_ maxItems 10000) (or_ maxMemoryMB 100).

Definition maxSizeBytes (c : State) : Z := maxMemoryMB c * 1024 * 1024.

(** [item.expiresAt && item.expiresAt < now] *)
Definition expired (item : Item) (now : Z) : bool :=
  match expiresAt item with
  | Some e => negb (e =? 0) && (e <? now)
  | None => false
  end.

(** [entries.sort(([, a], [, b]) => a.lastAccessed - b.lastAccessed)]:
    oldest first, entries of the same instant in the order of the Map. *)
Fixpoint insertByAccess (e : string * Item) (sorted : list (string * Item))
  : list (string * Item) :=
  match sorted with
  | [] => [e]
  | x :: sorted' =>
      if lastAccessed e.2 <=? lastAccessed x.2 then e :: x :: sorted'
      else x :: insertByAccess e sorted'
  end.

Definition sortByAccess (m : list (string * Item)) : list (string * Item) :=
  foldr insertByAccess [] m.

(** The loop of performLRUEviction over the sorted entries. The
    accumulator is [evictedSize], [evictedCount] and the Map; the test
    reads the live size of the Map, from which the evicted entries are
    already gone, and subtracts [evictedCount] from it. *)
Fixpoint evictLoop (total maxBytes maxCount : Z) (sorted : list (string * Item))
    (acc : Z * nat * list (string * Item)) : Z * nat * list (string * Item) :=
  match sorted with
  | [] => acc
  | (key, item) :: sorted' =>
      let '(evictedSize, evictedCount, cache) := acc in
      if (total - evictedSize <=? maxBytes)
         && (Z.of_nat (length cache) - Z.of_nat evictedCount <=? maxCount)
      then acc
      else evictLoop total maxBytes maxCount sorted'
             (evictedSize + Z.of_nat (item_size item), S evictedCount,
              map_delete key cache)
  end.

Definition performLRUEviction (c : State) : State :=
  if (totalSize (stats c) <=? maxSizeBytes c)
     && (Z.of_nat (length (entries c)) <=? maxItems c)
  then c
  else
    let '(evictedSize, evictedCount, cache) :=
      evictLoop (totalSize (stats c)) (maxSizeBytes c) (maxItems c)
        (sortByAccess (entries c)) (0, 0%nat, entries c) in
    mkState cache
      (mkStats (Z.of_nat (length cache)) (totalSize (stats c) - evictedSize)
         (hitCount (stats c)) (missCount (stats c))
         (evictionCount (stats c) + evictedCount))
      (maxItems c) (maxMemoryMB c).

(** The loop of cleanup over the entries of the Map: [reclaimedSize],
    the number of entries removed and the Map. *)
Definition sweep (now : Z) (m : list (string * Item)) : Z * nat * list (string * Item) :=
  foldl (fun '(reclaimedSize, cleanedItems, cache) '(key, item) =>
           if expired item now
           then (reclaimedSize + Z.of_nat (item_size item), S cleanedItems,
                 map_delete key cache)
           else (reclaimedSize, cleanedItems, cache))
        (0, 0%nat, m) m.

Definition cleanup (now : Z) (c : State) : State :=
  let '(reclaimedSize, cleanedItems, cache) := sweep now (entries c) in
  performLRUEviction
    (mkState cache
       (mkStats (Z.of_nat (length cache)) (totalSize (stats c) - reclaimedSize)
          (hitCount (stats c)) (missCount (stats c))
          (evictionCount (stats c) + cleanedItems))
       (maxItems c) (maxMemoryMB c)).

Definition withStats (c : State) (s : Stats) (m : list (string * Item)) : State :=
  mkState m s (maxItems c) (maxMemoryMB c).

Definition get (now : Z) (key : string) (c : State) : option V * State :=
  let s := stats c in
  match map_get key (entries c) with
  | None =>
      (None,
       withStats c (mkStats (totalItems s) (totalSize s) (hitCount s) (S (missCount s))
                      (evictionCount s)) (entries c))
  | Some item =>
      if expired item now then
        (None,
         withStats c (mkStats (totalItems s - 1) (totalSize s - Z.of_nat (item_size item))
                        (hitCount s) (S (missCount s)) (evictionCount s))
           (map_delete key (entries c)))
      else
        (Some (value item),
         withStats c (mkStats (totalItems s) (totalSize s) (S (hitCount s)) (missCount s)
                        (evictionCount s))
           (map_set key (mkItem (value item) (expiresAt item) (S (accessCount item)) now
                           (item_size item)) (entries c)))
  end.

Variable calculateSize : V -> option nat.

(** [ttlSeconds ? now + ttlSeconds * 1000 : undefined] *)
Definition expiry (now : Z) (ttlSeconds : option Z) : option Z :=
  match ttlSeconds with
  | Some t => if t =? 0 then None else Some (now + t * 1000)
  | None => None
  end.

Definition set (now : Z) (key : string) (v : V) (ttlSeconds : option Z) (c : State)
  : bool * State :=
  match calculateSize v with
  | None => (false, c)
  | Some size =>
      let s := stats c in
      let '(items, bytes) :=
        match map_get key (entries c) with
        | Some existingItem => (totalItems s, totalSize s - Z.of_nat (item_size existingItem))
        | None => (totalItems s + 1, totalSize s)
        end in
      let item := mkItem v (expiry now ttlSeconds) 1 now size in
      let cache := map_set key item (entries c) in
      let c' :=
        withStats c (mkStats items (bytes + Z.of_nat size) (hitCount s) (missCount s)
                       (evictionCount s)) cache in
      if (maxSizeBytes c <? totalSize (stats c'))
         || (maxItems c <? Z.of_nat (length cache))
      then (true, performLRUEviction c')
      else (true, c')
  end.

Definition del (key : string) (c : State) : bool * State :=
  let s := stats c in
  match map_get key (entries c) with
  | Some item =>
      (true,
       withStats c (mkStats (totalItems s - 1) (totalSize s - Z.of_nat (item_size item))
                      (hitCount s) (missCount s) (evictionCount s))
         (map_delete key (entries c)))
  | None => (true, withStats c s (map_delete key (entries c)))
  end.

Definition exists_ (now : Z) (key : string) (c : State) : bool * State :=
  let s := stats c in
  match map_get key (entries c) with
  | None => (false, c)
  | Some item =>
      if expired item now then
        (false,
         withStats c (mkStats (totalItems s - 1) (totalSize s - Z.of_nat (item_size item))
                        (hitCount s) (missCount s) (evictionCount s))
           (map_delete key (entries c)))
      else (true, c)
  end.

Definition flushAll (c : State) : bool * State :=
  (true, withStats c (mkStats 0 0 0 0 0) []).

(** DELETE /api/cache/:key: 200 when [del] answers true, 404 otherwise. *)
Definition deleteRoute (key : string) (c : State) : nat * State :=
  let '(deleted, c') := del key c in
  if deleted then (200%nat, c') else (404%nat, c').

(** The sum of the sizes of the entries. *)
Definition bytes (m : list (string * Item)) : Z :=
  Z.of_nat (sum_list_with (fun e => item_size e.2) m).

(** The statistics agree with the Map. *)
Definition consistent (c : State) : Prop :=
  NoDup (entries c).*1
  ∧ totalItems (stats c) = Z.of_nat (length (entries c))
  ∧ totalSize (stats c) = bytes (entries c).

(** The Map is within both limits. *)
Definition within (c : State) : Prop :=
  Z.of_nat (length (entries c)) ≤ maxItems c ∧ bytes (entries c) ≤ maxSizeBytes c.

End Values.

Arguments Item : clear implicits.
Arguments State : clear implicits.

End Cache.

(** The Map without the keys of a list of entries. *)
Definition remove_all {V : Type} (evicted cache : list (string * Cache.Item V))
  : list (string * Cache.Item V) :=
  foldl (fun m e => Cache.map_delete e.1 m) cache evicted.

(** Oldest first. *)
Fixpoint oldest_first {V : Type} (m : list (string * Cache.Item V)) : Prop :=
  match m with
  | [] => True
  | e :: m' =>
      Forall (fun x => Cache.lastAccessed e.2 ≤ Cache.lastAccessed x.2) m' ∧ oldest_first m'
  end.

(** The states the cache takes: the constructor's, then any call of a
    method or run of the timer's cleanup, at any instant. *)
Inductive reachable {V : Type} (calculateSize : V -> option nat)
    (maxItems maxMemoryMB : option Z) : Cache.State V -> Prop :=
  | reachable_create :
      reachable calculateSize maxItems maxMemoryMB (Cache.create maxItems maxMemoryMB)
  | reachable_get now key c :
      reachable calculateSize maxItems maxMemoryMB c ->
      reachable calculateSize maxItems maxMemoryMB (Cache.get now key c).2
  | reachable_set now key v ttlSeconds c :
      reachable calculateSize maxItems maxMemoryMB c ->
      reachable calculateSize maxItems maxMemoryMB
        (Cache.set calculateSize now key v ttlSeconds c).2
  | reachable_del key c :
      reachable calculateSize maxItems maxMemoryMB c ->
      reachable calculateSize maxItems maxMemoryMB (Cache.del key c).2
  | reachable_exists now key c :
      reachable calculateSize maxItems maxMemoryMB c ->
      reachable calculateSize maxItems maxMemoryMB (Cache.exists_ now key c).2
  | reachable_flushAll c :
      reachable calculateSize maxItems maxMemoryMB c ->
      reachable calculateSize maxItems maxMemoryMB (Cache.flushAll c).2
  | reachable_cleanup now c :
      reachable calculateSize maxItems maxMemoryMB c ->
      reachable calculateSize maxItems maxMemoryMB (Cache.cleanup now c).

(** A cache of strings whose size is their length, for two items and one
    megabyte. *)
Definition lengthOf (v : string) : option nat := Some (String.length v).

Definition smallCache : Cache.State string := Cache.create (Some 2) (Some 1).

(** * The shared utilities *)

(** ** Regular expressions

    The expressions the utilities test strings against, and
    [RegExp.prototype.test] for an expression anchored at both ends: the
    whole string has to match. The test goes by derivatives, which decides
    the same strings as the backtracking of the engine. *)

Module Regex.

Inductive re : Type :=
| Empty
| Eps
| Class (p : ascii -> bool)
| Seq (r1 r2 : re)
| Alt (r1 r2 : re)
| Star (r : re).

(** [r?] and [r+] *)
Definition Opt (r : re) : re := Alt r Eps.
Definition Plus (r : re) : re := Seq r (Star r).

Fixpoint nullable (r : re) : bool :=
  match r with
  | Empty => false
  | Eps => true
  | Class _ => false
  | Seq r1 r2 => nullable r1 && nullable r2
  | Alt r1 r2 => nullable r1 || nullable r2
  | Star _ => true
  end.

Fixpoint deriv (c : ascii) (r : re) : re :=
  match r with
  | Empty => Empty
  | Eps => Empty
  | Class p => if p c then Eps else Empty
  | Seq r1 r2 =>
      if nullable r1 then Alt (Seq (deriv c r1) r2) (deriv c r2)
      else Seq (deriv c r1) r2
  | Alt r1 r2 => Alt (deriv c r1) (deriv c r2)
  | Star r' => Seq (deriv c r') (Star r')
  end.

Fixpoint test (r : re) (s : string) : bool :=
  match s with
  | EmptyString => nullable r
  | String c s' => test (deriv c r) s'
  end.

End Regex.

(** ** Versions, vulnerabilities and packages *)

Module Shared.

Import Regex.

Definition digit : re := Class JsString.is_digit.

(** [[0-9A-Za-z-]] *)
Definition identifier_char (c : ascii) : bool :=
  JsString.is_digit c || JsString.is_upper c || JsString.is_lower c || Ascii.eqb c "-".

Definition char (a : ascii) : re := Class (Ascii.eqb a).

(** The expression of isValidSemVer: up to two groups of digits and a
    dot, a star or digits, then a hyphen and dot-separated identifiers
    and a plus sign and one identifier, each of the two optional. *)
Definition semVerRegex : re :=
  Seq (Opt (Seq (Plus digit) (char ".")))
    (Seq (Opt (Seq (Plus digit) (char ".")))
       (Seq (Alt (char "*") (Plus digit))
          (Seq (Opt (Seq (char "-")
                       (Seq (Plus (Class identifier_char))
                          (Star (Seq (char ".") (Plus (Class identifier_char)))))))
             (Opt (Seq (char "+") (Plus (Class identifier_char))))))).

Definition isValidSemVer (version : string) : bool := test semVerRegex version.

(** [part || 0] on an element that may be missing: undefined, NaN and 0
    give 0. *)
Definition or_zero (part : option jsnum) : Z :=
  match part with
  | Some (Num n) => n
  | _ => 0
  end.

(** The loop of compareSemVer from index [i], with [steps] indices left. *)
Fixpoint compareFrom (steps i : nat) (aParts bParts : list jsnum) : Z :=
  match steps with
  | O => 0
  | S steps' =>
      let aPart := or_zero (aParts !! i) in
      let bPart := or_zero (bParts !! i) in
      if aPart <? bPart then -1
      else if bPart <? aPart then 1
      else compareFrom steps' (S i) aParts bParts
  end.

Definition compareSemVer (a b : string) : Z :=
  let aParts := toNumber <$> JsString.split "." a in
  let bParts := toNumber <$> JsString.split "." b in
  compareFrom (Nat.max (length aParts) (length bParts)) 0 aParts bParts.

Definition isPackageOutdated (current latest : string) : bool :=
  if negb (isValidSemVer current) || negb (isValidSemVer latest) then false
  else compareSemVer current latest <? 0.

Inductive Level : Type := low | moderate | high | critical.

Definition VULNERABILITY_SCORES (level : Level) : Z :=
  match level with
  | low => 1
  | moderate => 2
  | high => 3
  | critical => 4
  end.

(** The fields of a vulnerability that are strings or the severity; the
    optional [cwe] and [cvss], which no utility reads, are left out. *)
Record VulnerabilityInfo : Type := mkVulnerabilityInfo {
  id : string;
  title : string;
  description : string;
  severity : Level;
  package : string;
  version : string;
  fixedIn : option string;
}.

Definition score (vuln : VulnerabilityInfo) : Z := VULNERABILITY_SCORES (severity vuln).

(** [vulnerabilities.sort((a, b) => scoreB - scoreA)]: the highest score
    first, entries of one score in the order of the array. The array is
    sorted in place and is what the function returns. *)
Fixpoint insertBySeverity (vuln : VulnerabilityInfo) (sorted : list VulnerabilityInfo)
  : list VulnerabilityInfo :=
  match sorted with
  | [] => [vuln]
  | x :: sorted' =>
      if score x <=? score vuln then vuln :: x :: sorted'
      else x :: insertBySeverity vuln sorted'
  end.

Definition sortVulnerabilitiesBySeverity (vulnerabilities : list VulnerabilityInfo)
  : list VulnerabilityInfo :=
  foldr insertBySeverity [] vulnerabilities.

Definition filterVulnerabilitiesBySeverity (vulnerabilities : list VulnerabilityInfo)
    (minSeverity : Level) : list VulnerabilityInfo :=
  let minScore := VULNERABILITY_SCORES minSeverity in
  List.filter (fun vuln => minScore <=? score vuln) vulnerabilities.

(** A package, without the optional [license], [description], [homepage]
    and [repository], which no utility reads; [package_version] is its
    field [version]. *)
Record PackageInfo : Type := mkPackageInfo {
  name : string;
  package_version : string;
  latestVersion : option string;
  isOutdated : bool;
  hasVulnerabilities : bool;
  vulnerabilityCount : Z;
}.

Record Groups : Type := mkGroups {
  outdated : list PackageInfo;
  vulnerable : list PackageInfo;
  upToDate : list PackageInfo;
}.

Definition groupPackagesByStatus (packages : list PackageInfo) : Groups :=
  foldl (fun groups pkg =>
           if hasVulnerabilities pkg then
             mkGroups (outdated groups) (vulnerable groups ++ [pkg]) (upToDate groups)
           else if isOutdated pkg then
             mkGroups (outdated groups ++ [pkg]) (vulnerable groups) (upToDate groups)
           else
             mkGroups (outdated groups) (vulnerable groups) (upToDate groups ++ [pkg]))
        (mkGroups [] [] []) packages.

(** The score is an integer, which Math.round leaves as it is. *)
Definition calculatePackageHealthScore (packages : list PackageInfo) : Z :=
  match packages with
  | [] => 100
  | _ =>
      let vulnerablePackages :=
        Z.of_nat (length (List.filter (fun pkg => hasVulnerabilities pkg) packages)) in
      let outdatedPackages :=
        Z.of_nat (length (List.filter
                            (fun pkg => isOutdated pkg && negb (hasVulnerabilities pkg))
                            packages)) in
      let vulnerabilityPenalty := vulnerablePackages * 10 in
      let outdatedPenalty := outdatedPackages * 5 in
      Z.max 0 (100 - (vulnerabilityPenalty + outdatedPenalty))
  end.

End Shared.

(** Highest score first. *)
Fixpoint critical_first (l : list Shared.VulnerabilityInfo) : Prop :=
  match l with
  | [] => True
  | x :: l' => Forall (fun y => Shared.score y ≤ Shared.score x) l' ∧ critical_first l'
  end.

(** An expression that matches no string, by its shape. *)
Fixpoint dead (r : Regex.re) : bool :=
  match r with
  | Regex.Empty => true
  | Regex.Eps => false
  | Regex.Class _ => false
  | Regex.Seq r1 r2 => dead r1 || dead r2
  | Regex.Alt r1 r2 => dead r1 && dead r2
  | Regex.Star _ => false
  end.

(** * The scanner of the extension

    updateTreeProviderStatus of PackageScanner, which hands the answer of
    the scan route to the tree view; it does nothing when there is no
    tree provider, and this is the case in which there is one. *)

Module PackageScanner.

Inductive DependencyStatus : Type := outdated | vulnerable | deprecated | ok | loading.

Record ScanStats : Type := mkScanStats {
  stats_outdated : nat;
  stats_vulnerable : nat;
  stats_deprecated : nat;
  stats_total : nat;
}.

(** What the function reads of the response: the keys of the objects
    [details.dependencies.outdated], [.vulnerable] and [.deprecated],
    each absent when the object or a step of the path to it is missing,
    and [summary.total]. *)
Record ScanData : Type := mkScanData {
  outdatedNames : option (list string);
  vulnerableNames : option (list string);
  deprecatedNames : option (list string);
  total : option nat;
}.

(** [Object.keys(object).forEach(name => { dependencyStatuses[name] =
    status; count++ })], when the object is there. *)
Definition mark (status : DependencyStatus) (names : option (list string))
    (dependencyStatuses : gmap string DependencyStatus)
  : gmap string DependencyStatus * nat :=
  match names with
  | None => (dependencyStatuses, 0%nat)
  | Some names =>
      foldl (fun '(statuses, count) name => (<[name := status]> statuses, S count))
            (dependencyStatuses, 0%nat) names
  end.

(** [file] is what reading and parsing the manifest again gives, when
    that succeeds. *)
Definition updateTreeProviderStatus (file : option PackageJson) (scanData : ScanData)
  : gmap string DependencyStatus * ScanStats :=
  let '(statuses1, outdatedCount) := mark outdated (outdatedNames scanData) ∅ in
  let '(statuses2, vulnerableCount) :=
    mark vulnerable (vulnerableNames scanData) statuses1 in
  let '(statuses3, deprecatedCount) :=
    mark deprecated (deprecatedNames scanData) statuses2 in
  let total :=
    match total scanData with
    | Some (S n) => S n
    | _ =>
        match file with
        | Some packageJson => length (allDependencies packageJson)
        | None => (outdatedCount + vulnerableCount + deprecatedCount)%nat
        end
    end in
  (statuses3, mkScanStats outdatedCount vulnerableCount deprecatedCount total).

End PackageScanner.

(** The body of a successful answer of the scan route, as the extension
    reads it. *)
Definition scanDataOf (summary : Summary) (details : Details) : PackageScanner.ScanData :=
  PackageScanner.mkScanData
    (Some (map_to_list (details_outdated details)).*1)
    (Some (map_to_list (details_vulnerable details)).*1)
    None
    (Some (summary_total summary)).

(** ** The inputs on which the embedding is exact

    The statements below that depend on the number read for a component,
    on the static table missing a package, on a key written into the
    outdated map or on the cast of a user id carry one of these
    conditions. *)

(** Number.MAX_SAFE_INTEGER, 2^53 - 1. Number and parseInt give a double:
    a run of digits up to this value is read exactly, a longer one is
    rounded. *)
Definition MAX_SAFE_INTEGER : Z := 9007199254740991.

(** Every dot-separated component of the version is at most
    MAX_SAFE_INTEGER when read as a decimal number. *)
Definition safe_components (version : string) : bool :=
  forallb (fun c => JsString.decimal c <=? MAX_SAFE_INTEGER) (JsString.split "." version).

(** The property names every object inherits from Object.prototype. *)
Definition prototype_keys : list string :=
  ["constructor"; "__proto__"; "hasOwnProperty"; "isPrototypeOf"; "propertyIsEnumerable";
   "toLocaleString"; "toString"; "valueOf"; "__defineGetter__"; "__defineSetter__";
   "__lookupGetter__"; "__lookupSetter__"].

Definition inherited (key : string) : bool := existsb (String.eqb key) prototype_keys.

(** [knownVulnerablePackages[packageName]?.[version]] finds nothing but
    what the table holds under own keys: the version starts with a
    digit, as no property that an object or a function inherits does, or
    neither name is one that the table, or a record of the table,
    inherits. Then the lookup of the code is [knownVulnerablePackages]
    above. *)
Definition own_lookup (packageName version : string) : bool :=
  match version with
  | String c _ => JsString.is_digit c
  | EmptyString => false
  end
  || (negb (inherited packageName) && negb (inherited version)).

Definition is_hex_char (c : ascii) : bool :=
  JsString.is_digit c
  || ((97 <=? JsString.code c) && (JsString.code c <=? 102))%N
  || ((65 <=? JsString.code c) && (JsString.code c <=? 70))%N.

(** A string of 24 hexadecimal characters, which [new ObjectId] and the
    cast of the schema accept: the spelling of the ids that the
    authentication middleware passes on. *)
Definition is_object_id (s : string) : bool :=
  (String.length s =? 24)%nat && JsString.all_chars is_hex_char s.

(** The ids of the stored records are below the next one to be given, as
    in every database that [save] has filled. *)
Definition ids_below_next (db : Database) : Prop :=
  Forall (fun doc => (doc_id doc < next_id db)%nat) (scanresults db).

Definition scanUser : string := "507f1f77bcf86cd799439011".

Definition vulnerableRequestOf (user : string) : ScanRequest :=
  mkScanRequest (Some vulnerableManifest) (Some "demo") (Some "package.json") (Some user).

(** A registry that knows lodash only, and an advisory API that answers
    every request with a server error. *)
Definition mixedEnv : Env :=
  mkEnv (fun _ name =>
           if String.eqb name "lodash" then Returned (Some "4.17.21")
           else Threw (AxiosError None))
        (fun _ _ => Threw (AxiosError (Some (500%nat, Some "Internal Server Error"))))
        "00000000".

(** The requests of a batch as the event loop may order them: the
    registry requests in the order of the entries, then the advisory
    requests of the entries outside the static table in the order in
    which the registry answered. *)
Definition batch_log (batch : list (string * string)) (log : list Call) : Prop :=
  ∃ advisory,
    log = (RegistryCall <$> batch.*1) ++ advisory
    ∧ advisory ≡ₚ AdvisoryCall <$> (filter (fun e => in_static_table e = false) batch).*1.

(** * Properties *)

(** ** Strings *)

Section StringFacts.

Import JsString.

Lemma split_not_nil sep s : split sep s ≠ [].
Proof.
  destruct s as [|c s]; simpl; [done|].
  destruct (Ascii.eqb c sep); [done|]. by destruct (split sep s).
Qed.


(** Splitting loses nothing: joining the pieces gives the string back. *)
Lemma join_split sep s : join sep (split sep s) = s.
Proof.
  induction s as [|c s IH]; simpl; [done|].
  destruct (Ascii.eqb_spec c sep) as [->|Hne].
  - pose proof (split_not_nil sep s).
    destruct (split sep s) as [|h t]; [done|]. simpl in *. by rewrite IH.
  - destruct (split sep s) as [|h t] eqn:E; simpl in *; [by subst|].
    destruct t; simpl in *; by subst.
Qed.

Lemma append_nil_r s : s +:+ "" = s.
Proof.
  induction s as [|c s IH]; [done|].
  change (String c (s +:+ "") = String c s). by rewrite IH.
Qed.

Lemma all_chars_app p a b :
  all_chars p (a +:+ b) = all_chars p a && all_chars p b.
Proof. induction a as [|c a IH]; simpl; [done|]. by rewrite IH, andb_assoc. Qed.

Lemma all_chars_impl (p q : ascii → bool) s :
  (∀ c, p c = true → q c = true) → all_chars p s = true → all_chars q s = true.
Proof.
  intros Hpq. induction s as [|c s IH]; simpl; [done|].
  intros [Hc Hs]%andb_prop. by rewrite (Hpq _ Hc), IH.
Qed.

Lemma filter_chars_all p s : all_chars p (filter_chars p s) = true.
Proof.
  induction s as [|c s IH]; simpl; [done|].
  destruct (p c) eqn:E; simpl; [by rewrite E|done].
Qed.

Lemma filter_chars_id p s : all_chars p s = true → filter_chars p s = s.
Proof.
  induction s as [|c s IH]; simpl; [done|].
  intros [-> Hs]%andb_prop. by rewrite IH.
Qed.

Lemma filter_chars_keeps (p q : ascii → bool) s :
  all_chars q s = true → all_chars q (filter_chars p s) = true.
Proof.
  induction s as [|c s IH]; simpl; [done|].
  intros [Hc Hs]%andb_prop. destruct (p c); simpl; [by rewrite Hc, IH|by apply IH].
Qed.

Lemma span_all p s rest :
  all_chars p s = true →
  (match rest with EmptyString => true | String c _ => negb (p c) end) = true →
  span p (s +:+ rest) = (s, rest).
Proof.
  intros Hs Hrest. induction s as [|c s IH]; simpl in *.
  - destruct rest as [|c r]; simpl; [done|].
    by apply negb_true_iff in Hrest as ->.
  - apply andb_prop in Hs as [-> Hs]. by rewrite IH.
Qed.

Lemma span_all_end p s : all_chars p s = true → span p s = (s, EmptyString).
Proof.
  intros Hs. induction s as [|c s IH]; simpl in *; [done|].
  apply andb_prop in Hs as [-> Hs]. by rewrite IH.
Qed.



Lemma digits_inv s :
  digits s = true → ∃ c r, s = String c r ∧ is_digit c = true ∧ all_chars is_digit r = true.
Proof.
  unfold digits. destruct s as [|c r]; simpl; [done|].
  intros [? ?]%andb_prop. eauto.
Qed.

Lemma digits_all s : digits s = true → all_chars is_digit s = true.
Proof. unfold digits. by intros [_ ?]%andb_prop. Qed.

End StringFacts.

(** ** Cleaning (claim C7) *)

Lemma cleanVersion_example : cleanVersion "^1.2.3" = "1.2.3".
Proof. reflexivity. Qed.

(** C7, as stated, fails: a declared range with a pre-release tag keeps
    its hyphen and letters, so the cleaned string is not made of digits
    and dots only. *)
Lemma cleanVersion_keeps_other_characters :
  cleanVersion "^1.0.0-beta.1" = "1.0.0-beta.1"
  ∧ JsString.all_chars is_version_char (cleanVersion "^1.0.0-beta.1") = false.
Proof. split; reflexivity. Qed.

(** C7, amended: the cleaned string is the declared string without its
    characters ^ ~ > = <: the other characters are all there, as often
    and in the order in which they stand in the declared string. So
    cleaning leaves none of the five characters, changes nothing in a
    string that has none of them, and turns a string made of digits, dots
    and these five characters into one made of digits and dots only. *)
Theorem cleanVersion_removes_operators (version : string) :
  list_ascii_of_string (cleanVersion version)
  = List.filter (fun c => negb (is_range_operator c)) (list_ascii_of_string version)
  ∧ JsString.all_chars keeps (cleanVersion version) = true
  ∧ (JsString.all_chars keeps version = true → cleanVersion version = version)
  ∧ (JsString.all_chars (fun c => is_version_char c || is_range_operator c) version = true →
     JsString.all_chars is_version_char (cleanVersion version) = true).
Proof.
  split.
  { unfold cleanVersion. induction version as [|c s IH]; simpl; [done|].
    destruct (is_range_operator c); simpl; by rewrite IH. }
  unfold cleanVersion. fold keeps. split; [apply filter_chars_all|].
  split; [apply filter_chars_id|].
  induction version as [|c s IH]; simpl; [done|].
  intros [Hc Hs]%andb_prop. unfold keeps at 1.
  destruct (is_range_operator c) eqn:Hop; simpl.
  - by apply IH.
  - rewrite orb_false_r in Hc. rewrite Hc. by apply IH.
Qed.

Lemma cleanVersion_removes_operators_witness :
  list_ascii_of_string (cleanVersion ">=1.2.3 <2.0.0-rc") = list_ascii_of_string "1.2.3 2.0.0-rc"
  ∧ JsString.all_chars keeps (cleanVersion ">=1.2.3 <2.0.0") = true
  ∧ cleanVersion "1.2.3" = "1.2.3"
  ∧ JsString.all_chars is_version_char (cleanVersion "~>1.2.3") = true.
Proof.
  split.
  { rewrite (proj1 (cleanVersion_removes_operators ">=1.2.3 <2.0.0-rc")). reflexivity. }
  split; [apply (cleanVersion_removes_operators ">=1.2.3 <2.0.0")|].
  split.
  - apply (cleanVersion_removes_operators "1.2.3"). reflexivity.
  - apply (cleanVersion_removes_operators "~>1.2.3"). reflexivity.
Defined.

(** ** The affected-range check (claim C8) *)

Lemma rangeAffects_from version intro :
  rangeAffects version (rangeFrom intro) = Returned (negb (String.ltb version intro)).
Proof.
  unfold rangeAffects, rangeFrom, JsString.ge. cbn [range_type events].
  case_bool_decide; [|done]. simpl.
  by destruct (String.ltb version intro).
Qed.

Lemma rangeAffects_between version intro fix_ :
  JsString.nonempty fix_ = true →
  rangeAffects version (rangeBetween intro fix_)
  = Returned (negb (String.ltb version intro) && String.ltb version fix_).
Proof.
  intros Hfix. unfold rangeAffects, rangeBetween, JsString.ge, JsString.lt.
  cbn [range_type events]. case_bool_decide; [|done]. simpl. rewrite Hfix. simpl.
  by destruct (String.ltb version intro).
Qed.

(** C8: the membership check is the lexical order of the strings, for
    every version and every introduced and fixed bound; on versions with a two-digit component
    it disagrees with the numeric order in both directions: 10.0.0 is
    below 9.0.0 for it, so a range open from 9.0.0 misses 10.0.0 although
    10.0.0 is numerically newer, and a range open from 10.0.0 catches
    9.0.0 although 9.0.0 is numerically older; the first miss makes
    checkVulnerabilities report nothing for an affected package. *)
Theorem rangeAffects_is_lexical :
  (∀ version intro,
     rangeAffects version (rangeFrom intro) = Returned (negb (String.ltb version intro)))
  ∧ (∀ version intro c fix_,
       rangeAffects version (rangeBetween intro (String c fix_))
       = Returned (negb (String.ltb version intro) && String.ltb version (String c fix_)))
  ∧ JsString.lt "10.0.0" "9.0.0" = true
  ∧ (rangeAffects "10.0.0" (rangeFrom "9.0.0") = Returned false
     ∧ Reference.newer "9.0.0" "10.0.0" = true)
  ∧ (rangeAffects "9.0.0" (rangeFrom "10.0.0") = Returned true
     ∧ Reference.newer "9.0.0" "10.0.0" = true)
  ∧ (let advisory :=
       mkAdvisory (Some (mkAffected (Some "pkg") (Some [rangeFrom "9.0.0"])))
         (Some "GHSA-0000") (Some "high") (Some "affects 9.0.0 and later") None in
     let env :=
       mkEnv (fun _ _ => Returned (Some "10.0.0"))
             (fun _ _ => Returned (Some [advisory])) "00000000" in
     (checkVulnerabilities env [] "pkg" "10.0.0").1 = Returned None
     ∧ (checkVulnerabilities env [] "pkg" "9.5.0").1
       = Returned (Some (mkVulnerabilityInfo "GHSA-0000" "high"
                           "affects 9.0.0 and later" (Some [])))).
Proof.
  split; [apply rangeAffects_from|].
  split; [intros; by apply rangeAffects_between|].
  repeat split; vm_compute; reflexivity.
Qed.

(** ** Update severity (claim C5) *)

Section Severity.

Import JsString.

Lemma toNumber_digits c : digits c = true → toNumber c = Num (decimal c).
Proof.
  intros Hc. pose proof (digits_all _ Hc) as Hall.
  apply digits_inv in Hc as (a & r & -> & _ & _).
  unfold toNumber. by rewrite Hall.
Qed.

Lemma component_Some_inv o n :
  Reference.component o = Some n →
  (o = None ∧ n = 0) ∨ (∃ c, o = Some c ∧ digits c = true ∧ n = decimal c).
Proof.
  destruct o as [c|]; simpl.
  - destruct (digits c) eqn:E; [|done]. intros [= <-]. right. eauto.
  - intros [= <-]. by left.
Qed.



End Severity.


(** The function itself tests [latestMajor > currentMajor], not a
    difference; analyzeDependencies calls it only when the latest version
    is newer, where the two coincide. *)
Lemma calculateUpdateSeverity_tests_greater :
  calculateUpdateSeverity "2.0.0" "1.5.0" = medium
  ∧ isNewerVersion "2.0.0" "1.5.0" = false.
Proof. split; vm_compute; reflexivity. Qed.



(** ** The comparator against the reference (claim C6) *)

Section Comparator.

Import JsString CompareVersions.

Lemma digit_classes c :
  is_digit c = true →
  is_prefix_char c = false ∧ is_wild_char c = false ∧ is_white c = false
  ∧ c ≠ "-"%char ∧ c ≠ "+"%char ∧ c ≠ "."%char.
Proof.
  destruct c as [[] [] [] [] [] [] [] []]; vm_compute; intros; try discriminate;
    repeat split; congruence.
Qed.

Lemma drop_prefix_digits c r :
  is_digit c = true → drop_while is_prefix_char (String c r) = String c r.
Proof. intros (H & _)%digit_classes. simpl. by rewrite H. Qed.

Lemma isWildcard_digits s : digits s = true → isWildcard s = false.
Proof.
  intros (c & r & -> & Hc & _)%digits_inv. unfold isWildcard.
  destruct c as [[] [] [] [] [] [] [] []]; done.
Qed.

Lemma parseInt_digits s : digits s = true → parseInt s = Some (decimal s).
Proof.
  intros Hs. pose proof (digits_all _ Hs) as Hall.
  apply digits_inv in Hs as (c & r & -> & Hc & Hr).
  pose proof (digit_classes _ Hc) as (_ & _ & Hw & Hm & Hp & _).
  unfold parseInt. simpl drop_while. rewrite Hw.
  assert ((match String c r with
           | String "-" r0 => (true, r0)
           | String "+" r0 => (false, r0)
           | _ => (false, String c r)
           end) = (false, String c r)) as ->.
  { destruct c as [[] [] [] [] [] [] [] []]; try done; by (exfalso; (apply Hm || apply Hp)). }
  rewrite (span_all_end _ _ Hall). done.
Qed.

Lemma group_value_digits c : digits c = true → group_value (Some c) (decimal c).
Proof.
  intros Hc. unfold group_value, or_zero.
  destruct (digits_inv _ Hc) as (a & r & -> & _). simpl nonempty. cbv iota.
  split; [by apply isWildcard_digits|by apply parseInt_digits].
Qed.

Lemma group_value_missing : group_value None 0.
Proof. split; reflexivity. Qed.

Lemma group_value_component o n :
  Reference.component o = Some n → group_value o n.
Proof.
  intros [[-> ->]|(c & -> & Hc & ->)]%component_Some_inv;
    [apply group_value_missing|by apply group_value_digits].
Qed.

Lemma compareStrings_values a b x y :
  group_value a x → group_value b y →
  compareStrings (or_zero a) (or_zero b) = sign_of x y.
Proof.
  intros [Hwa Hpa] [Hwb Hpb]. unfold compareStrings. by rewrite Hwa, Hwb, Hpa, Hpb.
Qed.

Lemma segment_digits c rest :
  digits c = true →
  (match rest with EmptyString => true | String d _ => negb (is_digit d) end) = true →
  segment (c +:+ rest) = Some (c, rest).
Proof.
  intros Hc Hrest. pose proof (digits_all _ Hc) as Hall.
  destruct (digits_inv _ Hc) as (a & r & -> & Ha & _).
  apply digit_classes in Ha as (_ & Hw & _).
  unfold segment. change (String a r +:+ rest) with (String a (r +:+ rest)).
  cbv iota. rewrite Hw.
  change (String a (r +:+ rest)) with (String a r +:+ rest).
  by rewrite (span_all _ _ _ Hall Hrest).
Qed.

Lemma segment_digits_end c : digits c = true → segment c = Some (c, EmptyString).
Proof.
  intros Hc. rewrite <- (append_nil_r c) at 1. by apply segment_digits.
Qed.

(** What validateAndParse returns on a plain version: its components,
    padded to four groups, and no pre-release tag. *)
Lemma validateAndParse_plain v :
  plain_version v = true →
  ∃ g1 g2 g3,
    validateAndParse v = Some (mkMatch [g1; g2; g3; None] None)
    ∧ g1 = JsString.split "." v !! 0%nat
    ∧ g2 = JsString.split "." v !! 1%nat
    ∧ g3 = JsString.split "." v !! 2%nat.
Proof.
  unfold plain_version. intros [Hlen Hall]%andb_prop.
  apply Nat.leb_le in Hlen. pose proof (join_split "." v) as Hv.
  destruct (JsString.split "." v) as [|c1 [|c2 [|c3 [|c4 cs]]]] eqn:E;
    [by apply split_not_nil in E| | | |simpl in Hlen; lia]; simpl in Hall;
    rewrite <- Hv; clear Hv E.
  - apply andb_prop in Hall as [H1 _].
    exists (Some c1), None, None. repeat split; try done.
    unfold validateAndParse. simpl join.
    destruct (digits_inv _ H1) as (a & r & -> & Ha & Hr).
    rewrite (drop_prefix_digits _ _ Ha).
    rewrite (span_all_end is_digit (String a r)) by by apply digits_all.
    done.
  - apply andb_prop in Hall as [H1 [H2 _]%andb_prop].
    exists (Some c1), (Some c2), None. repeat split; try done.
    unfold validateAndParse. simpl join.
    destruct (digits_inv _ H1) as (a & r & -> & Ha & Hr).
    change (String a r +:+ String "." c2) with (String a (r +:+ String "." c2)).
    rewrite (drop_prefix_digits _ _ Ha).
    change (String a (r +:+ String "." c2)) with (String a r +:+ String "." c2).
    rewrite (span_all is_digit (String a r) (String "." c2)) by (done || by apply digits_all).
    simpl negb. cbv iota.
    rewrite (segment_digits_end c2) by done. done.
  - apply andb_prop in Hall as [H1 [H2 [H3 _]%andb_prop]%andb_prop].
    exists (Some c1), (Some c2), (Some c3). repeat split; try done.
    unfold validateAndParse. simpl join.
    destruct (digits_inv _ H1) as (a & r & -> & Ha & Hr).
    change (String a r +:+ ?x) with (String a (r +:+ x)).
    rewrite (drop_prefix_digits _ _ Ha).
    change (String a (r +:+ ?x)) with (String a r +:+ x).
    rewrite (span_all is_digit (String a r) (String "." (c2 +:+ String "." c3)))
      by (done || by apply digits_all).
    simpl negb. cbv iota.
    rewrite (segment_digits c2 (String "." c3)) by done.
    rewrite (segment_digits_end c3) by done. done.
Qed.

End Comparator.

Section ComparatorAgreement.

Import JsString CompareVersions.

Lemma plain_component v i :
  plain_version v = true → ∃ n, Reference.component (JsString.split "." v !! i) = Some n.
Proof.
  unfold plain_version. intros [_ Hall]%andb_prop.
  destruct (JsString.split "." v !! i) as [c|] eqn:E; simpl; [|eauto].
  rewrite forallb_forall in Hall.
  rewrite (Hall c); [eauto|]. apply list_elem_of_In. by eapply list_elem_of_lookup_2.
Qed.

Lemma compareVersions_plain latest current :
  plain_version latest = true → plain_version current = true →
  ∃ a1 b1 c1 a2 b2 c2,
    Reference.triple current = Some (a1, b1, c1)
    ∧ Reference.triple latest = Some (a2, b2, c2)
    ∧ compareVersions latest current
      = Some (first_nonzero [sign_of a2 a1; sign_of b2 b1; sign_of c2 c1]).
Proof.
  intros Hl Hc.
  destruct (plain_component current 0 Hc) as [a1 Ea1].
  destruct (plain_component current 1 Hc) as [b1 Eb1].
  destruct (plain_component current 2 Hc) as [c1 Ec1].
  destruct (plain_component latest 0 Hl) as [a2 Ea2].
  destruct (plain_component latest 1 Hl) as [b2 Eb2].
  destruct (plain_component latest 2 Hl) as [c2 Ec2].
  exists a1, b1, c1, a2, b2, c2.
  unfold Reference.triple. rewrite Ea1, Eb1, Ec1, Ea2, Eb2, Ec2.
  split; [done|]. split; [done|].
  destruct (validateAndParse_plain _ Hl) as (g1 & g2 & g3 & Hq & -> & -> & ->).
  destruct (validateAndParse_plain _ Hc) as (h1 & h2 & h3 & Hp & -> & -> & ->).
  unfold compareVersions. rewrite Hp, Hq. cbn [numbers prerelease].
  unfold compareSegments. cbn [length Nat.max seq fmap list_fmap lookup list_lookup mjoin option_join].
  rewrite (compareStrings_values _ _ a2 a1) by by apply group_value_component.
  rewrite (compareStrings_values _ _ b2 b1) by by apply group_value_component.
  rewrite (compareStrings_values _ _ c2 c1) by by apply group_value_component.
  rewrite (compareStrings_values None None 0 0) by apply group_value_missing.
  assert (first_nonzero [sign_of a2 a1; sign_of b2 b1; sign_of c2 c1; sign_of 0 0]
          = first_nonzero [sign_of a2 a1; sign_of b2 b1; sign_of c2 c1]) as ->.
  { cbn [first_nonzero]. change (sign_of 0 0 =? 0) with true. cbv iota.
    destruct (sign_of a2 a1 =? 0); [|done].
    destruct (sign_of b2 b1 =? 0); [|done].
    by destruct (sign_of c2 c1 =? 0). }
  destruct (_ =? 0) eqn:E; cbn [negb]; [|done]. apply Z.eqb_eq in E. by rewrite E.
Qed.

(** On plain versions the comparator is the reference comparison. *)
Lemma isNewerVersion_plain current latest :
  plain_version current = true → plain_version latest = true →
  isNewerVersion current latest = Reference.newer current latest.
Proof.
  intros Hc Hl.
  destruct (compareVersions_plain latest current Hl Hc)
    as (a1 & b1 & c1 & a2 & b2 & c2 & Hcur & Hlat & Hcmp).
  unfold isNewerVersion, Reference.newer. rewrite Hcmp, Hcur, Hlat.
  unfold Reference.triple_lt, first_nonzero, sign_of.
  destruct (a1 <? a2) eqn:?, (a2 <? a1) eqn:?, (a1 =? a2) eqn:?,
    (b1 <? b2) eqn:?, (b2 <? b1) eqn:?, (b1 =? b2) eqn:?,
    (c1 <? c2) eqn:?, (c2 <? c1) eqn:?; simpl; try done; lia.
Qed.

Lemma plain_version_nonempty v : plain_version v = true → JsString.nonempty v = true.
Proof.
  intros Hv. destruct v; [|done]. discriminate Hv.
Qed.

End ComparatorAgreement.

(** C6, as stated, fails: the comparator reads a fourth component, which
    the numeric triple of the reference does not have, and so marks a
    package outdated whose triple equals the latest one. *)
Lemma isNewerVersion_fourth_component :
  Reference.triple "1.2.3.4" = Some (1, 2, 3)
  ∧ Reference.triple "1.2.3.5" = Some (1, 2, 3)
  ∧ Reference.newer "1.2.3.4" "1.2.3.5" = false
  ∧ isNewerVersion "1.2.3.4" "1.2.3.5" = true
  ∧ (let env := mkEnv (fun _ _ => Returned (Some "1.2.3.5"))
                      (fun _ _ => Returned (Some [])) "00000000" in
     outdated (analyzeDependencies env [("pkg", "1.2.3.4")]) !! "pkg"
     = Some (mkOutdatedInfo "1.2.3.4" "1.2.3.5" low)).
Proof. repeat split; vm_compute; reflexivity. Qed.

(** Other inputs on which the two disagree: a pre-release of the latest
    version is older for the comparator, a wildcard matches anything, and
    a string the comparator rejects is never older. *)
Lemma isNewerVersion_beyond_triples :
  isNewerVersion "1.0.0-rc.1" "1.0.0" = true
  ∧ isNewerVersion "1.x" "1.5.0" = false
  ∧ isNewerVersion "" "1.0.0" = false
  ∧ Reference.newer "" "1.0.0" = false.
Proof. repeat split; vm_compute; reflexivity. Qed.

(** ** The scan, package by package *)

Section Scan.

Variable env : Env.

(** checkVulnerabilities never throws: the rate-limit error of the
    advisory API is caught inside it, like every other error. *)
Lemma checkVulnerabilities_returns log name version :
  ∃ o, checkVulnerabilities env log name version
       = (Returned o,
          log ++ match knownVulnerablePackages name version with
                 | Some _ => []
                 | None => [AdvisoryCall name]
                 end).
Proof.
  unfold checkVulnerabilities.
  destruct (knownVulnerablePackages name version) as [info|].
  - exists (Some info). by rewrite app_nil_r.
  - destruct (queryAdvisories env log name version) as [[info|]|e]; [eauto..|].
    destruct (isRateLimitError e); eauto.
Qed.

Lemma calls_for_app name l k : calls_for name (l ++ k) = calls_for name l ++ calls_for name k.
Proof. apply filter_app. Qed.

Lemma calls_for_registry_other name names :
  name ∉ names → calls_for name (RegistryCall <$> names) = [].
Proof.
  unfold calls_for. induction names as [|m names IH]; [done|].
  intros [Hne Hnot]%not_elem_of_cons. rewrite fmap_cons, filter_cons_False; [by apply IH|].
  simpl. congruence.
Qed.

(** The flag is never raised: resuming a callback keeps it as it was. *)
Lemma resume_rateLimited st p : rateLimited (resume env st p) = rateLimited st.
Proof.
  destruct p as [[name clean] latestVersion]. unfold resume.
  destruct (rateLimited st) eqn:E; [done|].
  destruct (checkVulnerabilities_returns (calls st) name clean) as [[info|] ->]; done.
Qed.

Lemma foldl_resume_rateLimited st ps :
  rateLimited (foldl (resume env) st ps) = rateLimited st.
Proof.
  revert st. induction ps as [|p ps IH]; intros st; simpl; [done|].
  by rewrite IH, resume_rateLimited.
Qed.

Lemma resume_other name st p : p.1.1 ≠ name → view name (resume env st p) = view name st.
Proof.
  destruct p as [[m clean] latestVersion]. simpl. intros Hne.
  assert (calls_for name (calls st ++
            match knownVulnerablePackages m clean with
            | Some _ => []
            | None => [AdvisoryCall m]
            end) = calls_for name (calls st)) as Hlog.
  { rewrite calls_for_app. destruct (knownVulnerablePackages m clean); simpl.
    - by rewrite app_nil_r.
    - unfold calls_for at 2. rewrite filter_cons_False by done. by rewrite app_nil_r. }
  unfold resume, view.
  set (o := match latestVersion with
            | Some l => if isNewerVersion clean l then _ else outdated st
            | None => outdated st
            end).
  assert (o !! name = outdated st !! name) as Ho.
  { subst o. destruct latestVersion as [l|]; [|done].
    destruct (isNewerVersion clean l); [|done]. by rewrite lookup_insert_ne. }
  destruct (rateLimited st); simpl; [by rewrite Ho|].
  destruct (checkVulnerabilities_returns (calls st) m clean) as [[info|] ->]; simpl;
    rewrite Ho, Hlog; [|done].
  by rewrite lookup_insert_ne.
Qed.

Lemma foldl_resume_other name st ps :
  Forall (fun p => p.1.1 ≠ name) ps →
  view name (foldl (resume env) st ps) = view name st.
Proof.
  revert st. induction ps as [|p ps IH]; intros st Hps; simpl; [done|].
  apply Forall_cons in Hps as [Hp Hps]. by rewrite IH, resume_other.
Qed.

(** The callback of a package whose registry request has been logged and
    which the scan has not touched otherwise. *)
Lemma resume_self name clean latestVersion st h1 :
  rateLimited st = false →
  view name st = (None, None, [RegistryCall name]) →
  latestVersion = (getLatestVersion env h1 name).1 →
  view name (resume env st (name, clean, latestVersion))
  = package_outcome env name clean h1 (calls st).
Proof.
  intros Hflag Hview ->. unfold view in Hview. injection Hview as Ho Hv Hc.
  unfold resume, view, package_outcome. rewrite Hflag.
  destruct (checkVulnerabilities_returns (calls st) name clean) as [o Hcheck].
  rewrite Hcheck. cbn [fst].
  assert (calls_for name (calls st ++
            match knownVulnerablePackages name clean with
            | Some _ => []
            | None => [AdvisoryCall name]
            end)
          = RegistryCall name ::
              match knownVulnerablePackages name clean with
              | Some _ => []
              | None => [AdvisoryCall name]
              end) as Hlog.
  { rewrite calls_for_app, Hc. destruct (knownVulnerablePackages name clean); [done|].
    unfold calls_for. by rewrite filter_cons_True. }
  destruct o as [info|]; cbn [outdated vulnerable calls]; rewrite Hlog;
    rewrite ?lookup_insert_eq, ?Hv;
    (destruct (getLatestVersion env h1 name).1 as [l|]; [|by rewrite Ho]);
    (destruct (isNewerVersion clean l); [by rewrite lookup_insert_eq|by rewrite Ho]).
Qed.

End Scan.

Section Batches.

Variable env : Env.

Lemma issueLookups_from batch : ∀ pending log,
  ∃ ps,
    foldl (fun '(pending, log) '(name, version) =>
             let '(latestVersion, log') := getLatestVersion env log name in
             (pending ++ [(name, cleanVersion version, latestVersion)], log'))
          (pending, log) batch
    = (pending ++ ps, log ++ (RegistryCall <$> batch.*1))
    ∧ Forall2 (issued env) batch ps.
Proof.
  induction batch as [|[name version] batch IH]; intros pending log; simpl.
  - exists []. by rewrite !app_nil_r.
  - destruct (IH (pending ++ [(name, cleanVersion version,
                               (getLatestVersion env log name).1)])
                 (log ++ [RegistryCall name])) as (ps & Heq & Hps).
    exists ((name, cleanVersion version, (getLatestVersion env log name).1) :: ps).
    unfold getLatestVersion in *. simpl in *. rewrite Heq, <- !app_assoc. simpl.
    split; [done|]. constructor; [|done]. repeat split. by exists log.
Qed.

Lemma issueLookups_spec batch log :
  ∃ ps, issueLookups env batch log = (ps, log ++ (RegistryCall <$> batch.*1))
        ∧ Forall2 (issued env) batch ps.
Proof. apply (issueLookups_from batch [] log). Qed.

Lemma issued_names batch ps name :
  Forall2 (issued env) batch ps → name ∉ batch.*1 → Forall (fun p => p.1.1 ≠ name) ps.
Proof.
  induction 1 as [|[m v] p batch ps (Hm & _) _ IH]; intros Hnot; [done|].
  rewrite fmap_cons in Hnot. apply not_elem_of_cons in Hnot as [Hne Hnot].
  constructor; [|by apply IH]. simpl in *. congruence.
Qed.

Lemma processBatch_rateLimited st batch :
  rateLimited (processBatch env st batch) = rateLimited st.
Proof.
  unfold processBatch.
  destruct (issueLookups_spec batch (calls st)) as (ps & -> & _).
  by rewrite foldl_resume_rateLimited.
Qed.

(** A batch leaves the packages outside it as they were. *)
Lemma processBatch_other name st batch :
  name ∉ batch.*1 → view name (processBatch env st batch) = view name st.
Proof.
  intros Hnot. unfold processBatch.
  destruct (issueLookups_spec batch (calls st)) as (ps & -> & Hps).
  rewrite (foldl_resume_other env name) by by eapply issued_names.
  unfold view. simpl. by rewrite calls_for_app, calls_for_registry_other, app_nil_r.
Qed.

(** A batch settles each of its packages. *)
Lemma processBatch_self name version st batch :
  NoDup batch.*1 → (name, version) ∈ batch →
  rateLimited st = false → view name st = (None, None, []) →
  ∃ h1 h2, view name (processBatch env st batch)
           = package_outcome env name (cleanVersion version) h1 h2.
Proof.
  intros Hnodup Hin Hflag Hview. unfold processBatch.
  destruct (issueLookups_spec batch (calls st)) as (ps & -> & Hps).
  apply list_elem_of_split in Hin as (b1 & b2 & ->).
  rewrite fmap_app, fmap_cons in Hnodup. simpl in Hnodup.
  apply NoDup_app in Hnodup as (_ & Hb1 & [Hb2 _]%NoDup_cons).
  assert (name ∉ b1.*1) as Hn1.
  { intros Hn. apply (Hb1 _ Hn). by left. }
  apply Forall2_app_inv_l in Hps as (p1 & ps' & Hp1 & Hps' & ->).
  apply Forall2_cons_inv_l in Hps' as ([[m clean] latestVersion] & p2 & Hp & Hp2 & ->).
  destruct Hp as (Hm & Hclean & h1 & Hlatest). simpl in Hm, Hclean, Hlatest. subst m clean.
  rewrite foldl_app. simpl.
  rewrite (foldl_resume_other env name) by by eapply issued_names.
  set (st1 := foldl (resume env) _ p1).
  assert (rateLimited st1 = false) as Hflag1.
  { subst st1. by rewrite foldl_resume_rateLimited. }
  assert (view name st1 = (None, None, [RegistryCall name])) as Hview1.
  { subst st1. rewrite (foldl_resume_other env name) by by eapply issued_names.
    unfold view in *. simpl. injection Hview as -> -> Hc.
    rewrite calls_for_app, Hc, fmap_app, fmap_cons, fmap_app, fmap_cons. simpl.
    rewrite calls_for_app, calls_for_registry_other by done.
    unfold calls_for at 1. rewrite filter_cons_True by done.
    fold (calls_for name (RegistryCall <$> b2.*1)).
    by rewrite calls_for_registry_other. }
  exists h1, (calls st1). by apply resume_self.
Qed.

(** The loop over the batches visits every entry once, in order. *)
Lemma batchesFrom_concat entries : ∀ fuel i,
  (length entries - i ≤ fuel)%nat → concat (batchesFrom fuel i entries) = drop i entries.
Proof.
  induction fuel as [|fuel IH]; intros i Hfuel; simpl.
  - symmetry. apply drop_ge. lia.
  - destruct (Nat.ltb_spec i (length entries)) as [Hlt|Hge]; simpl.
    + rewrite IH by (unfold batchSize; lia).
      rewrite <- drop_drop. apply take_drop.
    + symmetry. by apply drop_ge.
Qed.

Lemma batches_concat entries : concat (batches entries) = entries.
Proof. unfold batches. by rewrite batchesFrom_concat by lia. Qed.

(** The same over any list of batches whose names are all different. *)
Lemma foldl_processBatch_rateLimited st bs :
  rateLimited (foldl (processBatch env) st bs) = rateLimited st.
Proof.
  revert st. induction bs as [|b bs IH]; intros st; simpl; [done|].
  by rewrite IH, processBatch_rateLimited.
Qed.

Lemma foldl_processBatch_other name st bs :
  name ∉ (concat bs).*1 → view name (foldl (processBatch env) st bs) = view name st.
Proof.
  revert st. induction bs as [|b bs IH]; intros st Hnot; simpl in *; [done|].
  rewrite fmap_app in Hnot. apply not_elem_of_app in Hnot as [Hb Hbs].
  by rewrite IH, processBatch_other.
Qed.

Lemma foldl_processBatch_self name version st bs :
  NoDup (concat bs).*1 → (name, version) ∈ concat bs →
  rateLimited st = false → view name st = (None, None, []) →
  ∃ h1 h2, view name (foldl (processBatch env) st bs)
           = package_outcome env name (cleanVersion version) h1 h2.
Proof.
  revert st. induction bs as [|b bs IH]; intros st Hnodup Hin Hflag Hview; simpl in *.
  - by apply elem_of_nil in Hin.
  - rewrite fmap_app in Hnodup. apply NoDup_app in Hnodup as (Hb & Hdisj & Hbs).
    apply elem_of_app in Hin as [Hin|Hin].
    + destruct (processBatch_self name version st b Hb Hin Hflag Hview) as (h1 & h2 & Heq).
      exists h1, h2. rewrite foldl_processBatch_other; [done|].
      apply Hdisj. by apply (list_elem_of_fmap_2 fst) in Hin.
    + apply IH; [done..| |].
      * by rewrite processBatch_rateLimited.
      * rewrite processBatch_other; [done|].
        intros Hn. apply (Hdisj _ Hn). by apply (list_elem_of_fmap_2 fst) in Hin.
Qed.

(** analyzeDependencies never reports a rate limit. *)
Lemma analyzeDependencies_rateLimited deps :
  rateLimited (analyzeDependencies env deps) = false.
Proof. unfold analyzeDependencies. by rewrite foldl_processBatch_rateLimited. Qed.

(** What analyzeDependencies holds about each package of the manifest. *)
Lemma analyzeDependencies_view deps name version :
  NoDup deps.*1 → (name, version) ∈ deps →
  ∃ h1 h2, view name (analyzeDependencies env deps)
           = package_outcome env name (cleanVersion version) h1 h2.
Proof.
  intros Hnodup Hin. unfold analyzeDependencies.
  apply foldl_processBatch_self; rewrite ?batches_concat; done.
Qed.

Lemma analyzeDependencies_view_other deps name :
  name ∉ deps.*1 → view name (analyzeDependencies env deps) = (None, None, []).
Proof.
  intros Hnot. unfold analyzeDependencies.
  rewrite foldl_processBatch_other by by rewrite batches_concat. done.
Qed.

End Batches.

(** ** The static table (claim C3) *)

Lemma calls_for_elem name c log : c ∈ log → call_name c = name → c ∈ calls_for name log.
Proof. intros Hin Hname. unfold calls_for. by apply list_elem_of_filter. Qed.

(** C3: a package of the manifest whose name and cleaned version are in
    the static table is reported vulnerable with the record of the table,
    and the log of the scan holds no advisory request for it. *)
Theorem known_vulnerable_reported (env : Env) (deps : list (string * string))
    (name range : string) (info : VulnerabilityInfo) :
  NoDup deps.*1 → (name, range) ∈ deps →
  knownVulnerablePackages name (cleanVersion range) = Some info →
  vulnerable (analyzeDependencies env deps) !! name
  = Some (mkVulnerableInfo (cleanVersion range) info)
  ∧ AdvisoryCall name ∉ calls (analyzeDependencies env deps).
Proof.
  intros Hnodup Hin Hknown.
  destruct (analyzeDependencies_view env deps name range Hnodup Hin) as (h1 & h2 & Hview).
  unfold view, package_outcome in Hview. injection Hview as _ Hv Hc.
  unfold checkVulnerabilities in Hv. rewrite Hknown in Hv, Hc. simpl in Hv.
  split; [done|]. intros Hcall.
  apply (calls_for_elem name) in Hcall; [|done]. rewrite Hc in Hcall.
  by apply list_elem_of_singleton in Hcall.
Qed.

Lemma known_vulnerable_reported_witness :
  vulnerable (analyzeDependencies failingEnv [("axios", "^0.19.0"); ("lodash", "~4.17.0")])
    !! "lodash"
  = Some (mkVulnerableInfo "4.17.0"
            (mkVulnerabilityInfo "CVE-2019-10744" "high"
               "Prototype pollution vulnerability in Lodash" None))
  ∧ AdvisoryCall "lodash"
    ∉ calls (analyzeDependencies failingEnv [("axios", "^0.19.0"); ("lodash", "~4.17.0")]).
Proof.
  apply (known_vulnerable_reported failingEnv
           [("axios", "^0.19.0"); ("lodash", "~4.17.0")] "lodash" "~4.17.0").
  - apply NoDup_cons. split; [|apply NoDup_singleton].
    intros H%list_elem_of_singleton. discriminate H.
  - apply list_elem_of_further, list_elem_of_here.
  - reflexivity.
Defined.

(** ** Failures of the lookups (claim C9) *)

(** What the scan holds about a package whose answers do not depend on
    the requests made before is what a scan of that package alone holds. *)
Lemma analyzeDependencies_view_alone (env : Env) (deps : list (string * string))
    (name range : string) :
  NoDup deps.*1 → (name, range) ∈ deps →
  (∀ h h', registry env h name = registry env h' name) →
  (∀ h h', advisories env h name = advisories env h' name) →
  view name (analyzeDependencies env deps)
  = view name (analyzeDependencies env [(name, range)]).
Proof.
  intros Hnodup Hin Hreg Hadv.
  destruct (analyzeDependencies_view env deps name range Hnodup Hin) as (h1 & h2 & ->).
  destruct (analyzeDependencies_view env [(name, range)] name range) as (h1' & h2' & ->);
    [apply NoDup_singleton|apply list_elem_of_here|].
  unfold package_outcome. f_equal. f_equal.
  - unfold getLatestVersion. cbn [fst]. by rewrite (Hreg h1 h1').
  - unfold checkVulnerabilities, queryAdvisories.
    destruct (knownVulnerablePackages name (cleanVersion range)); [done|].
    rewrite (Hadv h2 h2').
    destruct (advisories env h2' name) as [[data|]|e]; cbn [fst]; try done.
    + destruct (findAdvisory env name (cleanVersion range) data) as [[info|]|e];
        cbn [fst]; try done. by destruct (isRateLimitError e).
    + by destruct (isRateLimitError e).
Qed.

(** C9: in a scan, a package whose registry request fails is left out of
    the outdated map; a package that the static table does not hold,
    whose lookup in it finds only own keys ([own_lookup]: the cleaned
    version starts with a digit, or neither it nor the name is a property
    of Object.prototype), and whose advisory request then fails, whatever
    the error, is left out of the vulnerable map; such a package
    gets exactly one registry request and one advisory request, whatever
    happened to the packages before it. The scan goes on with the other
    packages: what it holds about a package whose answers do not depend
    on the requests made before is what a scan of that package alone
    holds, whatever failed beside it. And the route answers 200. *)
Theorem lookup_failures_degrade (env : Env) (deps : list (string * string)) :
  NoDup deps.*1 →
  (∀ name range, (name, range) ∈ deps →
     ((∀ h, ∃ e, registry env h name = Threw e) →
      outdated (analyzeDependencies env deps) !! name = None)
     ∧ (own_lookup name (cleanVersion range) = true →
        knownVulnerablePackages name (cleanVersion range) = None →
        (∀ h, ∃ e, advisories env h name = Threw e) →
        vulnerable (analyzeDependencies env deps) !! name = None)
     ∧ (own_lookup name (cleanVersion range) = true →
        calls_for name (calls (analyzeDependencies env deps))
        = RegistryCall name ::
            match knownVulnerablePackages name (cleanVersion range) with
            | Some _ => []
            | None => [AdvisoryCall name]
            end)
     ∧ ((∀ h h', registry env h name = registry env h' name) →
        (∀ h h', advisories env h name = advisories env h' name) →
        view name (analyzeDependencies env deps)
        = view name (analyzeDependencies env [(name, range)])))
  ∧ (∀ now db req packageJson userId,
       body_packageJson req = Some packageJson →
       truthy (user_id req) = Some userId →
       (postPackageJson env now db req).1.1 = 200%nat).
Proof.
  intros Hnodup. split.
  - intros name range Hin.
    destruct (analyzeDependencies_view env deps name range Hnodup Hin) as (h1 & h2 & Hview).
    pose proof Hview as Hview'.
    unfold view, package_outcome in Hview. injection Hview as Ho Hv Hc.
    split; [|split; [|split; [done|]]].
    + intros Hfail. rewrite Ho. unfold getLatestVersion. simpl.
      by destruct (Hfail h1) as [e ->].
    + intros _ Hknown Hfail. rewrite Hv. unfold checkVulnerabilities, queryAdvisories.
      rewrite Hknown. destruct (Hfail h2) as [e ->]. by destruct (isRateLimitError e).
    + intros Hreg Hadv. by apply analyzeDependencies_view_alone.
  - intros now db req packageJson userId Hpj Huser. unfold postPackageJson.
    by rewrite Hpj, Huser.
Qed.

Lemma lookup_failures_degrade_witness :
  outdated (analyzeDependencies mixedEnv [("react", "17.0.2"); ("lodash", "^4.17.20")])
    !! "react" = None
  ∧ vulnerable (analyzeDependencies mixedEnv [("react", "17.0.2"); ("lodash", "^4.17.20")])
      !! "react" = None
  ∧ calls_for "react"
      (calls (analyzeDependencies mixedEnv [("react", "17.0.2"); ("lodash", "^4.17.20")]))
    = [RegistryCall "react"; AdvisoryCall "react"]
  ∧ outdated (analyzeDependencies mixedEnv [("react", "17.0.2"); ("lodash", "^4.17.20")])
      !! "lodash" = Some (mkOutdatedInfo "4.17.20" "4.17.21" low).
Proof.
  assert (NoDup [("react", "17.0.2"); ("lodash", "^4.17.20")].*1) as Hnodup.
  { apply NoDup_cons. split; [|apply NoDup_singleton].
    intros H%list_elem_of_singleton. discriminate H. }
  destruct (lookup_failures_degrade mixedEnv _ Hnodup) as [Hpkg _].
  destruct (Hpkg "react" "17.0.2") as (Ho & Hv & Hc & _).
  { apply list_elem_of_here. }
  destruct (Hpkg "lodash" "^4.17.20") as (_ & _ & _ & Halone).
  { apply list_elem_of_further, list_elem_of_here. }
  split; [|split; [|split]].
  - apply Ho. intros h. by eexists.
  - apply Hv; [reflexivity|reflexivity|]. intros h. by eexists.
  - apply Hc. reflexivity.
  - specialize (Halone (fun _ _ => eq_refl) (fun _ _ => eq_refl)).
    pose proof (f_equal (fun v => v.1.1) Halone) as Hout. cbn [view fst] in Hout.
    rewrite Hout. vm_compute. reflexivity.
Defined.

(** ** Outdated packages (claim C6) *)

Lemma triple_lt_irrefl x : Reference.triple_lt x x = false.
Proof.
  destruct x as [[a b] c]. unfold Reference.triple_lt.
  rewrite !Z.ltb_irrefl, !Z.eqb_refl. done.
Qed.

(** C6, amended: when the cleaned current version and the latest version
    are one to three dot-separated runs of digits, none above
    Number.MAX_SAFE_INTEGER, isNewerVersion agrees with the numeric
    triple comparison; a package of the manifest, under any name but
    __proto__, is marked outdated exactly when the latest version is
    strictly greater, and a package already at the latest version is not
    marked. *)
Theorem outdated_iff_newer (env : Env) (deps : list (string * string))
    (name range latestVersion : string) :
  NoDup deps.*1 → (name, range) ∈ deps →
  String.eqb name "__proto__" = false →
  (∀ h, registry env h name = Returned (Some latestVersion)) →
  plain_version (cleanVersion range) = true →
  plain_version latestVersion = true →
  safe_components (cleanVersion range) = true →
  safe_components latestVersion = true →
  isNewerVersion (cleanVersion range) latestVersion
  = Reference.newer (cleanVersion range) latestVersion
  ∧ (is_Some (outdated (analyzeDependencies env deps) !! name)
     ↔ Reference.newer (cleanVersion range) latestVersion = true)
  ∧ (cleanVersion range = latestVersion →
     outdated (analyzeDependencies env deps) !! name = None).
Proof.
  intros Hnodup Hin _ Hreg Hcur Hlat _ _.
  pose proof (isNewerVersion_plain _ _ Hcur Hlat) as Hagree.
  destruct (analyzeDependencies_view env deps name range Hnodup Hin) as (h1 & h2 & Hview).
  unfold view, package_outcome in Hview. injection Hview as Ho _ _.
  unfold getLatestVersion in Ho. simpl in Ho.
  rewrite Hreg, (plain_version_nonempty _ Hlat), Hagree in Ho.
  split; [done|]. rewrite Ho. split.
  - destruct (Reference.newer _ _); split; intros H; done.
  - intros Heq. rewrite Heq. unfold Reference.newer.
    destruct (Reference.triple latestVersion); [|done]. by rewrite triple_lt_irrefl.
Qed.

Lemma outdated_iff_newer_witness :
  isNewerVersion "4.17.20" "4.17.21" = Reference.newer "4.17.20" "4.17.21"
  ∧ (is_Some (outdated (analyzeDependencies lodashEnv [("lodash", "^4.17.20")]) !! "lodash")
     ↔ Reference.newer "4.17.20" "4.17.21" = true).
Proof.
  destruct (outdated_iff_newer lodashEnv [("lodash", "^4.17.20")] "lodash" "^4.17.20" "4.17.21")
    as (H1 & H2 & _).
  - apply NoDup_singleton.
  - apply list_elem_of_here.
  - reflexivity.
  - reflexivity.
  - reflexivity.
  - reflexivity.
  - reflexivity.
  - reflexivity.
  - split; [exact H1|exact H2].
Defined.

(** ** The rate limit (claim C1) *)

(** C1 does not hold of the code: checkVulnerabilities catches the
    rate-limit error itself, so the branch of analyzeDependencies that
    raises the flag never runs. With an advisory API that answers 403
    "rate limit exceeded" from the first request on, the first batch of
    five packages completes, and the second batch still sends the
    advisory request of the sixth package; the flag stays down and the
    response carries no warning. The flag is in fact down after every
    scan. *)
Theorem rate_limit_is_swallowed :
  isRateLimitError (AxiosError (Some (403%nat, Some "API rate limit exceeded for 203.0.113.7.")))
  = true
  ∧ calls (analyzeDependencies rateLimitedEnv sixPackages)
    = [RegistryCall "a"; RegistryCall "b"; RegistryCall "c"; RegistryCall "d";
       RegistryCall "e";
       AdvisoryCall "a"; AdvisoryCall "b"; AdvisoryCall "c"; AdvisoryCall "d";
       AdvisoryCall "e";
       RegistryCall "f"; AdvisoryCall "f"]
  ∧ rateLimited (analyzeDependencies rateLimitedEnv sixPackages) = false
  ∧ (∀ env deps, rateLimited (analyzeDependencies env deps) = false)
  ∧ (∀ env now db req, scan_warnings (postPackageJson env now db req).1 = None).
Proof.
  split; [reflexivity|]. split; [vm_compute; reflexivity|].
  split; [apply analyzeDependencies_rateLimited|].
  split; [apply analyzeDependencies_rateLimited|].
  intros env now db req. unfold postPackageJson, scan_warnings.
  destruct (body_packageJson req); [|done].
  destruct (truthy (user_id req)); [|done]. simpl.
  by rewrite analyzeDependencies_rateLimited.
Qed.

(** ** The lodash example (claim C4) *)

(** C4, as stated, fails: the static table lists lodash at 4.17.0, not at
    4.17.20, so nothing comes from the table; when the advisory API
    reports no advisory the vulnerable map is empty and the summary counts
    no vulnerable package. *)
Lemma lodash_not_in_static_table :
  knownVulnerablePackages "lodash" "4.17.20" = None
  ∧ (scan_details (postPackageJson lodashEnv 0 emptyDatabase (lodashRequest "u1")).1
       ≫= fun d => details_vulnerable d !! "lodash") = None
  ∧ scan_summary (postPackageJson lodashEnv 0 emptyDatabase (lodashRequest "u1")).1
    = Some (mkSummary 1 0 1).
Proof. repeat split; vm_compute; reflexivity. Qed.

Lemma isNewerVersion_lodash : isNewerVersion "4.17.20" "4.17.21" = true.
Proof. vm_compute. reflexivity. Qed.

(** C4, amended: for this manifest and a registry whose latest lodash is
    4.17.21 the scan returns outdated.lodash = {current: 4.17.20, latest:
    4.17.21, severity: low} with total 1 and outdated 1; the static table
    has no entry for lodash at 4.17.20, so vulnerable.lodash is whatever
    the advisory API yields for it, and the vulnerable count is 1 when it
    yields an advisory and 0 when it does not. *)
Theorem lodash_scan (env : Env) (now : nat) (db : Database) (user : string) :
  JsString.nonempty user = true →
  (∀ h, registry env h "lodash" = Returned (Some "4.17.21")) →
  let advisory :=
    match queryAdvisories env [RegistryCall "lodash"] "lodash" "4.17.20" with
    | Returned (Some info) => Some (mkVulnerableInfo "4.17.20" info)
    | _ => None
    end in
  let response := (postPackageJson env now db (lodashRequest user)).1 in
  knownVulnerablePackages "lodash" "4.17.20" = None
  ∧ response.1 = 200%nat
  ∧ (scan_details response ≫= fun d => details_outdated d !! "lodash")
    = Some (mkOutdatedInfo "4.17.20" "4.17.21" low)
  ∧ (scan_details response ≫= fun d => details_vulnerable d !! "lodash") = advisory
  ∧ scan_summary response
    = Some (mkSummary 1 (match advisory with Some _ => 1 | None => 0 end) 1).
Proof.
  intros Huser Hreg advisory response.
  assert (analyzeDependencies env [("lodash", "^4.17.20")]
          = mkAnalysis
              {["lodash" := mkOutdatedInfo "4.17.20" "4.17.21" low]}
              (match advisory with
               | Some v => {["lodash" := v]}
               | None => ∅
               end)
              false
              [RegistryCall "lodash"; AdvisoryCall "lodash"]) as Hscan.
  { unfold analyzeDependencies, batches. simpl batchesFrom. simpl foldl at 1.
    unfold processBatch, issueLookups. cbn [foldl calls].
    unfold getLatestVersion. rewrite Hreg. cbn [JsString.nonempty app foldl].
    unfold resume.
    change (cleanVersion "^4.17.20") with "4.17.20".
    rewrite isNewerVersion_lodash.
    change (calculateUpdateSeverity "4.17.20" "4.17.21") with low.
    unfold checkVulnerabilities.
    change (knownVulnerablePackages "lodash" "4.17.20") with (@None VulnerabilityInfo).
    subst advisory. cbn [calls rateLimited outdated vulnerable app].
    rewrite insert_empty.
    destruct (queryAdvisories env [RegistryCall "lodash"] "lodash" "4.17.20")
      as [[info|]|e]; [by rewrite insert_empty|done|]. by destruct (isRateLimitError e). }
  split; [reflexivity|].
  subst response. unfold postPackageJson, lodashRequest. cbn [body_packageJson user_id].
  unfold truthy. rewrite Huser.
  change (allDependencies lodashManifest) with [("lodash", "^4.17.20")].
  rewrite Hscan. cbn [fst snd scan_details scan_summary outdated vulnerable mbind option_bind
                      details_outdated details_vulnerable].
  split; [done|]. split; [by rewrite lookup_singleton_eq|].
  rewrite map_size_singleton.
  destruct advisory as [v|].
  - split; [by rewrite lookup_singleton_eq|]. by rewrite map_size_singleton.
  - split; [by rewrite lookup_empty|]. by rewrite map_size_empty.
Qed.

Lemma lodash_scan_witness :
  ((postPackageJson lodashEnv 0 emptyDatabase (lodashRequest "u1")).1).1 = 200%nat
  ∧ (scan_details (postPackageJson lodashEnv 0 emptyDatabase (lodashRequest "u1")).1
       ≫= fun d => details_outdated d !! "lodash")
    = Some (mkOutdatedInfo "4.17.20" "4.17.21" low).
Proof.
  destruct (lodash_scan lodashEnv 0 emptyDatabase "u1") as (_ & H200 & Hout & _).
  - reflexivity.
  - reflexivity.
  - split; [exact H200|exact Hout].
Defined.

(** ** Persistence (claims C2 and C10) *)

(** C2, as stated, fails: the handler never writes a project, so after a
    scan that finds one outdated and one vulnerable package, sent by a
    user whose id is an ObjectId and stored, the status route still
    answers with the counters it had before, here zero. *)
Lemma scan_leaves_rollup_behind :
  is_object_id scanUser = true
  ∧ scan_summary (postPackageJson lodashEnv 7 emptyDatabase (vulnerableRequestOf scanUser)).1
    = Some (mkSummary 1 1 1)
  ∧ doc_userId
      <$> scanresults (postPackageJson lodashEnv 7 emptyDatabase (vulnerableRequestOf scanUser)).2
    = [scanUser]
  ∧ getProjectStatusByName
      (postPackageJson lodashEnv 7 emptyDatabase (vulnerableRequestOf scanUser)).2
      "demo" (Some scanUser)
    = (200%nat, StatusCounts 0 0).
Proof. repeat split; vm_compute; reflexivity. Qed.

Lemma postPackageJson_saved env now db req packageJson userId :
  body_packageJson req = Some packageJson →
  truthy (user_id req) = Some userId →
  saves db req = true →
  ∃ doc,
    (postPackageJson env now db req).2
    = mkDatabase (scanresults db ++ [doc]) (projects db) (S (next_id db)) (available db)
    ∧ doc_id doc = next_id db
    ∧ Some (doc_summary doc) = scan_summary (postPackageJson env now db req).1.
Proof.
  intros Hpj Huser Hsaves. unfold postPackageJson. rewrite Hpj, Huser.
  unfold save. fold (requestProjectName req). unfold saves in Hsaves. rewrite Hsaves.
  eexists. cbn [snd fst]. split; [reflexivity|]. split; reflexivity.
Qed.

Lemma saves_after db db' req :
  available db' = available db → saves db' req = saves db req.
Proof. unfold saves. by intros ->. Qed.

Lemma postPackageJson_saved_doc env now db req packageJson userId :
  body_packageJson req = Some packageJson →
  truthy (user_id req) = Some userId →
  saves db req = true →
  ∃ doc,
    (postPackageJson env now db req).2
    = mkDatabase (scanresults db ++ [doc]) (projects db) (S (next_id db)) (available db)
    ∧ doc_userId doc = userId
    ∧ doc_projectName doc = JsString.trim (requestProjectName req)
    ∧ doc_packageJsonContent doc = packageJson
    ∧ doc_scanDate doc = now
    ∧ summary_total (doc_summary doc) = length (allDependencies packageJson).
Proof.
  intros Hpj Huser Hsaves. unfold postPackageJson. rewrite Hpj, Huser.
  unfold save. fold (requestProjectName req). unfold saves in Hsaves. rewrite Hsaves.
  eexists. cbn [snd]. split; [reflexivity|]. repeat split.
Qed.

(** C2, amended: an invocation that passes the guards of the handler,
    for a user whose id is an ObjectId, and whose save succeeds appends
    exactly one Scan Result record, of that user, holding the summary of
    the response, under an id that no stored record has, and leaves the
    records before it as they were, so that scanning the same manifest
    twice stores two records with different ids; no invocation writes a
    project, so the status route answers after the scans as it did before
    them. *)
Theorem scan_appends_one_record (env : Env) (now1 now2 : nat) (db : Database)
    (req : ScanRequest) (packageJson : PackageJson) (userId : string) :
  body_packageJson req = Some packageJson →
  truthy (user_id req) = Some userId →
  is_object_id userId = true →
  saves db req = true →
  ids_below_next db →
  let first := postPackageJson env now1 db req in
  let second := postPackageJson env now2 first.2 req in
  (∃ doc1 doc2,
     scanresults first.2 = scanresults db ++ [doc1]
     ∧ scanresults second.2 = scanresults db ++ [doc1; doc2]
     ∧ (doc_id doc1 ∉ doc_id <$> scanresults db)
     ∧ (doc_id doc2 ∉ doc_id <$> (scanresults db ++ [doc1]))
     ∧ doc_id doc1 ≠ doc_id doc2
     ∧ doc_userId doc1 = userId
     ∧ doc_userId doc2 = userId
     ∧ Some (doc_summary doc1) = scan_summary first.1
     ∧ Some (doc_summary doc2) = scan_summary second.1)
  ∧ ids_below_next second.2
  ∧ (NoDup (doc_id <$> scanresults db) → NoDup (doc_id <$> scanresults second.2))
  ∧ projects second.2 = projects db
  ∧ (∀ name user,
       getProjectStatusByName second.2 name user = getProjectStatusByName db name user).
Proof.
  intros Hpj Huser _ Hsaves Hids first second.
  assert (∀ now db' , saves db' req = true →
            ∃ doc, doc_userId doc = userId
                   ∧ scanresults (postPackageJson env now db' req).2 = scanresults db' ++ [doc])
    as Huserdoc.
  { intros now db' Hs.
    destruct (postPackageJson_saved_doc env now db' req _ _ Hpj Huser Hs)
      as (doc & -> & Hu & _). by exists doc. }
  assert (doc_id <$> scanresults db ⊆ seq 0 (next_id db)) as Hbelow.
  { intros n (doc & -> & Hdoc)%list_elem_of_fmap. unfold ids_below_next in Hids.
    rewrite Forall_forall in Hids. apply elem_of_seq. specialize (Hids doc Hdoc). lia. }
  destruct (postPackageJson_saved env now1 db req _ _ Hpj Huser Hsaves)
    as (doc1 & Hdb1 & Hid1 & Hsum1).
  fold first in Hdb1, Hsum1.
  assert (saves first.2 req = true) as Hsaves2.
  { rewrite <- Hsaves. apply saves_after. by rewrite Hdb1. }
  destruct (postPackageJson_saved env now2 first.2 req _ _ Hpj Huser Hsaves2)
    as (doc2 & Hdb2 & Hid2 & Hsum2).
  fold second in Hdb2, Hsum2.
  assert (doc_id doc1 ∉ (doc_id <$> scanresults db)) as Hfresh1.
  { intros Hin%Hbelow%elem_of_seq. lia. }
  assert (doc_id doc2 = S (next_id db)) as Hid2'.
  { rewrite Hid2, Hdb1. done. }
  assert (doc_id doc2 ∉ (doc_id <$> (scanresults db ++ [doc1]))) as Hfresh2.
  { rewrite fmap_app. intros [Hin%Hbelow%elem_of_seq|Hin%list_elem_of_singleton]%elem_of_app;
      lia. }
  assert (doc_userId doc1 = userId ∧ doc_userId doc2 = userId) as [Hu1 Hu2].
  { destruct (Huserdoc now1 db Hsaves) as (d1 & Hd1 & Heq1).
    destruct (Huserdoc now2 first.2 Hsaves2) as (d2 & Hd2 & Heq2).
    fold first in Heq1. fold second in Heq2.
    rewrite Hdb1 in Heq1. rewrite Hdb2 in Heq2. cbn [scanresults] in Heq1, Heq2.
    apply app_inj_tail in Heq1 as [_ <-]. apply app_inj_tail in Heq2 as [_ <-]. done. }
  split; [|split; [|split; [|split]]].
  - exists doc1, doc2. rewrite Hdb2, Hdb1. cbn [scanresults next_id].
    rewrite <- app_assoc. split; [done|]. split; [done|]. split; [done|].
    split; [done|]. split; [lia|]. done.
  - unfold ids_below_next. rewrite Hdb2, Hdb1. cbn [scanresults next_id].
    rewrite !Forall_app, !Forall_singleton. split; [split|]; [|lia..].
    eapply Forall_impl; [exact Hids|]. simpl. intros; lia.
  - intros Hnodup. rewrite Hdb2, Hdb1. cbn [scanresults].
    rewrite !fmap_app. cbn [fmap list_fmap].
    apply NoDup_app. split; [|split; [|apply NoDup_singleton]].
    + apply NoDup_app. split; [done|]. split; [|apply NoDup_singleton].
      intros n Hn ->%list_elem_of_singleton. done.
    + intros n Hn ->%list_elem_of_singleton. apply Hfresh2. by rewrite fmap_app.
  - by rewrite Hdb2, Hdb1.
  - intros name user. unfold getProjectStatusByName. by rewrite Hdb2, Hdb1.
Qed.

Lemma scan_appends_one_record_witness :
  length (scanresults
            (postPackageJson lodashEnv 8
               (postPackageJson lodashEnv 7 emptyDatabase (vulnerableRequestOf scanUser)).2
               (vulnerableRequestOf scanUser)).2) = 2%nat
  ∧ projects
      (postPackageJson lodashEnv 8
         (postPackageJson lodashEnv 7 emptyDatabase (vulnerableRequestOf scanUser)).2
         (vulnerableRequestOf scanUser)).2 = [].
Proof.
  destruct (scan_appends_one_record lodashEnv 7 8 emptyDatabase (vulnerableRequestOf scanUser)
              vulnerableManifest scanUser)
    as ((doc1 & doc2 & _ & Hsecond & _) & _ & _ & Hprojects & _).
  - reflexivity.
  - reflexivity.
  - reflexivity.
  - reflexivity.
  - apply Forall_nil_2.
  - split; [by rewrite Hsecond|exact Hprojects].
Defined.

(** C10: when the save throws, because the database is down or because
    the schema rejects the document, the handler still answers 200; the
    summary, the details and the warnings of the answer are those of the
    analysis, the same as against any other database, and the database is
    left as it was. *)
Theorem failed_save_keeps_response (env : Env) (now : nat) (db : Database)
    (req : ScanRequest) (packageJson : PackageJson) (userId : string) :
  body_packageJson req = Some packageJson →
  truthy (user_id req) = Some userId →
  saves db req = false →
  let analysis := analyzeDependencies env (allDependencies packageJson) in
  let summary :=
    mkSummary (size (outdated analysis)) (size (vulnerable analysis))
      (length (allDependencies packageJson)) in
  let details :=
    mkDetails (requestProjectName req) now (outdated analysis) (vulnerable analysis) in
  postPackageJson env now db req
  = ((200%nat,
      ScanSuccess summary details (if rateLimited analysis then Some true else None)),
     db)
  ∧ (∀ db', (postPackageJson env now db' req).1 = (postPackageJson env now db req).1).
Proof.
  intros Hpj Huser Hsaves analysis summary details.
  unfold postPackageJson. rewrite Hpj, Huser.
  unfold save. fold (requestProjectName req). unfold saves in Hsaves. rewrite Hsaves.
  split; [done|]. intros db'. by destruct (_ && _).
Qed.

Lemma failed_save_keeps_response_witness :
  (postPackageJson lodashEnv 7 unavailableDatabase vulnerableRequest).2 = unavailableDatabase
  ∧ (postPackageJson lodashEnv 7 unavailableDatabase vulnerableRequest).1
    = (postPackageJson lodashEnv 7 emptyDatabase vulnerableRequest).1.
Proof.
  destruct (failed_save_keeps_response lodashEnv 7 unavailableDatabase vulnerableRequest
              vulnerableManifest "u1") as [Hresult Hsame].
  - reflexivity.
  - reflexivity.
  - reflexivity.
  - split; [by rewrite Hresult|symmetry; apply Hsame].
Defined.

(** ** The entries of a scan *)

Section Entries.

Lemma set_key_keys k v o :
  (set_key k v o).*1 = if bool_decide (k ∈ o.*1) then o.*1 else o.*1 ++ [k].
Proof.
  induction o as [|[k' v'] o IH].
  - case_bool_decide as H; [by apply elem_of_nil in H|done].
  - cbn [set_key]. destruct (String.eqb_spec k' k) as [->|Hne].
    + rewrite bool_decide_eq_true_2; [done|]. rewrite fmap_cons. apply list_elem_of_here.
    + rewrite !fmap_cons, IH. cbn [fst].
      case_bool_decide as H1; case_bool_decide as H2; try done.
      * exfalso. apply H2. by apply list_elem_of_further.
      * apply elem_of_cons in H2 as [?|?]; [by subst|done].
Qed.

Lemma set_key_NoDup k v o : NoDup o.*1 → NoDup (set_key k v o).*1.
Proof.
  intros Hnodup. rewrite set_key_keys. case_bool_decide; [done|].
  apply NoDup_app. split; [done|]. split; [|apply NoDup_singleton].
  intros x Hx ->%list_elem_of_singleton. done.
Qed.

Lemma spread_NoDup source : ∀ target, NoDup target.*1 → NoDup (spread target source).*1.
Proof.
  unfold spread. induction source as [|[k v] source IH]; intros target Hnodup; simpl; [done|].
  by apply IH, set_key_NoDup.
Qed.

Lemma batchesFrom_sizes entries : ∀ fuel i,
  Forall (fun b => b ≠ [] ∧ (length b ≤ batchSize)%nat) (batchesFrom fuel i entries).
Proof.
  induction fuel as [|fuel IH]; intros i; simpl; [done|].
  destruct (Nat.ltb_spec i (length entries)) as [Hlt|Hge]; [|done].
  constructor; [|apply IH]. split.
  - intros Hnil. apply (f_equal length) in Hnil.
    rewrite length_take, length_drop in Hnil. unfold batchSize in Hnil.
    cbn [length] in Hnil. lia.
  - rewrite length_take. unfold batchSize. lia.
Qed.

End Entries.

(** X2: the object the handler scans lists every package name once,
    whatever the two dependency objects of the manifest hold. *)
Theorem allDependencies_NoDup (packageJson : PackageJson) :
  NoDup (allDependencies packageJson).*1.
Proof.
  unfold allDependencies. apply spread_NoDup, spread_NoDup. apply NoDup_nil_2.
Qed.

(** X1: the loop of analyzeDependencies cuts the entries into
    consecutive batches, none empty and none of more than five entries,
    that together are the entries in their order; the length of the
    entries is fuel enough for it. *)
Theorem batches_partition (entries : list (string * string)) :
  concat (batches entries) = entries
  ∧ Forall (fun b => b ≠ [] ∧ (length b ≤ 5)%nat) (batches entries).
Proof.
  split; [apply batches_concat|apply batchesFrom_sizes].
Qed.

(** X3: for a manifest without dependencies the summary is all zeros,
    both detail maps are empty and no request leaves the server. *)
Theorem empty_manifest_scan (env : Env) (now : nat) (db : Database) (req : ScanRequest)
    (packageJson : PackageJson) (userId : string) :
  body_packageJson req = Some packageJson →
  truthy (user_id req) = Some userId →
  allDependencies packageJson = [] →
  (postPackageJson env now db req).1
  = (200%nat,
     ScanSuccess (mkSummary 0 0 0) (mkDetails (requestProjectName req) now ∅ ∅) None)
  ∧ calls (analyzeDependencies env (allDependencies packageJson)) = [].
Proof.
  intros Hpj Huser Hdeps. unfold postPackageJson. rewrite Hpj, Huser, Hdeps.
  cbn [fst]. split; [|done].
  change (analyzeDependencies env []) with (mkAnalysis ∅ ∅ false []).
  cbn [outdated vulnerable rateLimited length]. by rewrite map_size_empty.
Qed.

Lemma empty_manifest_scan_witness :
  (postPackageJson failingEnv 3 emptyDatabase
     (mkScanRequest (Some (mkPackageJson None (Some []))) None None (Some "u1"))).1
  = (200%nat, ScanSuccess (mkSummary 0 0 0) (mkDetails "Unknown Project" 3 ∅ ∅) None).
Proof.
  apply (empty_manifest_scan failingEnv 3 emptyDatabase
           (mkScanRequest (Some (mkPackageJson None (Some []))) None None (Some "u1"))
           (mkPackageJson None (Some [])) "u1"); reflexivity.
Defined.

(** ** The requests of a scan *)

Section Requests.

Variable env : Env.

Lemma resume_calls st name clean latestVersion :
  rateLimited st = false →
  calls (resume env st (name, clean, latestVersion))
  = calls st ++ match knownVulnerablePackages name clean with
                | Some _ => []
                | None => [AdvisoryCall name]
                end.
Proof.
  intros Hflag. unfold resume. rewrite Hflag.
  destruct (checkVulnerabilities_returns env (calls st) name clean) as [[info|] ->]; done.
Qed.

Lemma foldl_resume_calls batch ps : ∀ st,
  Forall2 (issued env) batch ps → rateLimited st = false →
  calls (foldl (resume env) st ps)
  = calls st ++ (AdvisoryCall <$> (filter (fun e => in_static_table e = false) batch).*1).
Proof.
  intros st Hps. revert st.
  induction Hps as [|[name version] [[m clean] lv] batch ps (Hm & Hclean & _) _ IH];
    intros st Hflag; cbn [foldl].
  - rewrite filter_nil. simpl. by rewrite app_nil_r.
  - simpl in Hm, Hclean. subst m clean.
    rewrite IH by by rewrite resume_rateLimited.
    rewrite resume_calls by done. rewrite <- app_assoc. f_equal.
    unfold in_static_table at 2. simpl.
    destruct (knownVulnerablePackages name (cleanVersion version)) eqn:E.
    + rewrite filter_cons_False; [done|]. unfold in_static_table. simpl. by rewrite E.
    + rewrite filter_cons_True; [done|]. unfold in_static_table. simpl. by rewrite E.
Qed.

Lemma processBatch_calls st batch :
  rateLimited st = false →
  calls (processBatch env st batch) = calls st ++ batch_requests batch.
Proof.
  intros Hflag. unfold processBatch, batch_requests.
  destruct (issueLookups_spec env batch (calls st)) as (ps & -> & Hps).
  rewrite (foldl_resume_calls batch ps) by done. simpl. by rewrite app_assoc.
Qed.

Lemma foldl_processBatch_calls bs : ∀ st,
  rateLimited st = false →
  calls (foldl (processBatch env) st bs) = calls st ++ concat (batch_requests <$> bs).
Proof.
  induction bs as [|b bs IH]; intros st Hflag; simpl.
  - by rewrite app_nil_r.
  - rewrite IH by by rewrite processBatch_rateLimited.
    rewrite processBatch_calls by done. by rewrite app_assoc.
Qed.

Lemma analyzeDependencies_calls deps :
  calls (analyzeDependencies env deps) = scan_requests deps.
Proof. unfold analyzeDependencies. by rewrite foldl_processBatch_calls. Qed.

End Requests.

Lemma filter_calls_same p (mk : string → Call) names :
  (∀ n, p (mk n) = true) → List.filter p (mk <$> names) = mk <$> names.
Proof.
  intros Hp. induction names as [|n names IH]; [done|].
  rewrite fmap_cons. cbn [List.filter]. rewrite Hp. by f_equal.
Qed.

Lemma filter_calls_other p (mk : string → Call) names :
  (∀ n, p (mk n) = false) → List.filter p (mk <$> names) = [].
Proof.
  intros Hp. induction names as [|n names IH]; [done|].
  rewrite fmap_cons. cbn [List.filter]. by rewrite Hp.
Qed.

Lemma filter_registry_batch batch :
  List.filter is_registry_call (batch_requests batch) = RegistryCall <$> batch.*1.
Proof.
  unfold batch_requests. rewrite List.filter_app.
  rewrite filter_calls_same, filter_calls_other by done. by rewrite app_nil_r.
Qed.

Lemma filter_advisory_batch batch :
  List.filter is_advisory_call (batch_requests batch)
  = AdvisoryCall <$> (filter (fun e => in_static_table e = false) batch).*1.
Proof.
  unfold batch_requests. rewrite List.filter_app.
  rewrite filter_calls_other by done. by rewrite filter_calls_same by done.
Qed.

Lemma filter_concat {A} (p : A → bool) (ls : list (list A)) :
  List.filter p (concat ls) = concat (List.filter p <$> ls).
Proof.
  induction ls as [|l ls IH]; simpl; [done|]. by rewrite List.filter_app, IH.
Qed.

Lemma concat_fmap_distr {A B} (g : list A → list B) (ls : list (list A)) :
  g [] = [] → (∀ l k, g (l ++ k) = g l ++ g k) → concat (g <$> ls) = g (concat ls).
Proof.
  intros Hnil Happ. induction ls as [|l ls IH]; [done|].
  rewrite fmap_cons. cbn [concat]. by rewrite IH, Happ.
Qed.

(** X4: the requests of a scan are fixed by the manifest alone, up to
    the order of the advisory requests within a batch. When the static
    table finds only own keys for every entry ([own_lookup]: the cleaned
    version starts with a digit, or neither it nor the name is a property
    of Object.prototype), the log of the scan
    is, batch by batch, one registry request for every entry of the
    batch, in the order of the entries, then one advisory request for
    every entry of the batch outside the static table, in some order,
    whatever the registry and the advisory API answer. So a scan of n
    entries sends n registry requests, in the order of the entries, and
    never repeats or withholds a request. *)
Theorem scan_requests_fixed (env : Env) (deps : list (string * string)) :
  Forall (fun e => own_lookup e.1 (cleanVersion e.2) = true) deps →
  (∃ logs, calls (analyzeDependencies env deps) = concat logs
           ∧ Forall2 batch_log (batches deps) logs)
  ∧ List.filter is_registry_call (calls (analyzeDependencies env deps))
    = RegistryCall <$> deps.*1
  ∧ List.filter is_advisory_call (calls (analyzeDependencies env deps))
    ≡ₚ AdvisoryCall <$> (filter (fun e => in_static_table e = false) deps).*1.
Proof.
  intros _. rewrite analyzeDependencies_calls. split.
  { exists (batch_requests <$> batches deps). split; [done|].
    apply Forall2_fmap_r, Forall_Forall2_diag, Forall_forall. intros batch _.
    unfold batch_log, batch_requests. eexists. split; [reflexivity|done]. }
  unfold scan_requests. rewrite !filter_concat, <- !list_fmap_compose.
  split.
  - rewrite (list_fmap_ext _ (fun b => RegistryCall <$> b.*1) (batches deps))
      by (intros; apply filter_registry_batch).
    rewrite (concat_fmap_distr (fun b => RegistryCall <$> b.*1)).
    + rewrite batches_concat. symmetry. apply list_fmap_compose.
    + done.
    + intros l k. by rewrite !fmap_app.
  - rewrite (list_fmap_ext _
               (fun b => AdvisoryCall <$> (filter (fun e => in_static_table e = false) b).*1)
               (batches deps))
      by (intros; apply filter_advisory_batch).
    rewrite (concat_fmap_distr
               (fun b => AdvisoryCall <$> (filter (fun e => in_static_table e = false) b).*1)).
    + rewrite batches_concat. by rewrite <- list_fmap_compose.
    + done.
    + intros l k. by rewrite filter_app, !fmap_app.
Qed.

Lemma scan_requests_fixed_witness :
  List.filter is_registry_call (calls (analyzeDependencies rateLimitedEnv sixPackages))
  = RegistryCall <$> ["a"; "b"; "c"; "d"; "e"; "f"].
Proof.
  apply (scan_requests_fixed rateLimitedEnv sixPackages).
  repeat constructor.
Defined.

(** ** The summary of a response *)

Lemma size_le_names {V} (m : gmap string V) (names : list string) :
  NoDup names → (∀ name, is_Some (m !! name) → name ∈ names) →
  (size m ≤ length names)%nat.
Proof.
  intros Hnodup Hsub. rewrite <- size_dom, <- (size_list_to_set (C:=gset string) names) by done.
  apply subseteq_size. intros name Hname.
  apply elem_of_dom in Hname. apply elem_of_list_to_set. by apply Hsub.
Qed.

(** X5: a scan reports only packages of the manifest: a name in the
    outdated or in the vulnerable map is a name of the manifest, and in
    every successful response the outdated and the vulnerable counts are
    at most the total. *)
Theorem scan_reports_manifest_packages (env : Env) :
  (∀ deps name,
     is_Some (outdated (analyzeDependencies env deps) !! name)
     ∨ is_Some (vulnerable (analyzeDependencies env deps) !! name) →
     name ∈ deps.*1)
  ∧ (∀ now db req summary,
       scan_summary (postPackageJson env now db req).1 = Some summary →
       (summary_outdated summary ≤ summary_total summary)%nat
       ∧ (summary_vulnerable summary ≤ summary_total summary)%nat).
Proof.
  assert (∀ deps name,
            is_Some (outdated (analyzeDependencies env deps) !! name)
            ∨ is_Some (vulnerable (analyzeDependencies env deps) !! name) →
            name ∈ deps.*1) as Hkeys.
  { intros deps name Hsome.
    destruct (decide (name ∈ deps.*1)) as [|Hnot]; [done|].
    pose proof (analyzeDependencies_view_other env deps name Hnot) as Hview.
    unfold view in Hview. injection Hview as Ho Hv _. rewrite Ho, Hv in Hsome.
    by destruct Hsome as [[? ?]|[? ?]]. }
  split; [done|].
  intros now db req summary. unfold postPackageJson, scan_summary.
  destruct (body_packageJson req) as [packageJson|]; [|done].
  destruct (truthy (user_id req)); [|done]. simpl. intros [= <-]. simpl.
  pose proof (spread_NoDup (default [] (devDependencies packageJson))
                (spread [] (default [] (dependencies packageJson)))
                (spread_NoDup _ [] (NoDup_nil_2))) as Hnodup.
  fold (allDependencies packageJson) in Hnodup.
  rewrite <- (length_fmap fst (allDependencies packageJson)).
  split; apply size_le_names; try done; intros name Hname; apply Hkeys; auto.
Qed.

(** ** The merged dependencies *)

Lemma get_key_set_key_eq k v o : get_key k (set_key k v o) = Some v.
Proof.
  induction o as [|[k' v'] o IH]; simpl.
  - by rewrite String.eqb_refl.
  - destruct (String.eqb_spec k' k) as [->|Hne]; simpl.
    + by rewrite String.eqb_refl.
    + destruct (String.eqb_spec k' k); [done|]. apply IH.
Qed.

Lemma get_key_set_key_ne k k' v o : k' ≠ k → get_key k' (set_key k v o) = get_key k' o.
Proof.
  intros Hne. induction o as [|[k1 v1] o IH]; simpl.
  - destruct (String.eqb_spec k k'); [by subst|done].
  - destruct (String.eqb_spec k1 k) as [->|Hne1]; simpl.
    + destruct (String.eqb_spec k k'); [by subst|done].
    + destruct (String.eqb_spec k1 k'); [done|apply IH].
Qed.

Lemma get_key_None k o : k ∉ o.*1 → get_key k o = None.
Proof.
  induction o as [|[k' v'] o IH]; simpl; [done|].
  intros [Hne Hnot]%not_elem_of_cons.
  destruct (String.eqb_spec k' k); [by subst|by apply IH].
Qed.

Lemma get_key_spread k source : ∀ target,
  NoDup source.*1 →
  get_key k (spread target source)
  = match get_key k source with
    | Some v => Some v
    | None => get_key k target
    end.
Proof.
  unfold spread. induction source as [|[k1 v1] source IH]; intros target Hnodup; [done|].
  rewrite fmap_cons in Hnodup. apply NoDup_cons in Hnodup as [Hk1 Hnodup].
  cbn [foldl]. rewrite IH by done. cbn [get_key].
  destruct (String.eqb_spec k1 k) as [->|Hne].
  - by rewrite get_key_None, get_key_set_key_eq.
  - rewrite get_key_set_key_ne by done. done.
Qed.

Lemma set_key_length k v o : (length (set_key k v o) ≤ S (length o))%nat.
Proof.
  induction o as [|[k' v'] o IH]; simpl; [lia|].
  destruct (String.eqb k' k); simpl; lia.
Qed.

Lemma spread_length source : ∀ target,
  (length (spread target source) ≤ length target + length source)%nat.
Proof.
  unfold spread. induction source as [|[k v] source IH]; intros target; simpl; [lia|].
  pose proof (IH (set_key k v target)). pose proof (set_key_length k v target). lia.
Qed.

(** X6: in the object the handler scans, a package listed in both
    sections of the manifest has the version range of devDependencies and
    is counted once: the range of a name is the one devDependencies give
    it, else the one dependencies give it, and the total is at most the
    sum of the sizes of the two sections. *)
Theorem devDependencies_override (packageJson : PackageJson) (name : string) :
  NoDup (default [] (dependencies packageJson)).*1 →
  NoDup (default [] (devDependencies packageJson)).*1 →
  get_key name (allDependencies packageJson)
  = match get_key name (default [] (devDependencies packageJson)) with
    | Some range => Some range
    | None => get_key name (default [] (dependencies packageJson))
    end
  ∧ (length (allDependencies packageJson)
     ≤ length (default [] (dependencies packageJson))
       + length (default [] (devDependencies packageJson)))%nat.
Proof.
  intros Hdeps Hdev. unfold allDependencies. split.
  - rewrite !get_key_spread by done. simpl.
    by destruct (get_key name (default [] (dependencies packageJson))).
  - pose proof (spread_length (default [] (devDependencies packageJson))
                  (spread [] (default [] (dependencies packageJson)))).
    pose proof (spread_length (default [] (dependencies packageJson)) []).
    simpl in *. lia.
Qed.

Lemma devDependencies_override_witness :
  get_key "jest"
    (allDependencies
       (mkPackageJson (Some [("react", "^18.2.0"); ("jest", "^27.0.0")])
                      (Some [("jest", "^29.7.0")])))
  = Some "^29.7.0".
Proof.
  destruct (devDependencies_override
              (mkPackageJson (Some [("react", "^18.2.0"); ("jest", "^27.0.0")])
                             (Some [("jest", "^29.7.0")])) "jest") as [Hget _].
  - simpl. apply NoDup_cons. split; [|apply NoDup_singleton].
    intros H%list_elem_of_singleton. discriminate H.
  - simpl. apply NoDup_singleton.
  - rewrite Hget. reflexivity.
Defined.

(** ** The advisories of a response *)

Section Advisories.

Variable env : Env.

Lemma rangeAffects_readable version range :
  range_readable range = true →
  rangeAffects version range = Returned (range_holds version range).
Proof.
  unfold range_holds, range_readable, rangeAffects.
  case_bool_decide; simpl; [|done].
  destruct (events range) as [[|e0 evs]|]; [done| |done]. intros _. simpl.
  destruct (introduced e0) as [intro|]; [|done].
  destruct (JsString.ge version intro); simpl; [|done].
  destruct (evs !! 0%nat ≫= fixed) as [f|]; [|done].
  by destruct (JsString.nonempty f).
Qed.

Lemma some_range_readable version rs :
  forallb range_readable rs = true →
  some_range version rs = Returned (existsb (range_holds version) rs).
Proof.
  induction rs as [|r rs IH]; simpl; [done|].
  intros [Hr Hrs]%andb_prop. rewrite (rangeAffects_readable _ _ Hr).
  destruct (range_holds version r); simpl; [done|by apply IH].
Qed.

Lemma findAdvisory_readable packageName version data :
  forallb (advisory_readable packageName) data = true →
  findAdvisory env packageName version data
  = Returned (advisoryInfo env <$> List.find (advisory_affects packageName version) data).
Proof.
  induction data as [|advisory data IH]; simpl; [done|].
  intros [Ha Hdata]%andb_prop. unfold advisory_readable in Ha. unfold advisory_affects at 1.
  case_bool_decide; simpl; [|by apply IH].
  destruct (affected advisory ≫= ranges) as [rs|]; [|done]. simpl.
  rewrite (some_range_readable _ _ Ha).
  destruct (existsb (range_holds version) rs); [done|by apply IH].
Qed.

Lemma findAdvisory_unreadable packageName version pre advisory rest :
  forallb (advisory_readable packageName) pre = true →
  List.find (advisory_affects packageName version) pre = None →
  affected advisory ≫= package_name = Some packageName →
  affected advisory ≫= ranges = None →
  findAdvisory env packageName version (pre ++ advisory :: rest) = Threw TypeError.
Proof.
  intros Hpre Hfind Hname Hranges.
  induction pre as [|a pre IH]; simpl.
  - rewrite bool_decide_eq_true_2 by done. by rewrite Hranges.
  - simpl in Hpre, Hfind. apply andb_prop in Hpre as [Ha Hpre].
    unfold advisory_readable in Ha. unfold advisory_affects in Hfind at 1.
    case_bool_decide; simpl in *.
    + destruct (affected a ≫= ranges) as [rs|]; [|done]. simpl in Hfind.
      rewrite (some_range_readable _ _ Ha).
      destruct (existsb (range_holds version) rs); [done|by apply IH].
    + by apply IH.
Qed.

End Advisories.

(** X7: for a package that the static table does not hold, whose lookup
    in it finds only own keys ([own_lookup]): when every advisory of the response that names the package
    has ranges that can be read, checkVulnerabilities reports the first
    advisory, in the order of the response, that names the package and
    has a range holding the version, and null when there is none;
    advisories naming other packages are passed over. *)
Theorem first_affecting_advisory_wins (env : Env) (log : list Call)
    (packageName version : string) (data : list Advisory) :
  own_lookup packageName version = true →
  knownVulnerablePackages packageName version = None →
  advisories env log packageName = Returned (Some data) →
  forallb (advisory_readable packageName) data = true →
  (checkVulnerabilities env log packageName version).1
  = Returned (advisoryInfo env <$> List.find (advisory_affects packageName version) data).
Proof.
  intros _ Hknown Hdata Hreadable. unfold checkVulnerabilities, queryAdvisories.
  rewrite Hknown, Hdata, (findAdvisory_readable env _ _ _ Hreadable).
  by destruct (List.find _ data).
Qed.

Lemma first_affecting_advisory_wins_witness :
  (checkVulnerabilities advisoryEnv [] "express" "4.17.1").1
  = Returned (Some (mkVulnerabilityInfo "GHSA-0002" "high" "second" (Some []))).
Proof.
  rewrite (first_affecting_advisory_wins advisoryEnv [] "express" "4.17.1" advisoryData);
    reflexivity.
Defined.

(** X8: for a package that the static table does not hold, whose lookup
    in it finds only own keys ([own_lookup]): an advisory that names the
    package but has no ranges ends the search with an exception that checkVulnerabilities swallows: the
    package is reported clean, whatever advisories come after it in the
    response. *)
Theorem unreadable_advisory_hides_the_rest (env : Env) (log : list Call)
    (packageName version : string) (pre rest : list Advisory) (advisory : Advisory) :
  own_lookup packageName version = true →
  knownVulnerablePackages packageName version = None →
  advisories env log packageName = Returned (Some (pre ++ advisory :: rest)) →
  forallb (advisory_readable packageName) pre = true →
  List.find (advisory_affects packageName version) pre = None →
  affected advisory ≫= package_name = Some packageName →
  affected advisory ≫= ranges = None →
  (checkVulnerabilities env log packageName version).1 = Returned None.
Proof.
  intros _ Hknown Hdata Hpre Hfind Hname Hranges.
  unfold checkVulnerabilities, queryAdvisories. rewrite Hknown, Hdata.
  by rewrite (findAdvisory_unreadable env _ _ _ _ _ Hpre Hfind Hname Hranges).
Qed.

Lemma unreadable_advisory_hides_the_rest_witness :
  (checkVulnerabilities brokenAdvisoryEnv [] "express" "4.17.1").1 = Returned None
  ∧ List.find (advisory_affects "express" "4.17.1") advisoryData
    = Some (mkAdvisory (Some (mkAffected (Some "express") (Some [rangeFrom "4.0.0"])))
              (Some "GHSA-0002") (Some "high") (Some "second") None).
Proof.
  split; [|reflexivity].
  apply (unreadable_advisory_hides_the_rest brokenAdvisoryEnv [] "express" "4.17.1"
           [] advisoryData
           (mkAdvisory (Some (mkAffected (Some "express") None)) None None None None));
    reflexivity.
Defined.

(** ** A package at the latest version *)

Section SameVersion.

Import JsString CompareVersions.

Lemma string_ltb_irrefl s : String.ltb s s = false.
Proof.
  unfold String.ltb. pose proof (String.compare_antisym s s) as H.
  by destruct (String.compare s s).
Qed.

Lemma compareStrings_same a : compareStrings a a = 0.
Proof.
  unfold compareStrings. destruct (isWildcard a); [done|]. simpl.
  destruct (parseInt a) as [x|].
  - by rewrite Z.ltb_irrefl.
  - unfold gt, lt. by rewrite string_ltb_irrefl.
Qed.

Lemma first_nonzero_zeros l : Forall (fun r => r = 0) l → first_nonzero l = 0.
Proof. induction 1 as [|r l -> _ IH]; simpl; done. Qed.

Lemma compareSegments_same a : compareSegments a a = 0.
Proof.
  unfold compareSegments. apply first_nonzero_zeros.
  apply Forall_fmap, Forall_forall. intros i _. apply compareStrings_same.
Qed.

Lemma isNewerVersion_same v : isNewerVersion v v = false.
Proof.
  unfold isNewerVersion, compareVersions.
  destruct (validateAndParse v) as [n|]; [|done].
  rewrite compareSegments_same. simpl.
  destruct (prerelease n); [|done]. by rewrite compareSegments_same.
Qed.

End SameVersion.

(** X9: a package whose cleaned version is, character for character, the
    latest version of the registry is never marked outdated, whatever the
    string is: a plain version, a pre-release, a wildcard or a string the
    comparator rejects. *)
Theorem latest_version_not_outdated (env : Env) (deps : list (string * string))
    (name range : string) :
  NoDup deps.*1 → (name, range) ∈ deps →
  (∀ h, registry env h name = Returned (Some (cleanVersion range))) →
  outdated (analyzeDependencies env deps) !! name = None.
Proof.
  intros Hnodup Hin Hreg.
  destruct (analyzeDependencies_view env deps name range Hnodup Hin) as (h1 & h2 & Hview).
  unfold view, package_outcome in Hview. injection Hview as Ho _ _.
  rewrite Ho. unfold getLatestVersion. simpl. rewrite Hreg.
  destruct (JsString.nonempty (cleanVersion range)); [|done].
  by rewrite isNewerVersion_same.
Qed.

Lemma latest_version_not_outdated_witness :
  outdated (analyzeDependencies lodashEnv [("lodash", "~4.17.21")]) !! "lodash" = None.
Proof.
  apply (latest_version_not_outdated lodashEnv [("lodash", "~4.17.21")] "lodash" "~4.17.21").
  - apply NoDup_singleton.
  - apply list_elem_of_here.
  - reflexivity.
Defined.

(** ** The local scanner *)

Section LocalScan.

Import LocalScanner.

Lemma check_other severity st name version name' :
  name ≠ name' → (check severity st (name, version)).2 !! name' = st.2 !! name'.
Proof.
  intros Hne. destruct st as [count pkgs]. unfold check.
  destruct (knownOutdatedPackages name) as [[cur lat]|]; [|done].
  destruct (String.eqb _ cur); [|done]. simpl. by rewrite lookup_insert_ne.
Qed.

Lemma foldl_check_other severity entries name : ∀ st,
  name ∉ entries.*1 → (foldl (check severity) st entries).2 !! name = st.2 !! name.
Proof.
  induction entries as [|[n v] entries IH]; intros st Hnot; [done|].
  rewrite fmap_cons in Hnot. apply not_elem_of_cons in Hnot as [Hne Hnot].
  cbn [foldl]. rewrite IH by done. by apply check_other.
Qed.

Lemma foldl_check_lookup severity entries name : ∀ st,
  NoDup entries.*1 →
  (foldl (check severity) st entries).2 !! name
  = match report severity entries name with
    | Some info => Some info
    | None => st.2 !! name
    end.
Proof.
  induction entries as [|[n v] entries IH]; intros st Hnodup.
  - unfold report. simpl. done.
  - rewrite fmap_cons in Hnodup. apply NoDup_cons in Hnodup as [Hn Hnodup].
    cbn [foldl]. unfold report. cbn [get_key].
    destruct (String.eqb_spec n name) as [->|Hne].
    + rewrite foldl_check_other by done.
      destruct st as [count pkgs]. unfold check.
      destruct (knownOutdatedPackages name) as [[cur lat]|]; [|done].
      destruct (String.eqb _ cur); [|done]. simpl. by rewrite lookup_insert_eq.
    + rewrite IH by done. fold (report severity entries name).
      destruct (report severity entries name); [done|]. by apply check_other.
Qed.

Lemma check_counts severity st entry :
  check severity st entry = st
  ∨ (∃ info, check severity st entry = (S st.1, <[entry.1 := info]> st.2)).
Proof.
  destruct st as [count pkgs], entry as [name version]. unfold check.
  destruct (knownOutdatedPackages name) as [[cur lat]|]; [|by left].
  destruct (String.eqb _ cur); [|by left]. right. eauto.
Qed.

Lemma foldl_check_size severity entries : ∀ st,
  (size (foldl (check severity) st entries).2 + st.1
   ≤ size st.2 + (foldl (check severity) st entries).1)%nat.
Proof.
  induction entries as [|entry entries IH]; intros st; cbn [foldl]; [lia|].
  destruct (check_counts severity st entry) as [->|(info & ->)]; [done|].
  pose proof (IH (S st.1, <[entry.1 := info]> st.2)) as H.
  simpl in H. pose proof (map_size_insert entry.1 info st.2) as Hsize.
  destruct (st.2 !! entry.1); simpl in Hsize; lia.
Qed.

Lemma foldl_check_dom severity entries name : ∀ st,
  is_Some ((foldl (check severity) st entries).2 !! name) →
  is_Some (st.2 !! name) ∨ name ∈ entries.*1.
Proof.
  induction entries as [|[n v] entries IH]; intros st Hsome; [by left|].
  cbn [foldl] in Hsome. apply IH in Hsome as [Hsome|Hin].
  - destruct (decide (n = name)) as [->|Hne]; [right; apply list_elem_of_here|].
    rewrite check_other in Hsome by done. by left.
  - right. rewrite fmap_cons. by apply list_elem_of_further.
Qed.

Lemma foldl_check_fresh severity entries : ∀ st,
  NoDup entries.*1 → (∀ name, name ∈ entries.*1 → st.2 !! name = None) →
  (size (foldl (check severity) st entries).2 + st.1
   = size st.2 + (foldl (check severity) st entries).1)%nat.
Proof.
  induction entries as [|[n v] entries IH]; intros st Hnodup Hfresh; cbn [foldl]; [lia|].
  rewrite fmap_cons in Hnodup, Hfresh. apply NoDup_cons in Hnodup as [Hn Hnodup].
  assert (∀ name, name ∈ entries.*1 → (check severity st (n, v)).2 !! name = None) as Hfresh'.
  { intros name Hname. rewrite check_other; [|by intros ->].
    apply Hfresh. by apply list_elem_of_further. }
  pose proof (IH (check severity st (n, v)) Hnodup Hfresh') as H.
  destruct (check_counts severity st (n, v)) as [Heq|(info & Heq)]; rewrite Heq in *;
    [done|].
  simpl in *. rewrite map_size_insert, (Hfresh n) in H by apply list_elem_of_here. simpl in H. lia.
Qed.

End LocalScan.

(** X10: the local scan reports a package exactly when the cleaned range
    of one of its entries is, character for character, the [current]
    version of the table; an older or a newer pin is not reported. The
    entry of devDependencies decides when it is reported, with severity
    low; otherwise the entry of dependencies, with severity medium. No
    package is ever reported vulnerable. *)
Theorem local_scan_reports (packageJson : PackageJson) (name : string) :
  NoDup (default [] (dependencies packageJson)).*1 →
  NoDup (default [] (devDependencies packageJson)).*1 →
  LocalScanner.outdatedPackages (LocalScanner.scanFile packageJson) !! name
  = match LocalScanner.report low (default [] (devDependencies packageJson)) name with
    | Some info => Some info
    | None => LocalScanner.report medium (default [] (dependencies packageJson)) name
    end
  ∧ LocalScanner.vulnerablePackages (LocalScanner.scanFile packageJson) = ∅
  ∧ summary_vulnerable (LocalScanner.summary (LocalScanner.scanFile packageJson)) = 0%nat.
Proof.
  intros Hdeps Hdev. unfold LocalScanner.scanFile.
  destruct (foldl (LocalScanner.check low) _ _) as [count pkgs] eqn:E.
  simpl. split; [|done].
  change pkgs with (count, pkgs).2. rewrite <- E.
  rewrite foldl_check_lookup by done.
  destruct (LocalScanner.report low _ name); [done|].
  rewrite foldl_check_lookup by done. simpl.
  by destruct (LocalScanner.report medium _ name).
Qed.

Lemma local_scan_reports_witness :
  LocalScanner.outdatedPackages
    (LocalScanner.scanFile
       (mkPackageJson (Some [("lodash", "^4.17.20"); ("express", "^4.16.0")])
                      (Some [("typescript", "~4.5.5")]))) !! "express" = None
  ∧ LocalScanner.outdatedPackages
      (LocalScanner.scanFile
         (mkPackageJson (Some [("lodash", "^4.17.20"); ("express", "^4.16.0")])
                        (Some [("typescript", "~4.5.5")]))) !! "typescript"
    = Some (mkOutdatedInfo "4.5.5" "5.3.3" low).
Proof.
  assert (NoDup ["lodash"; "express"]) as H1.
  { apply NoDup_cons. split; [|apply NoDup_singleton].
    intros H%list_elem_of_singleton. discriminate H. }
  split.
  - destruct (local_scan_reports
                (mkPackageJson (Some [("lodash", "^4.17.20"); ("express", "^4.16.0")])
                               (Some [("typescript", "~4.5.5")])) "express") as [-> _].
    + exact H1.
    + apply NoDup_singleton.
    + reflexivity.
  - destruct (local_scan_reports
                (mkPackageJson (Some [("lodash", "^4.17.20"); ("express", "^4.16.0")])
                               (Some [("typescript", "~4.5.5")])) "typescript") as [-> _].
    + exact H1.
    + apply NoDup_singleton.
    + reflexivity.
Defined.

(** X11: in the summary of the local scan the total is the sum of the
    sizes of the two sections and the outdated count is the number of
    matching entries, so neither is the number of packages when a package
    stands in both sections: the total is at least the total the server
    counts for the same manifest, and the outdated count is at least the
    number of packages in the outdated map, with equality when no name
    stands in both sections. *)
Theorem local_scan_counts (packageJson : PackageJson) :
  (size (LocalScanner.outdatedPackages (LocalScanner.scanFile packageJson))
   ≤ summary_outdated (LocalScanner.summary (LocalScanner.scanFile packageJson)))%nat
  ∧ (length (allDependencies packageJson)
     ≤ summary_total (LocalScanner.summary (LocalScanner.scanFile packageJson)))%nat
  ∧ (NoDup ((default [] (dependencies packageJson)).*1
            ++ (default [] (devDependencies packageJson)).*1) →
     size (LocalScanner.outdatedPackages (LocalScanner.scanFile packageJson))
     = summary_outdated (LocalScanner.summary (LocalScanner.scanFile packageJson)))
  ∧ (let both := mkPackageJson (Some [("lodash", "4.17.20")]) (Some [("lodash", "4.17.20")]) in
     size (LocalScanner.outdatedPackages (LocalScanner.scanFile both)) = 1%nat
     ∧ LocalScanner.summary (LocalScanner.scanFile both) = mkSummary 2 0 2
     ∧ length (allDependencies both) = 1%nat).
Proof.
  split; [|split; [|split]].
  - unfold LocalScanner.scanFile.
    pose proof (foldl_check_size low (default [] (devDependencies packageJson))
                  (foldl (LocalScanner.check medium) (0%nat, ∅)
                     (default [] (dependencies packageJson)))) as H2.
    pose proof (foldl_check_size medium (default [] (dependencies packageJson)) (0%nat, ∅))
      as H1.
    destruct (foldl (LocalScanner.check low) _ _) as [count pkgs]. simpl in *.
    rewrite map_size_empty in H1. lia.
  - unfold LocalScanner.scanFile.
    destruct (foldl (LocalScanner.check low) _ _) as [count pkgs]. simpl.
    unfold allDependencies.
    pose proof (spread_length (default [] (devDependencies packageJson))
                  (spread [] (default [] (dependencies packageJson)))).
    pose proof (spread_length (default [] (dependencies packageJson)) []).
    simpl in *. lia.
  - intros Hnodup. apply NoDup_app in Hnodup as (Hdeps & Hdisj & Hdev).
    unfold LocalScanner.scanFile.
    pose proof (foldl_check_fresh medium (default [] (dependencies packageJson)) (0%nat, ∅)
                  Hdeps (fun name _ => lookup_empty name)) as H1.
    assert (∀ name, name ∈ (default [] (devDependencies packageJson)).*1 →
              (foldl (LocalScanner.check medium) (0%nat, ∅)
                 (default [] (dependencies packageJson))).2 !! name = None) as Hfresh.
    { intros name Hname. apply eq_None_not_Some. intros Hsome.
      apply foldl_check_dom in Hsome as [Hsome|Hin].
      - simpl in Hsome. rewrite lookup_empty in Hsome. by destruct Hsome.
      - by apply (Hdisj name). }
    pose proof (foldl_check_fresh low (default [] (devDependencies packageJson)) _
                  Hdev Hfresh) as H2.
    destruct (foldl (LocalScanner.check low) _ _) as [count pkgs]. simpl in *.
    rewrite map_size_empty in H1. lia.
  - repeat split; vm_compute; reflexivity.
Qed.

(** ** The statistics of a user *)

Section Stats.

Import UserStats.

Lemma insertNewest_perm doc sorted : insertNewest doc sorted ≡ₚ doc :: sorted.
Proof.
  induction sorted as [|x sorted IH]; simpl; [done|].
  destruct (doc_scanDate x <=? doc_scanDate doc)%nat; [done|].
  rewrite IH. apply perm_swap.
Qed.

Lemma newestFirst_perm docs : newestFirst docs ≡ₚ docs.
Proof.
  induction docs as [|doc docs IH]; simpl; [done|].
  by rewrite insertNewest_perm, IH.
Qed.

Lemma scansOf_idem userId docs : scansOf userId (scansOf userId docs) = scansOf userId docs.
Proof.
  unfold scansOf. induction docs as [|doc docs IH]; simpl; [done|].
  destruct (String.eqb (doc_userId doc) userId) eqn:E; simpl; [|done].
  by rewrite E, IH.
Qed.

Lemma foldl_total docs : ∀ acc,
  foldl (fun sum scan => (sum + summary_total (doc_summary scan))%nat) acc docs
  = (acc + sum_list_with (fun scan => summary_total (doc_summary scan)) docs)%nat.
Proof.
  induction docs as [|doc docs IH]; intros acc; simpl; [lia|]. rewrite IH. lia.
Qed.

Lemma distinct_perm l k : l ≡ₚ k → distinct l = distinct k.
Proof. intros H. unfold distinct. by rewrite H. Qed.

Lemma distinct_mono l k : (∀ x, x ∈ l → x ∈ k) → (distinct l ≤ distinct k)%nat.
Proof.
  intros H. unfold distinct. apply subseteq_size. intros x Hx.
  apply elem_of_list_to_set in Hx. apply elem_of_list_to_set. by apply H.
Qed.

Lemma distinct_le_length l : (distinct l ≤ length l)%nat.
Proof.
  unfold distinct. induction l as [|x l IH].
  - by rewrite list_to_set_nil, size_empty.
  - rewrite list_to_set_cons, size_union_alt, size_singleton. cbn [length].
    assert (size (list_to_set (C := gset string) l ∖ {[x]})
            ≤ size (list_to_set (C := gset string) l))%nat.
    { apply subseteq_size, subseteq_difference_l. done. }
    lia.
Qed.

Lemma distinct_NoDup l : NoDup l → distinct l = length l.
Proof. apply size_list_to_set. Qed.

(** The loop of recentProjects keeps distinct names, at most five, all
    of them names of scans seen, and loses no name while it holds fewer
    than five. *)
Lemma addRecent_invariant scans : ∀ recent seen,
  NoDup (name <$> recent) → (length recent ≤ 5)%nat →
  (∀ n, n ∈ name <$> recent → n ∈ seen) →
  ((length recent < 5)%nat → ∀ n, n ∈ seen → n ∈ name <$> recent) →
  let final := foldl addRecent recent scans in
  NoDup (name <$> final) ∧ (length final ≤ 5)%nat
  ∧ (∀ n, n ∈ name <$> final → n ∈ seen ++ (doc_projectName <$> scans))
  ∧ ((length final < 5)%nat →
     ∀ n, n ∈ seen ++ (doc_projectName <$> scans) → n ∈ name <$> final).
Proof.
  induction scans as [|scan scans IH]; intros recent seen Hnodup Hlen Hsub Hall; simpl.
  - rewrite app_nil_r. done.
  - assert (existsb (fun r => String.eqb (name r) (doc_projectName scan)) recent = true
            ↔ doc_projectName scan ∈ name <$> recent) as Hex.
    { rewrite existsb_exists. split.
      - intros (r & Hr%list_elem_of_In & Heq%String.eqb_eq). rewrite <- Heq.
        by apply list_elem_of_fmap_2.
      - intros (r & -> & Hr)%list_elem_of_fmap. exists r. split.
        + by apply list_elem_of_In.
        + apply String.eqb_refl. }
    specialize (IH (addRecent recent scan) (seen ++ [doc_projectName scan])).
    rewrite <- app_assoc in IH. simpl in IH. apply IH; clear IH; unfold addRecent.
    + destruct (existsb _ recent) eqn:E; simpl; [done|].
      destruct (length recent <? 5)%nat; [|done].
      rewrite fmap_app. simpl. apply NoDup_app. split; [done|].
      split; [|apply NoDup_singleton].
      intros n Hn ->%list_elem_of_singleton.
      apply Hex in Hn. congruence.
    + destruct (existsb _ recent); simpl; [done|].
      destruct (Nat.ltb_spec (length recent) 5); [|done].
      rewrite length_app. simpl. lia.
    + intros n Hn. apply elem_of_app.
      destruct (existsb _ recent); simpl in Hn; [left; by apply Hsub|].
      destruct (length recent <? 5)%nat; [|left; by apply Hsub].
      rewrite fmap_app in Hn. apply elem_of_app in Hn as [Hn|Hn]; [left; by apply Hsub|].
      by right.
    + intros Hlt n Hn. apply elem_of_app in Hn as [Hn|Hn%list_elem_of_singleton].
      * destruct (existsb _ recent); simpl in *; [by apply Hall|].
        destruct (Nat.ltb_spec (length recent) 5) as [Hlt5|Hge5].
        -- rewrite fmap_app. apply elem_of_app. left. by apply Hall.
        -- lia.
      * subst n. destruct (existsb _ recent) eqn:E; simpl in *; [by apply Hex|].
        destruct (Nat.ltb_spec (length recent) 5) as [Hlt5|Hge5].
        -- rewrite fmap_app. apply elem_of_app. right. by apply list_elem_of_singleton.
        -- lia.
Qed.

End Stats.

(** X12: the statistics of a user are those of the user's own scan
    records: the scan count is their number, the dependency total is the
    sum of their totals, the project count is the number of their
    distinct project names, and the records of other users change
    nothing in the answer. *)
Theorem user_stats_count_own_scans (db : Database) (thirtyDaysAgo : nat)
    (user : option string) (userId : string) (s : UserStats.Stats) :
  truthy user = Some userId →
  UserStats.stats (UserStats.getUserStats db thirtyDaysAgo user) = Some s →
  UserStats.scanCount s = length (UserStats.scansOf userId (scanresults db))
  ∧ UserStats.totalDependencies s
    = sum_list_with (fun scan => summary_total (doc_summary scan))
        (UserStats.scansOf userId (scanresults db))
  ∧ UserStats.projectsScanned s
    = UserStats.distinct (doc_projectName <$> UserStats.scansOf userId (scanresults db))
  ∧ UserStats.getUserStats (onlyUser userId db) thirtyDaysAgo user
    = UserStats.getUserStats db thirtyDaysAgo user.
Proof.
  intros Huser. unfold UserStats.getUserStats, UserStats.stats. rewrite Huser.
  unfold onlyUser. cbn [available scanresults]. rewrite scansOf_idem.
  destruct (available db); simpl; [|done]. intros [= <-]. simpl.
  pose proof (newestFirst_perm (UserStats.scansOf userId (scanresults db))) as Hperm.
  repeat split.
  - by rewrite Hperm.
  - rewrite foldl_total. simpl. by rewrite Hperm.
  - apply distinct_perm. by rewrite Hperm.
Qed.

Lemma user_stats_count_own_scans_witness :
  UserStats.scanCount (statsOf "u1") = 2%nat
  ∧ UserStats.totalDependencies (statsOf "u1") = 7%nat
  ∧ UserStats.projectsScanned (statsOf "u1") = 1%nat.
Proof.
  destruct (user_stats_count_own_scans statsDatabase 50 (Some "u1") "u1" (statsOf "u1"))
    as (H1 & H2 & H3 & _).
  - reflexivity.
  - reflexivity.
  - rewrite H1, H2, H3. repeat split; vm_compute; reflexivity.
Defined.

(** X13: in the statistics of a user the active projects are at most the
    projects scanned, which are at most the scans; the recent projects
    are five when the user has five projects or more and all of the
    user's projects otherwise, each listed once. *)
Theorem user_stats_bounds (db : Database) (thirtyDaysAgo : nat) (user : option string)
    (s : UserStats.Stats) :
  UserStats.stats (UserStats.getUserStats db thirtyDaysAgo user) = Some s →
  (UserStats.activeProjects s ≤ UserStats.projectsScanned s)%nat
  ∧ (UserStats.projectsScanned s ≤ UserStats.scanCount s)%nat
  ∧ length (UserStats.recentProjects s) = Nat.min 5 (UserStats.projectsScanned s)
  ∧ NoDup (UserStats.name <$> UserStats.recentProjects s).
Proof.
  unfold UserStats.getUserStats, UserStats.stats.
  destruct (truthy user) as [userId|]; [|done].
  destruct (available db); cbn [negb snd]; [|done]. intros [= <-].
  cbn [UserStats.activeProjects UserStats.projectsScanned UserStats.scanCount
       UserStats.recentProjects].
  set (scans := UserStats.newestFirst (UserStats.scansOf userId (scanresults db))).
  split; [|split].
  - apply distinct_mono. intros x (scan & -> & Hscan)%list_elem_of_fmap.
    apply list_elem_of_fmap_2. apply list_elem_of_In in Hscan.
    apply List.filter_In in Hscan as [Hscan _]. by apply list_elem_of_In.
  - rewrite <- (length_fmap doc_projectName scans). apply distinct_le_length.
  - destruct (addRecent_invariant scans [] []) as (Hnodup & Hlen & Hsub & Hall);
      [apply NoDup_nil_2|simpl; lia|by intros n Hn%elem_of_nil|done|].
    simpl in Hsub, Hall. split; [|done].
    set (recent := foldl UserStats.addRecent [] scans) in *.
    rewrite <- (length_fmap UserStats.name recent), <- (distinct_NoDup _ Hnodup).
    pose proof (distinct_mono _ _ Hsub) as Hle.
    rewrite (distinct_NoDup _ Hnodup), length_fmap in *.
    destruct (decide (length recent < 5)%nat) as [Hlt|Hge].
    + pose proof (distinct_mono _ _ (Hall Hlt)) as Hge.
      rewrite (distinct_NoDup _ Hnodup), length_fmap in Hge. lia.
    + lia.
Qed.

Lemma user_stats_bounds_witness :
  length (UserStats.recentProjects (statsOf "u1")) = 1%nat
  ∧ (UserStats.activeProjects (statsOf "u1") ≤ 1)%nat.
Proof.
  destruct (user_stats_bounds statsDatabase 50 (Some "u1") (statsOf "u1"))
    as (H1 & _ & H3 & _).
  - reflexivity.
  - split; [rewrite H3; vm_compute; reflexivity|].
    etransitivity; [exact H1|]. vm_compute. lia.
Defined.

(** ** Scans and statistics together *)

Section ScanThenStats.

Import UserStats.

Lemma getUserStats_counts db thirtyDaysAgo userId :
  JsString.nonempty userId = true → available db = true →
  ∃ s, stats (getUserStats db thirtyDaysAgo (Some userId)) = Some s
       ∧ scanCount s = length (scansOf userId (scanresults db))
       ∧ totalDependencies s
         = sum_list_with (fun scan => summary_total (doc_summary scan))
             (scansOf userId (scanresults db)).
Proof.
  intros Huser Hdb. unfold getUserStats, stats, truthy. rewrite Huser, Hdb.
  cbn [negb snd]. eexists. split; [reflexivity|].
  cbn [scanCount totalDependencies].
  pose proof (newestFirst_perm (scansOf userId (scanresults db))) as Hperm.
  split; [by rewrite Hperm|]. rewrite foldl_total. simpl. by rewrite Hperm.
Qed.

Lemma truthy_nonempty user userId : truthy user = Some userId → JsString.nonempty userId = true.
Proof.
  unfold truthy. destruct user as [u|]; [|done].
  destruct (JsString.nonempty u) eqn:E; [|done]. by intros [= <-].
Qed.


End ScanThenStats.

(** X14: a scan that is saved shows in the statistics of the user who
    sent it, and in no one else's: the scan count of that user grows by
    one and the dependency total by the total of the scan, and the
    statistics of every other user are what they were. *)
Theorem saved_scan_counts_in_stats (env : Env) (now thirtyDaysAgo : nat) (db : Database)
    (req : ScanRequest) (packageJson : PackageJson) (userId : string) :
  body_packageJson req = Some packageJson →
  truthy (user_id req) = Some userId →
  saves db req = true →
  (∃ before after,
     UserStats.stats (UserStats.getUserStats db thirtyDaysAgo (Some userId)) = Some before
     ∧ UserStats.stats
         (UserStats.getUserStats (postPackageJson env now db req).2 thirtyDaysAgo
            (Some userId)) = Some after
     ∧ UserStats.scanCount after = S (UserStats.scanCount before)
     ∧ UserStats.totalDependencies after
       = (UserStats.totalDependencies before + length (allDependencies packageJson))%nat)
  ∧ (∀ other, other ≠ userId →
       UserStats.getUserStats (postPackageJson env now db req).2 thirtyDaysAgo (Some other)
       = UserStats.getUserStats db thirtyDaysAgo (Some other)).
Proof.
  intros Hpj Huser Hsaves.
  destruct (postPackageJson_saved_doc env now db req _ _ Hpj Huser Hsaves)
    as (doc & -> & Hdoc & _ & _ & _ & Htotal).
  pose proof (truthy_nonempty _ _ Huser) as Hnonempty.
  assert (available db = true) as Hdb.
  { unfold saves in Hsaves. by destruct (available db). }
  split.
  - destruct (getUserStats_counts db thirtyDaysAgo userId Hnonempty Hdb)
      as (before & Hbefore & Hc & Ht).
    destruct (getUserStats_counts
                (mkDatabase (scanresults db ++ [doc]) (projects db) (S (next_id db))
                   (available db)) thirtyDaysAgo userId Hnonempty Hdb)
      as (after & Hafter & Hc' & Ht').
    exists before, after. split; [done|]. split; [done|].
    cbn [scanresults] in Hc', Ht'. unfold UserStats.scansOf in *.
    rewrite List.filter_app in Hc', Ht'. simpl in Hc', Ht'.
    rewrite Hdoc, String.eqb_refl in Hc', Ht'.
    rewrite Hc', Ht', Hc, Ht, length_app, sum_list_with_app. simpl. lia.
  - intros other Hne. unfold UserStats.getUserStats. cbn [available scanresults].
    destruct (truthy (Some other)) as [w|] eqn:E; [|done].
    assert (w = other) as ->.
    { unfold truthy in E. destruct (JsString.nonempty other); by inversion E. }
    unfold UserStats.scansOf. rewrite List.filter_app. simpl.
    rewrite Hdoc. destruct (String.eqb_spec userId other) as [->|_]; [done|].
    by rewrite app_nil_r.
Qed.

Lemma saved_scan_counts_in_stats_witness :
  UserStats.getUserStats
    (postPackageJson lodashEnv 7 emptyDatabase vulnerableRequest).2 0 (Some "u2")
  = UserStats.getUserStats emptyDatabase 0 (Some "u2").
Proof.
  destruct (saved_scan_counts_in_stats lodashEnv 7 0 emptyDatabase vulnerableRequest
              vulnerableManifest "u1") as [_ Hother].
  - reflexivity.
  - reflexivity.
  - reflexivity.
  - apply Hother. discriminate.
Defined.



(** ** The cache: the Map *)

Section CacheMap.

Context {V : Type}.
Implicit Types (m : list (string * Cache.Item V)) (item : Cache.Item V) (key : string).

Import Cache.

Lemma map_get_None key m : map_get key m = None ↔ key ∉ m.*1.
Proof.
  induction m as [|[k i] m IH]; simpl.
  - split; [intros _; apply not_elem_of_nil|done].
  - destruct (String.eqb_spec k key) as [->|Hne].
    + split; [done|]. intros H. exfalso. apply H, list_elem_of_here.
    + rewrite IH, not_elem_of_cons. split; [by intros ?; split; [congruence|]|by intros [_ ?]].
Qed.

Lemma map_get_Some_elem key item m : map_get key m = Some item → (key, item) ∈ m.
Proof.
  induction m as [|[k i] m IH]; simpl; [done|].
  destruct (String.eqb_spec k key) as [->|Hne].
  - intros [= ->]. apply list_elem_of_here.
  - intros H. apply list_elem_of_further. by apply IH.
Qed.

Lemma map_get_elem key item m : NoDup m.*1 → (key, item) ∈ m → map_get key m = Some item.
Proof.
  induction m as [|[k i] m IH]; simpl; [by intros _ ?%elem_of_nil|].
  rewrite ?fmap_cons. intros [Hk Hnodup]%NoDup_cons [Heq|Hin]%elem_of_cons.
  - injection Heq as -> ->. by rewrite String.eqb_refl.
  - destruct (String.eqb_spec k key) as [->|Hne]; [|by apply IH].
    exfalso. apply Hk. by apply (list_elem_of_fmap_2 fst) in Hin.
Qed.

Lemma map_delete_absent key m : map_get key m = None → map_delete key m = m.
Proof.
  induction m as [|[k i] m IH]; simpl; [done|].
  destruct (String.eqb k key); [done|]. intros H. by rewrite IH.
Qed.

Lemma map_delete_length key item m :
  map_get key m = Some item → S (length (map_delete key m)) = length m.
Proof.
  induction m as [|[k i] m IH]; simpl; [done|].
  destruct (String.eqb k key); [done|]. intros H. simpl. by rewrite IH.
Qed.

Lemma map_delete_bytes key item m :
  map_get key m = Some item → bytes (map_delete key m) + Z.of_nat (item_size item) = bytes m.
Proof.
  unfold bytes. induction m as [|[k i] m IH]; simpl; [done|].
  destruct (String.eqb k key).
  - intros [= ->]. lia.
  - intros H. simpl. specialize (IH H). lia.
Qed.

Lemma map_delete_elem key m e : e ∈ map_delete key m → e ∈ m.
Proof.
  induction m as [|[k i] m IH]; simpl; [done|].
  destruct (String.eqb k key).
  - apply list_elem_of_further.
  - intros [->|Hin]%elem_of_cons; [apply list_elem_of_here|].
    apply list_elem_of_further. by apply IH.
Qed.

Lemma map_delete_elem_ne key m e : e ∈ m → e.1 ≠ key → e ∈ map_delete key m.
Proof.
  induction m as [|[k i] m IH]; simpl; [done|].
  intros [->|Hin]%elem_of_cons Hne.
  - simpl in Hne. destruct (String.eqb_spec k key); [done|apply list_elem_of_here].
  - destruct (String.eqb k key); [done|]. apply list_elem_of_further. by apply IH.
Qed.

Lemma map_delete_keys key m x : x ∈ (map_delete key m).*1 → x ∈ m.*1.
Proof.
  intros (e & -> & He)%list_elem_of_fmap. apply list_elem_of_fmap_2.
  by eapply map_delete_elem.
Qed.

Lemma map_delete_NoDup key m : NoDup m.*1 → NoDup (map_delete key m).*1.
Proof.
  induction m as [|[k i] m IH]; simpl; [done|].
  rewrite ?fmap_cons. intros [Hk Hnodup]%NoDup_cons.
  destruct (String.eqb k key); [done|].
  rewrite ?fmap_cons. apply NoDup_cons. split; [|by apply IH].
  intros H. apply Hk. by eapply map_delete_keys.
Qed.

Lemma map_delete_gone key m : NoDup m.*1 → key ∉ (map_delete key m).*1.
Proof.
  induction m as [|[k i] m IH]; simpl; [intros _; apply not_elem_of_nil|].
  rewrite ?fmap_cons. intros [Hk Hnodup]%NoDup_cons.
  destruct (String.eqb_spec k key) as [->|Hne]; [done|].
  rewrite ?fmap_cons. apply not_elem_of_cons. split; [done|by apply IH].
Qed.

Lemma map_get_delete_ne key key' m :
  key' ≠ key → map_get key' (map_delete key m) = map_get key' m.
Proof.
  intros Hne. induction m as [|[k i] m IH]; simpl; [done|].
  destruct (String.eqb_spec k key) as [->|Hk]; simpl.
  - destruct (String.eqb_spec key key'); [by subst|done].
  - by rewrite IH.
Qed.

Lemma map_get_set_eq key item m : map_get key (map_set key item m) = Some item.
Proof.
  induction m as [|[k i] m IH]; simpl.
  - by rewrite String.eqb_refl.
  - destruct (String.eqb_spec k key) as [->|Hne]; simpl.
    + by rewrite String.eqb_refl.
    + destruct (String.eqb_spec k key); [done|apply IH].
Qed.

Lemma map_get_set_ne key key' item m :
  key' ≠ key → map_get key' (map_set key item m) = map_get key' m.
Proof.
  intros Hne. induction m as [|[k i] m IH]; simpl.
  - destruct (String.eqb_spec key key'); [by subst|done].
  - destruct (String.eqb_spec k key) as [->|Hk]; simpl.
    + destruct (String.eqb_spec key key'); [by subst|done].
    + by rewrite IH.
Qed.

Lemma map_set_keys key item m :
  (map_set key item m).*1
  = match map_get key m with
    | Some _ => m.*1
    | None => m.*1 ++ [key]
    end.
Proof.
  induction m as [|[k i] m IH]; [done|]. cbn [map_set map_get].
  destruct (String.eqb_spec k key) as [->|Hne]; [done|].
  rewrite !fmap_cons, IH. by destruct (map_get key m).
Qed.

Lemma map_set_NoDup key item m : NoDup m.*1 → NoDup (map_set key item m).*1.
Proof.
  intros Hnodup. rewrite map_set_keys.
  destruct (map_get key m) eqn:E; [done|].
  apply map_get_None in E. apply NoDup_app. split; [done|].
  split; [|apply NoDup_singleton]. by intros x Hx ->%list_elem_of_singleton.
Qed.

Lemma map_set_fresh key item m : map_get key m = None → map_set key item m = m ++ [(key, item)].
Proof.
  induction m as [|[k i] m IH]; simpl; [done|].
  destruct (String.eqb k key); [done|]. intros H. by rewrite IH.
Qed.

Lemma map_set_present key item old m :
  map_get key m = Some old →
  ∃ m1 m2, m = m1 ++ (key, old) :: m2 ∧ map_set key item m = m1 ++ (key, item) :: m2
           ∧ key ∉ m1.*1.
Proof.
  induction m as [|[k i] m IH]; simpl; [done|].
  destruct (String.eqb_spec k key) as [->|Hne].
  - intros [= ->]. exists [], m. repeat split. apply not_elem_of_nil.
  - intros H. destruct (IH H) as (m1 & m2 & -> & -> & Hnot).
    exists ((k, i) :: m1), m2. repeat split.
    rewrite ?fmap_cons. apply not_elem_of_cons. split; [done|done].
Qed.

Lemma map_set_length key item m :
  length (map_set key item m)
  = match map_get key m with
    | Some _ => length m
    | None => S (length m)
    end.
Proof.
  induction m as [|[k i] m IH]; [done|]. cbn [map_set map_get].
  destruct (String.eqb k key); [done|]. cbn [length]. rewrite IH.
  by destruct (map_get key m).
Qed.

Lemma map_set_bytes key item m :
  bytes (map_set key item m)
  = bytes m - match map_get key m with
              | Some old => Z.of_nat (item_size old)
              | None => 0
              end + Z.of_nat (item_size item).
Proof.
  unfold bytes. induction m as [|[k i] m IH]; simpl; [lia|].
  destruct (String.eqb k key); simpl; [lia|].
  destruct (map_get key m); lia.
Qed.

Lemma bytes_nonneg m : 0 ≤ bytes m.
Proof. unfold bytes. lia. Qed.

Lemma bytes_app m1 m2 : bytes (m1 ++ m2) = bytes m1 + bytes m2.
Proof. unfold bytes. rewrite sum_list_with_app. lia. Qed.

End CacheMap.

(** ** The cache: eviction *)

Section CacheEviction.

Context {V : Type}.
Implicit Types (m cache evicted : list (string * Cache.Item V)) (c : Cache.State V).

Import Cache.

Lemma remove_all_spec evicted : ∀ cache,
  NoDup cache.*1 → NoDup evicted.*1 → (∀ e, e ∈ evicted → e ∈ cache) →
  NoDup (remove_all evicted cache).*1
  ∧ (length (remove_all evicted cache) + length evicted = length cache)%nat
  ∧ bytes (remove_all evicted cache) + bytes evicted = bytes cache
  ∧ (∀ e, e ∈ remove_all evicted cache ↔ e ∈ cache ∧ e.1 ∉ evicted.*1).
Proof.
  induction evicted as [|[k i] evicted IH]; intros cache Hcache Hev Hsub.
  - simpl. split; [done|]. split; [lia|]. split; [unfold bytes; simpl; lia|].
    intros e. split; [|by intros [? _]]. intros He. split; [done|apply not_elem_of_nil].
  - rewrite fmap_cons in Hev. apply NoDup_cons in Hev as [Hk Hev].
    assert (map_get k cache = Some i) as Hget.
    { apply map_get_elem; [done|]. apply Hsub, list_elem_of_here. }
    destruct (IH (map_delete k cache)) as (H1 & H2 & H3 & H4).
    + by apply map_delete_NoDup.
    + done.
    + intros e He. apply map_delete_elem_ne; [by apply Hsub, list_elem_of_further|].
      intros Heq. apply Hk. simpl. rewrite <- Heq. by apply (list_elem_of_fmap_2 fst).
    + cbn [remove_all foldl fst]. fold (remove_all evicted (map_delete k cache)).
      split; [done|]. split; [|split].
      * pose proof (map_delete_length _ _ _ Hget). cbn [length]. lia.
      * pose proof (map_delete_bytes _ _ _ Hget) as Hb.
        change ((k, i) :: evicted) with ([(k, i)] ++ evicted). rewrite bytes_app.
        unfold bytes at 2. simpl. lia.
      * intros e. rewrite H4, fmap_cons, not_elem_of_cons. simpl. split.
        -- intros [He Hnot]. split; [by eapply map_delete_elem|]. split; [|done].
           intros Heq. apply (map_delete_gone k cache Hcache).
           subst k. by apply (list_elem_of_fmap_2 fst).
        -- intros [He [Hne Hnot]]. split; [by apply map_delete_elem_ne|done].
Qed.

Lemma insertByAccess_perm e m : insertByAccess e m ≡ₚ e :: m.
Proof.
  induction m as [|x m IH]; simpl; [done|].
  destruct (lastAccessed e.2 <=? lastAccessed x.2); [done|].
  rewrite IH. apply perm_swap.
Qed.

Lemma sortByAccess_perm m : sortByAccess m ≡ₚ m.
Proof.
  induction m as [|e m IH]; simpl; [done|]. by rewrite insertByAccess_perm, IH.
Qed.

Lemma insertByAccess_sorted e m : oldest_first m → oldest_first (insertByAccess e m).
Proof.
  induction m as [|x m IH]; simpl; [done|]. intros [Hx Hm].
  destruct (Z.leb_spec (lastAccessed e.2) (lastAccessed x.2)) as [Hle|Hgt]; simpl.
  - split; [|done]. constructor; [done|].
    eapply Forall_impl; [exact Hx|]. simpl. intros; lia.
  - split; [|by apply IH].
    rewrite insertByAccess_perm. constructor; [lia|done].
Qed.

Lemma sortByAccess_sorted m : oldest_first (sortByAccess m).
Proof. induction m as [|e m IH]; simpl; [done|]. by apply insertByAccess_sorted. Qed.

Lemma bytes_cons (e : string * Item V) m : bytes (e :: m) = Z.of_nat (item_size e.2) + bytes m.
Proof. unfold bytes. simpl. lia. Qed.

(** The loop evicts a prefix of the sorted entries; unless it runs out
    of entries it stops on its test, and the test failed before every
    entry it evicted. *)
Lemma evictLoop_prefix total maxBytes maxCount sorted : ∀ evictedSize evictedCount cache,
  ∃ evicted rest,
    sorted = evicted ++ rest
    ∧ evictLoop total maxBytes maxCount sorted (evictedSize, evictedCount, cache)
      = (evictedSize + bytes evicted, (evictedCount + length evicted)%nat,
         remove_all evicted cache)
    ∧ (rest = []
       ∨ (total - (evictedSize + bytes evicted) ≤ maxBytes
          ∧ Z.of_nat (length (remove_all evicted cache))
            - Z.of_nat (evictedCount + length evicted) ≤ maxCount))
    ∧ (∀ before e after, evicted = before ++ e :: after →
       ¬ (total - (evictedSize + bytes before) ≤ maxBytes
          ∧ Z.of_nat (length (remove_all before cache))
            - Z.of_nat (evictedCount + length before) ≤ maxCount)).
Proof.
  induction sorted as [|[k i] sorted IH]; intros eS eC cache.
  - exists [], []. unfold bytes. simpl. split; [done|]. split; [|split; [by left|]].
    + by rewrite Z.add_0_r, Nat.add_0_r.
    + by intros [|??] ?? ?.
  - cbn [evictLoop].
    destruct ((total - eS <=? maxBytes)
              && (Z.of_nat (length cache) - Z.of_nat eC <=? maxCount)) eqn:E.
    + exists [], ((k, i) :: sorted). unfold bytes. simpl.
      apply andb_prop in E as [E1%Z.leb_le E2%Z.leb_le].
      split; [done|]. rewrite Z.add_0_r, Nat.add_0_r. split; [done|].
      split; [by right|]. by intros [|??] ?? ?.
    + destruct (IH (eS + Z.of_nat (item_size i)) (S eC) (map_delete k cache))
        as (evicted & rest & -> & Heq & Hstop & Hbefore).
      exists ((k, i) :: evicted), rest. split; [done|].
      rewrite bytes_cons. cbn [length snd].
      change (remove_all ((k, i) :: evicted) cache)
        with (remove_all evicted (map_delete k cache)).
      rewrite Heq.
      replace (eC + S (length evicted))%nat with (S eC + length evicted)%nat by lia.
      rewrite Z.add_assoc. split; [done|]. split; [done|].
      intros [|x before] e after Hsplit.
      * unfold bytes. simpl. rewrite Z.add_0_r, Nat.add_0_r.
        apply andb_false_iff in E as [E%Z.leb_gt|E%Z.leb_gt]; lia.
      * injection Hsplit as <- Hsplit. rewrite bytes_cons. cbn [length snd].
        change (remove_all ((k, i) :: before) cache)
          with (remove_all before (map_delete k cache)).
        replace (eC + S (length before))%nat with (S eC + length before)%nat by lia.
        rewrite Z.add_assoc. by eapply Hbefore.
Qed.

Lemma prefix_parts m evicted rest :
  NoDup m.*1 → evicted ++ rest ≡ₚ m →
  NoDup evicted.*1 ∧ (∀ e, e ∈ evicted → e ∈ m).
Proof.
  intros Hnodup Hperm. split.
  - assert (NoDup (evicted ++ rest).*1) as H by by rewrite Hperm.
    rewrite fmap_app in H. by apply NoDup_app in H as [? _].
  - intros e He. rewrite <- Hperm. apply elem_of_app. by left.
Qed.

(** What performLRUEviction leaves when it has anything to do. *)
Lemma performLRUEviction_spec c :
  consistent c →
  (totalSize (stats c) ≤ maxSizeBytes c
   ∧ Z.of_nat (length (entries c)) ≤ maxItems c
   ∧ performLRUEviction c = c)
  ∨ ∃ evicted rest,
      sortByAccess (entries c) = evicted ++ rest
      ∧ entries (performLRUEviction c) = remove_all evicted (entries c)
      ∧ stats (performLRUEviction c)
        = mkStats (Z.of_nat (length (remove_all evicted (entries c))))
            (bytes (remove_all evicted (entries c)))
            (hitCount (stats c)) (missCount (stats c))
            (evictionCount (stats c) + length evicted)
      ∧ maxItems (performLRUEviction c) = maxItems c
      ∧ maxMemoryMB (performLRUEviction c) = maxMemoryMB c
      ∧ (rest = []
         ∨ (bytes (remove_all evicted (entries c)) ≤ maxSizeBytes c
            ∧ Z.of_nat (length (entries c)) - 2 * Z.of_nat (length evicted) ≤ maxItems c))
      ∧ (∀ before e after, evicted = before ++ e :: after →
         ¬ (bytes (entries c) - bytes before ≤ maxSizeBytes c
            ∧ Z.of_nat (length (remove_all before (entries c)))
              - Z.of_nat (length before) ≤ maxItems c)).
Proof.
  intros (Hnodup & Hitems & Hsize). unfold performLRUEviction.
  destruct ((totalSize (stats c) <=? maxSizeBytes c)
            && (Z.of_nat (length (entries c)) <=? maxItems c)) eqn:E.
  { apply andb_prop in E as [E1%Z.leb_le E2%Z.leb_le]. by left. }
  right.
  destruct (evictLoop_prefix (totalSize (stats c)) (maxSizeBytes c) (maxItems c)
              (sortByAccess (entries c)) 0 0%nat (entries c))
    as (evicted & rest & Hsorted & -> & Hstop & Hbefore).
  exists evicted, rest. split; [done|]. cbn [entries stats maxItems maxMemoryMB].
  destruct (prefix_parts (entries c) evicted rest Hnodup) as [Hev Hsub].
  { rewrite <- Hsorted. apply sortByAccess_perm. }
  destruct (remove_all_spec evicted (entries c) Hnodup Hev Hsub) as (_ & Hlen & Hbytes & _).
  split; [done|]. split; [|split; [done|split; [done|split]]].
  - f_equal. rewrite Hsize. lia.
  - destruct Hstop as [->|[H1 H2]]; [by left|right]. split; [rewrite Hsize in H1; lia|].
    simpl in H2. lia.
  - intros before e after Hsplit Htest. apply (Hbefore before e after Hsplit).
    rewrite Hsize. simpl. by rewrite Z.add_0_l.
Qed.

Lemma performLRUEviction_consistent c : consistent c → consistent (performLRUEviction c).
Proof.
  intros Hc. destruct (performLRUEviction_spec c Hc)
    as [(_ & _ & ->)|(evicted & rest & Hsorted & Hentries & Hstats & _)]; [done|].
  destruct Hc as (Hnodup & _ & _).
  destruct (prefix_parts (entries c) evicted rest Hnodup) as [Hev Hsub].
  { rewrite <- Hsorted. apply sortByAccess_perm. }
  destruct (remove_all_spec evicted (entries c) Hnodup Hev Hsub) as (Hnd & _).
  unfold consistent. rewrite Hentries, Hstats. done.
Qed.

(** Eviction from a Map that holds at most one entry too many leaves it
    within both limits. *)
Lemma performLRUEviction_within c :
  consistent c → 0 ≤ maxItems c → 0 ≤ maxSizeBytes c →
  Z.of_nat (length (entries c)) ≤ maxItems c + 1 →
  within (performLRUEviction c).
Proof.
  intros Hc Hitems Hbytes Hlen.
  pose proof Hc as (Hnodup & Hti & Hts).
  destruct (performLRUEviction_spec c Hc)
    as [(H1 & H2 & ->)
       |(evicted & rest & Hsorted & Hentries & Hstats & Hmi & Hmm & Hstop & _)].
  - split; [done|]. by rewrite <- Hts.
  - unfold within. rewrite Hentries, Hmi. unfold maxSizeBytes in *. rewrite Hmm.
    destruct (prefix_parts (entries c) evicted rest Hnodup) as [Hev Hsub].
    { rewrite <- Hsorted. apply sortByAccess_perm. }
    destruct (remove_all_spec evicted (entries c) Hnodup Hev Hsub) as (_ & Hl & Hb & _).
    pose proof (f_equal length Hsorted) as Hls.
    rewrite (Permutation_length (sortByAccess_perm (entries c))), length_app in Hls.
    pose proof (bytes_nonneg evicted). pose proof (bytes_nonneg (remove_all evicted (entries c))).
    destruct Hstop as [->|[H1 H2]].
    + simpl in Hls.
      assert (length (remove_all evicted (entries c)) = 0%nat) as Hzero by lia.
      rewrite Hzero. split; [simpl; lia|].
      destruct (remove_all evicted (entries c)); [|done]. unfold bytes. simpl. lia.
    + split; [|done]. destruct evicted as [|e evicted]; simpl in *; lia.
Qed.

End CacheEviction.

(** ** The cache: the operations *)

Section CacheOperations.

Context {V : Type} (calculateSize : V → option nat).
Implicit Types (m : list (string * Cache.Item V)) (c : Cache.State V) (key : string).

Import Cache.

Lemma performLRUEviction_limits c :
  maxItems (performLRUEviction c) = maxItems c
  ∧ maxMemoryMB (performLRUEviction c) = maxMemoryMB c.
Proof.
  unfold performLRUEviction. destruct (_ && _); [done|].
  by destruct (evictLoop _ _ _ _ _) as [[? ?] ?].
Qed.

Lemma get_consistent now key c : consistent c → consistent (get now key c).2.
Proof.
  intros (Hnd & Hti & Hts). unfold get.
  destruct (map_get key (entries c)) as [item|] eqn:E; [destruct (expired item now)|];
    unfold consistent; cbn [snd withStats entries stats totalItems totalSize].
  - split; [by apply map_delete_NoDup|].
    pose proof (map_delete_length _ _ _ E). pose proof (map_delete_bytes _ _ _ E).
    split; lia.
  - split; [by apply map_set_NoDup|].
    rewrite map_set_length, map_set_bytes, E. cbn [item_size]. split; [done|lia].
  - done.
Qed.

Lemma get_within now key c : within c → within (get now key c).2.
Proof.
  intros [Hlen Hbytes]. unfold get.
  destruct (map_get key (entries c)) as [item|] eqn:E; [destruct (expired item now)|];
    unfold within, maxSizeBytes in *; cbn [snd withStats entries maxItems maxMemoryMB].
  - pose proof (map_delete_length _ _ _ E). pose proof (map_delete_bytes _ _ _ E).
    split; lia.
  - rewrite map_set_length, map_set_bytes, E. cbn [item_size]. split; [done|lia].
  - done.
Qed.

Lemma del_consistent key c : consistent c → consistent (del key c).2.
Proof.
  intros (Hnd & Hti & Hts). unfold del.
  destruct (map_get key (entries c)) as [item|] eqn:E;
    unfold consistent; cbn [snd withStats entries stats totalItems totalSize].
  - split; [by apply map_delete_NoDup|].
    pose proof (map_delete_length _ _ _ E). pose proof (map_delete_bytes _ _ _ E).
    split; lia.
  - by rewrite map_delete_absent.
Qed.

Lemma del_within key c : within c → within (del key c).2.
Proof.
  intros [Hlen Hbytes]. unfold del.
  destruct (map_get key (entries c)) as [item|] eqn:E;
    unfold within, maxSizeBytes in *; cbn [snd withStats entries maxItems maxMemoryMB].
  - pose proof (map_delete_length _ _ _ E). pose proof (map_delete_bytes _ _ _ E).
    split; lia.
  - by rewrite map_delete_absent.
Qed.

Lemma exists_consistent now key c : consistent c → consistent (exists_ now key c).2.
Proof.
  intros (Hnd & Hti & Hts). unfold exists_.
  destruct (map_get key (entries c)) as [item|] eqn:E; [destruct (expired item now)|];
    unfold consistent; cbn [snd withStats entries stats totalItems totalSize]; [|done..].
  split; [by apply map_delete_NoDup|].
  pose proof (map_delete_length _ _ _ E). pose proof (map_delete_bytes _ _ _ E).
  split; lia.
Qed.

Lemma exists_within now key c : within c → within (exists_ now key c).2.
Proof.
  intros [Hlen Hbytes]. unfold exists_.
  destruct (map_get key (entries c)) as [item|] eqn:E; [destruct (expired item now)|];
    unfold within, maxSizeBytes in *; cbn [snd withStats entries maxItems maxMemoryMB];
    [|done..].
  pose proof (map_delete_length _ _ _ E). pose proof (map_delete_bytes _ _ _ E).
  split; lia.
Qed.

(** The state of [set] between the insertion and the eviction. *)
Lemma set_inserted now key v ttlSeconds c size :
  calculateSize v = Some size → consistent c →
  ∃ c',
    entries c' = map_set key (mkItem v (expiry now ttlSeconds) 1 now size) (entries c)
    ∧ maxItems c' = maxItems c ∧ maxMemoryMB c' = maxMemoryMB c
    ∧ consistent c'
    ∧ (set calculateSize now key v ttlSeconds c).2
      = (if (maxSizeBytes c' <? bytes (entries c'))
            || (maxItems c' <? Z.of_nat (length (entries c')))
         then performLRUEviction c' else c').
Proof.
  intros Hsize (Hnd & Hti & Hts). unfold set. rewrite Hsize.
  set (item := mkItem v (expiry now ttlSeconds) 1 now size).
  destruct (map_get key (entries c)) as [old|] eqn:E.
  - exists (withStats c
              (mkStats (totalItems (stats c))
                 (totalSize (stats c) - Z.of_nat (item_size old) + Z.of_nat size)
                 (hitCount (stats c)) (missCount (stats c)) (evictionCount (stats c)))
              (map_set key item (entries c))).
    assert (totalSize (stats c) - Z.of_nat (item_size old) + Z.of_nat size
            = bytes (map_set key item (entries c))) as Hb.
    { rewrite map_set_bytes, E. subst item. cbn [item_size]. lia. }
    split; [done|]. split; [done|]. split; [done|]. split.
    + unfold consistent. cbn [withStats entries stats totalItems totalSize].
      split; [by apply map_set_NoDup|]. rewrite map_set_length, E. done.
    + cbn [withStats entries stats totalSize maxItems maxMemoryMB]. unfold maxSizeBytes.
      cbn [withStats maxMemoryMB]. rewrite <- Hb. by destruct (_ || _).
  - exists (withStats c
              (mkStats (totalItems (stats c) + 1) (totalSize (stats c) + Z.of_nat size)
                 (hitCount (stats c)) (missCount (stats c)) (evictionCount (stats c)))
              (map_set key item (entries c))).
    assert (totalSize (stats c) + Z.of_nat size
            = bytes (map_set key item (entries c))) as Hb.
    { rewrite map_set_bytes, E. subst item. cbn [item_size]. lia. }
    split; [done|]. split; [done|]. split; [done|]. split.
    + unfold consistent. cbn [withStats entries stats totalItems totalSize].
      split; [by apply map_set_NoDup|]. rewrite map_set_length, E. split; [lia|done].
    + cbn [withStats entries stats totalSize maxItems maxMemoryMB]. unfold maxSizeBytes.
      cbn [withStats maxMemoryMB]. rewrite <- Hb. by destruct (_ || _).
Qed.

Lemma set_consistent now key v ttlSeconds c :
  consistent c → consistent (set calculateSize now key v ttlSeconds c).2.
Proof.
  intros Hc. destruct (calculateSize v) as [size|] eqn:Hsize.
  - destruct (set_inserted now key v ttlSeconds c size Hsize Hc)
      as (c' & _ & _ & _ & Hc' & ->).
    destruct (_ || _); [by apply performLRUEviction_consistent|done].
  - unfold set. by rewrite Hsize.
Qed.

Lemma set_within now key v ttlSeconds c :
  consistent c → within c → within (set calculateSize now key v ttlSeconds c).2.
Proof.
  intros Hc [Hlen Hbytes]. destruct (calculateSize v) as [size|] eqn:Hsize.
  - destruct (set_inserted now key v ttlSeconds c size Hsize Hc)
      as (c' & Hentries & Hmi & Hmm & Hc' & ->).
    pose proof (bytes_nonneg (entries c)).
    destruct (_ || _) eqn:Hover.
    + apply performLRUEviction_within; [done|lia|unfold maxSizeBytes in *; rewrite Hmm; lia|].
      rewrite Hentries, Hmi, map_set_length. destruct (map_get key (entries c)); lia.
    + apply orb_false_iff in Hover as [H1%Z.ltb_ge H2%Z.ltb_ge]. by split.
  - unfold set. rewrite Hsize. by split.
Qed.

Lemma set_limits now key v ttlSeconds c :
  maxItems (set calculateSize now key v ttlSeconds c).2 = maxItems c
  ∧ maxMemoryMB (set calculateSize now key v ttlSeconds c).2 = maxMemoryMB c.
Proof.
  unfold set. destruct (calculateSize v) as [size|]; [|done].
  destruct (map_get key (entries c)); cbn beta iota zeta;
    (destruct (_ || _); [|done]); cbn [snd];
    match goal with
    | |- context [performLRUEviction ?x] =>
        by destruct (performLRUEviction_limits x) as [-> ->]
    end.
Qed.

Lemma filter_ext_in {A} (P Q : A → Prop) `{!∀ x, Decision (P x), !∀ x, Decision (Q x)}
    (l : list A) :
  (∀ x, x ∈ l → (P x ↔ Q x)) → filter P l = filter Q l.
Proof.
  induction l as [|a l IH]; [done|]. intros Hext.
  assert (filter P l = filter Q l) as Hl.
  { apply IH. intros x Hx. by apply Hext, list_elem_of_further. }
  pose proof (Hext a (list_elem_of_here a l)) as Ha.
  destruct (decide (P a)) as [HP|HP].
  - rewrite (filter_cons_True P) by done. rewrite (filter_cons_True Q) by tauto.
    by rewrite Hl.
  - rewrite (filter_cons_False P) by done. rewrite (filter_cons_False Q) by tauto.
    done.
Qed.

Lemma filter_all {A} (P : A → Prop) `{!∀ x, Decision (P x)} (l : list A) :
  (∀ x, x ∈ l → P x) → filter P l = l.
Proof.
  induction l as [|a l IH]; [done|]. intros Hall.
  rewrite filter_cons_True by apply Hall, list_elem_of_here.
  rewrite IH; [done|]. intros x Hx. by apply Hall, list_elem_of_further.
Qed.

Lemma map_delete_filter key m :
  NoDup m.*1 → map_delete key m = filter (λ e, e.1 ≠ key) m.
Proof.
  induction m as [|[k i] m IH]; [done|]. rewrite fmap_cons.
  intros [Hk Hnd]%NoDup_cons. cbn [map_delete].
  destruct (String.eqb_spec k key) as [->|Hne].
  - rewrite filter_cons_False by (simpl; intros H; by apply H).
    symmetry. apply filter_all. intros x Hx Heq. apply Hk. simpl. rewrite <- Heq.
    by apply (list_elem_of_fmap_2 fst).
  - rewrite filter_cons_True by done. by rewrite IH.
Qed.

Lemma remove_all_filter evicted : ∀ m,
  NoDup m.*1 → remove_all evicted m = filter (λ e, e.1 ∉ evicted.*1) m.
Proof.
  induction evicted as [|x evicted IH]; intros m Hnd.
  - simpl. symmetry. apply filter_all. intros e _. apply not_elem_of_nil.
  - change (remove_all (x :: evicted) m) with (remove_all evicted (map_delete x.1 m)).
    rewrite IH by by apply map_delete_NoDup.
    rewrite map_delete_filter by done. rewrite list_filter_filter.
    apply list_filter_iff. intros e. rewrite fmap_cons, not_elem_of_cons. tauto.
Qed.

(** The loop of cleanup removes the expired entries and keeps the others
    in their order. *)
Lemma sweep_spec now m :
  NoDup m.*1 →
  sweep now m
  = (bytes (filter (λ e, expired e.2 now = true) m),
     length (filter (λ e, expired e.2 now = true) m),
     filter (λ e, expired e.2 now = false) m).
Proof.
  intros Hnd.
  assert (∀ (l : list (string * Item V)) reclaimedSize cleanedItems cache,
    foldl (λ '(reclaimedSize, cleanedItems, cache) '(key, item),
             if expired item now
             then (reclaimedSize + Z.of_nat (item_size item), S cleanedItems,
                   map_delete key cache)
             else (reclaimedSize, cleanedItems, cache))
          (reclaimedSize, cleanedItems, cache) l
    = (reclaimedSize + bytes (filter (λ e, expired e.2 now = true) l),
       (cleanedItems + length (filter (λ e, expired e.2 now = true) l))%nat,
       remove_all (filter (λ e, expired e.2 now = true) l) cache)) as Hloop.
  { induction l as [|[k i] l IH]; intros rS n cache.
    - unfold bytes. simpl. by rewrite Z.add_0_r, Nat.add_0_r.
    - cbn [foldl]. destruct (expired i now) eqn:E.
      + rewrite IH, filter_cons_True by done. rewrite bytes_cons. cbn [length snd].
        change (remove_all ((k, i) :: ?l) cache) with (remove_all l (map_delete k cache)).
        by rewrite Z.add_assoc, Nat.add_succ_r.
      + rewrite IH, filter_cons_False; [done|]. simpl. by rewrite E. }
  unfold sweep. rewrite Hloop, Z.add_0_l, Nat.add_0_l. f_equal.
  rewrite remove_all_filter by done. apply filter_ext_in. intros e He. split.
  - intros Hout. destruct (expired e.2 now) eqn:E; [|done]. exfalso. apply Hout.
    apply (list_elem_of_fmap_2 fst). by apply list_elem_of_filter.
  - intros E (e' & Heq & [E' He']%list_elem_of_filter)%list_elem_of_fmap.
    assert (e = e') as <-; [|congruence].
    destruct e as [k i], e' as [k' i']. simpl in Heq. subst k'. f_equal.
    pose proof (map_get_elem _ _ _ Hnd He) as H1.
    pose proof (map_get_elem _ _ _ Hnd He') as H2. congruence.
Qed.

Lemma filter_keys_NoDup (P : string * Item V → Prop) `{!∀ x, Decision (P x)} m :
  NoDup m.*1 → NoDup (filter P m).*1.
Proof.
  intros Hnd. eapply sublist_NoDup; [exact Hnd|].
  apply fmap_sublist, sublist_filter.
Qed.

Lemma filter_split_length (f : string * Item V → bool) m :
  (length (filter (λ e, f e = true) m) + length (filter (λ e, f e = false) m))%nat
  = length m.
Proof.
  induction m as [|a m IH]; [done|]. destruct (f a) eqn:E.
  - rewrite filter_cons_True, filter_cons_False by congruence. simpl. lia.
  - rewrite filter_cons_False, filter_cons_True by congruence. simpl. lia.
Qed.

Lemma filter_split_bytes (f : string * Item V → bool) m :
  bytes (filter (λ e, f e = true) m) + bytes (filter (λ e, f e = false) m) = bytes m.
Proof.
  induction m as [|a m IH]; [done|]. rewrite bytes_cons. destruct (f a) eqn:E.
  - rewrite filter_cons_True, filter_cons_False by congruence. rewrite bytes_cons. lia.
  - rewrite filter_cons_False, filter_cons_True by congruence. rewrite bytes_cons. lia.
Qed.

(** The state of [cleanup] between the sweep and the eviction. *)
Lemma cleanup_swept now c :
  consistent c →
  ∃ c',
    entries c' = filter (λ e, expired e.2 now = false) (entries c)
    ∧ maxItems c' = maxItems c ∧ maxMemoryMB c' = maxMemoryMB c
    ∧ evictionCount (stats c')
      = (evictionCount (stats c)
         + length (filter (λ e, expired e.2 now = true) (entries c)))%nat
    ∧ hitCount (stats c') = hitCount (stats c)
    ∧ missCount (stats c') = missCount (stats c)
    ∧ consistent c'
    ∧ cleanup now c = performLRUEviction c'.
Proof.
  intros (Hnd & Hti & Hts). unfold cleanup. rewrite sweep_spec by done.
  set (gone := filter (λ e, expired e.2 now = true) (entries c)).
  set (kept := filter (λ e, expired e.2 now = false) (entries c)).
  exists (mkState kept
            (mkStats (Z.of_nat (length kept)) (totalSize (stats c) - bytes gone)
               (hitCount (stats c)) (missCount (stats c))
               (evictionCount (stats c) + length gone))
            (maxItems c) (maxMemoryMB c)).
  split; [done|]. do 5 (split; [done|]). split; [|done].
  unfold consistent. cbn [entries stats totalItems totalSize].
  split; [by apply filter_keys_NoDup|]. split; [done|].
  pose proof (filter_split_bytes (λ e, expired e.2 now) (entries c)) as Hsplit.
  cbn beta in Hsplit. fold gone kept in Hsplit. lia.
Qed.

Lemma cleanup_consistent now c : consistent c → consistent (cleanup now c).
Proof.
  intros Hc. destruct (cleanup_swept now c Hc) as (c' & _ & _ & _ & _ & _ & _ & Hc' & ->).
  by apply performLRUEviction_consistent.
Qed.

Lemma cleanup_within now c : consistent c → within c → within (cleanup now c).
Proof.
  intros Hc [Hlen Hbytes].
  destruct (cleanup_swept now c Hc) as (c' & Hentries & Hmi & Hmm & _ & _ & _ & Hc' & ->).
  pose proof (bytes_nonneg (entries c)).
  pose proof (filter_split_length (λ e, expired e.2 now) (entries c)) as Hsplit.
  cbn beta in Hsplit.
  apply performLRUEviction_within; [done|lia|unfold maxSizeBytes in *; rewrite Hmm; lia|].
  rewrite Hentries, Hmi. lia.
Qed.

Lemma reachable_limits maxItems' maxMemoryMB' c :
  reachable calculateSize maxItems' maxMemoryMB' c →
  maxItems c = maxItems (create (V:=V) maxItems' maxMemoryMB')
  ∧ maxMemoryMB c = maxMemoryMB (create (V:=V) maxItems' maxMemoryMB').
Proof.
  induction 1 as [|now key c _ IH|now key v ttl c _ IH|key c _ IH|now key c _ IH|c _ IH
                  |now c _ IH]; [done|..].
  - unfold get. destruct (map_get key (entries c)) as [item|]; [|done].
    by destruct (expired item now).
  - destruct (set_limits now key v ttl c) as [-> ->]. done.
  - unfold del. by destruct (map_get key (entries c)).
  - unfold exists_. destruct (map_get key (entries c)) as [item|]; [|done].
    by destruct (expired item now).
  - done.
  - unfold cleanup. destruct (sweep now (entries c)) as [[? ?] ?].
    match goal with
    | |- context [performLRUEviction ?x] =>
        by destruct (performLRUEviction_limits x) as [-> ->]
    end.
Qed.

Lemma reachable_invariant maxItems' maxMemoryMB' c :
  reachable calculateSize maxItems' maxMemoryMB' c →
  consistent c
  ∧ (0 ≤ maxItems (create (V:=V) maxItems' maxMemoryMB') →
     0 ≤ maxMemoryMB (create (V:=V) maxItems' maxMemoryMB') → within c).
Proof.
  induction 1 as [|now key c _ [IH1 IH2]|now key v ttl c _ [IH1 IH2]|key c _ [IH1 IH2]
                  |now key c _ [IH1 IH2]|c Hc [IH1 IH2]|now c _ [IH1 IH2]].
  - split; [unfold consistent; simpl; split; [apply NoDup_nil_2|done]|].
    intros H1 H2. split; [exact H1|]. unfold maxSizeBytes.
    change (bytes (entries (create (V:=V) maxItems' maxMemoryMB'))) with 0. lia.
  - split; [by apply get_consistent|]. intros H1 H2. by apply get_within, IH2.
  - split; [by apply set_consistent|]. intros H1 H2. by apply set_within; [|apply IH2].
  - split; [by apply del_consistent|]. intros H1 H2. by apply del_within, IH2.
  - split; [by apply exists_consistent|]. intros H1 H2. by apply exists_within, IH2.
  - split; [unfold consistent; simpl; split; [apply NoDup_nil_2|done]|].
    intros H1 H2. destruct (reachable_limits _ _ _ Hc) as [Hmi Hmm].
    unfold within, maxSizeBytes. cbn [flushAll snd withStats entries maxItems maxMemoryMB].
    rewrite Hmi, Hmm. split; [exact H1|]. change (bytes (V:=V) []) with 0. lia.
  - split; [by apply cleanup_consistent|]. intros H1 H2. by apply cleanup_within; [|apply IH2].
Qed.

End CacheOperations.

(** ** The cache: what a caller sees *)

Section CacheCalls.

Context {V : Type} (calculateSize : V → option nat).
Implicit Types (m : list (string * Cache.Item V)) (c : Cache.State V) (key : string).

Import Cache.

Lemma performLRUEviction_idle c :
  totalSize (stats c) ≤ maxSizeBytes c → Z.of_nat (length (entries c)) ≤ maxItems c →
  performLRUEviction c = c.
Proof.
  intros H1%Z.leb_le H2%Z.leb_le. unfold performLRUEviction. by rewrite H1, H2.
Qed.

Lemma bytes_perm m1 m2 : m1 ≡ₚ m2 → bytes m1 = bytes m2.
Proof.
  induction 1 as [|x l l' _ IH|x y l|l l' l'' _ IH1 _ IH2]; [done|..].
  - by rewrite !bytes_cons, IH.
  - rewrite !bytes_cons. lia.
  - by rewrite IH1.
Qed.

Lemma oldest_first_split (l1 l2 : list (string * Item V)) e :
  oldest_first (l1 ++ e :: l2) → Forall (λ x, lastAccessed e.2 ≤ lastAccessed x.2) l2.
Proof.
  induction l1 as [|a l1 IH]; simpl; [by intros [? _]|]. intros [_ H]. by apply IH.
Qed.

Lemma oldest_first_app (l1 l2 : list (string * Item V)) e x :
  oldest_first (l1 ++ l2) → e ∈ l1 → x ∈ l2 → lastAccessed e.2 ≤ lastAccessed x.2.
Proof.
  intros Hsorted (a & b & ->)%list_elem_of_split Hx.
  rewrite <- app_assoc in Hsorted. simpl in Hsorted.
  apply oldest_first_split in Hsorted. rewrite Forall_forall in Hsorted.
  apply Hsorted, elem_of_app. by right.
Qed.

Lemma same_key_same_entry m (e e' : string * Item V) :
  NoDup m.*1 → e ∈ m → e' ∈ m → e.1 = e'.1 → e = e'.
Proof.
  intros Hnd He He' Heq. destruct e as [k i], e' as [k' i']. simpl in Heq. subst k'.
  pose proof (map_get_elem _ _ _ Hnd He). pose proof (map_get_elem _ _ _ Hnd He').
  congruence.
Qed.

Lemma map_set_elem key item m e :
  NoDup m.*1 → e ∈ map_set key item m → e = (key, item) ∨ (e ∈ m ∧ e.1 ≠ key).
Proof.
  induction m as [|[k i] m IH]; cbn [map_set].
  - intros _ ->%list_elem_of_singleton. by left.
  - rewrite fmap_cons. intros [Hk Hnd]%NoDup_cons.
    destruct (String.eqb_spec k key) as [->|Hne].
    + intros [->|Hin]%elem_of_cons; [by left|].
      right. split; [by apply list_elem_of_further|].
      intros Heq. apply Hk. simpl. rewrite <- Heq. by apply (list_elem_of_fmap_2 fst).
    + intros [->|Hin]%elem_of_cons.
      * right. split; [apply list_elem_of_here|done].
      * destruct (IH Hnd Hin) as [->|[He Hkey]]; [by left|right].
        split; [by apply list_elem_of_further|done].
Qed.

(** Eviction keeps the order of the Map and drops no entry that was used
    after one it keeps. *)
Lemma performLRUEviction_oldest c :
  consistent c →
  entries (performLRUEviction c) `sublist_of` entries c
  ∧ ∀ e x, e ∈ entries c → e ∉ entries (performLRUEviction c) →
      x ∈ entries (performLRUEviction c) → lastAccessed e.2 ≤ lastAccessed x.2.
Proof.
  intros Hc. pose proof Hc as (Hnd & _ & _).
  destruct (performLRUEviction_spec c Hc)
    as [(_ & _ & ->)|(evicted & rest & Hsorted & -> & _)].
  - split; [done|]. by intros e x He Hout.
  - destruct (prefix_parts (entries c) evicted rest Hnd) as [Hev Hsub].
    { rewrite <- Hsorted. apply sortByAccess_perm. }
    destruct (remove_all_spec evicted (entries c) Hnd Hev Hsub) as (_ & _ & _ & Helem).
    split; [rewrite remove_all_filter by done; apply sublist_filter|].
    intros e x He Hout [Hx Hxk]%Helem.
    apply (oldest_first_app evicted rest).
    + rewrite <- Hsorted. apply sortByAccess_sorted.
    + destruct (decide (e.1 ∈ evicted.*1)) as [Hin|Hnot].
      * apply list_elem_of_fmap in Hin as (e' & Heq & He').
        rewrite (same_key_same_entry (entries c) e e'); auto.
      * exfalso. by apply Hout, Helem.
    + assert (x ∈ evicted ++ rest) as [Hxe|Hxr]%elem_of_app.
      { rewrite <- Hsorted. by rewrite sortByAccess_perm. }
      * exfalso. apply Hxk. by apply (list_elem_of_fmap_2 fst).
      * done.
Qed.

Lemma get_hit now key c item :
  map_get key (entries c) = Some item → expired item now = false →
  (get now key c).1 = Some (value item).
Proof. intros Hget Hlive. unfold get. by rewrite Hget, Hlive. Qed.

Lemma get_expired now key c item :
  NoDup (entries c).*1 →
  map_get key (entries c) = Some item → expired item now = true →
  (get now key c).1 = None ∧ map_get key (entries (get now key c).2) = None.
Proof.
  intros Hnd Hget Hdead. unfold get. rewrite Hget, Hdead. split; [done|].
  cbn [snd withStats entries]. by apply map_get_None, map_delete_gone.
Qed.

Lemma get_miss now key c :
  map_get key (entries c) = None →
  (get now key c).1 = None ∧ entries (get now key c).2 = entries c.
Proof. intros Hget. unfold get. by rewrite Hget. Qed.

(** The entry that [set] writes outlives the eviction that follows when
    it is the most recently used one and fits by itself. *)
Lemma set_keeps_new_entry now key v ttlSeconds c size :
  consistent c → calculateSize v = Some size →
  Z.of_nat size ≤ maxSizeBytes c → 1 ≤ maxItems c →
  Forall (λ e, e.1 ≠ key → lastAccessed e.2 < now) (entries c) →
  map_get key (entries (set calculateSize now key v ttlSeconds c).2)
  = Some (mkItem v (expiry now ttlSeconds) 1 now size).
Proof.
  intros Hc Hsize Hfits Hone Holder.
  destruct (set_inserted calculateSize now key v ttlSeconds c size Hsize Hc)
    as (c' & Hentries & Hmi & Hmm & Hc' & ->).
  set (item := mkItem v (expiry now ttlSeconds) 1 now size) in *.
  assert (map_get key (entries c') = Some item) as Hnew.
  { rewrite Hentries. apply map_get_set_eq. }
  destruct (_ || _); [|done].
  pose proof Hc as (Hnd & _ & _). pose proof Hc' as (Hnd' & _ & _).
  destruct (performLRUEviction_spec c' Hc')
    as [(_ & _ & ->)|(evicted & rest & Hsorted & -> & _ & _ & _ & _ & Hbefore)]; [done|].
  destruct (prefix_parts (entries c') evicted rest Hnd') as [Hev Hsub].
  { rewrite <- Hsorted. apply sortByAccess_perm. }
  destruct (remove_all_spec evicted (entries c') Hnd' Hev Hsub) as (Hnd'' & _ & _ & Helem).
  apply map_get_elem; [done|]. apply Helem.
  split; [by apply map_get_Some_elem|]. cbn [fst].
  intros (e' & Heq & He')%list_elem_of_fmap.
  assert (e' = (key, item)) as ->.
  { apply (same_key_same_entry (entries c')); [done|by apply Hsub|
      by apply map_get_Some_elem|done]. }
  apply list_elem_of_split in He' as (before & after & ->).
  (* every other entry is older, so nothing is sorted after the new one *)
  assert (after ++ rest = []) as [-> ->]%app_eq_nil.
  { destruct (after ++ rest) as [|x others] eqn:Hrest; [done|]. exfalso.
    assert (sortByAccess (entries c') = before ++ (key, item) :: x :: others) as Hs.
    { rewrite Hsorted, <- app_assoc. simpl. by rewrite Hrest. }
    pose proof (sortByAccess_sorted (entries c')) as Hold. rewrite Hs in Hold.
    apply oldest_first_split in Hold. apply Forall_cons in Hold as [Hold _].
    assert (x ∈ entries c') as Hx.
    { rewrite <- (sortByAccess_perm (entries c')), Hs.
      apply elem_of_app. right. apply list_elem_of_further, list_elem_of_here. }
    assert (NoDup (sortByAccess (entries c')).*1) as Hnds by by rewrite sortByAccess_perm.
    rewrite Hs, fmap_app, !fmap_cons in Hnds.
    apply NoDup_app in Hnds as (_ & _ & [Hk _]%NoDup_cons).
    apply not_elem_of_cons in Hk as [Hk _].
    rewrite Hentries in Hx. apply map_set_elem in Hx; [|done].
    destruct Hx as [->|[Hx Hne]]; [by apply Hk|].
    rewrite Forall_forall in Holder. specialize (Holder x Hx Hne).
    subst item. cbn [snd lastAccessed] in Hold. lia. }
  apply (Hbefore before (key, item) [] eq_refl).
  rewrite app_nil_r in Hsorted.
  assert (before ++ [(key, item)] ≡ₚ entries c') as Hperm.
  { rewrite <- Hsorted. apply sortByAccess_perm. }
  destruct (prefix_parts (entries c') before [(key, item)] Hnd' Hperm) as [Hev' Hsub'].
  destruct (remove_all_spec before (entries c') Hnd' Hev' Hsub') as (_ & Hlen & _).
  rewrite <- (bytes_perm _ _ Hperm), bytes_app, bytes_cons in *.
  apply Permutation_length in Hperm. rewrite length_app in Hperm. simpl in Hperm.
  unfold maxSizeBytes in *. rewrite Hmm, Hmi. subst item. cbn [snd item_size].
  change (bytes (V:=V) []) with 0. split; lia.
Qed.

End CacheCalls.

(** X16: The statistics of the cache always agree with its Map: in every
    state the cache takes, no key is stored twice, totalItems is the
    number of entries and totalSize the sum of their sizes. *)
Theorem cache_statistics_agree {V : Type} (calculateSize : V → option nat)
    (maxItems maxMemoryMB : option Z) (c : Cache.State V) :
  reachable calculateSize maxItems maxMemoryMB c →
  NoDup (Cache.entries c).*1
  ∧ Cache.totalItems (Cache.stats c) = Z.of_nat (length (Cache.entries c))
  ∧ Cache.totalSize (Cache.stats c) = Cache.bytes (Cache.entries c).
Proof. intros Hreach. by apply (reachable_invariant calculateSize maxItems maxMemoryMB). Qed.

Lemma cache_statistics_agree_witness :
  Cache.totalItems (Cache.stats (Cache.set lengthOf 5 "k" "value" None smallCache).2) = 1
  ∧ Cache.totalSize (Cache.stats (Cache.set lengthOf 5 "k" "value" None smallCache).2) = 5.
Proof.
  destruct (cache_statistics_agree lengthOf (Some 2) (Some 1)
              (Cache.set lengthOf 5 "k" "value" None smallCache).2) as (_ & H1 & H2).
  - apply reachable_set, reachable_create.
  - split; [rewrite H1|rewrite H2]; vm_compute; reflexivity.
Defined.

(** X17: A cache created with limits that are not negative never holds
    more than maxItems entries nor more than maxMemoryMB megabytes, in
    any state it takes. *)
Theorem cache_stays_within_limits {V : Type} (calculateSize : V → option nat)
    (maxItems maxMemoryMB : option Z) (c : Cache.State V) :
  reachable calculateSize maxItems maxMemoryMB c →
  0 ≤ Cache.maxItems c → 0 ≤ Cache.maxMemoryMB c →
  Z.of_nat (length (Cache.entries c)) ≤ Cache.maxItems c
  ∧ Cache.bytes (Cache.entries c) ≤ Cache.maxMemoryMB c * 1024 * 1024.
Proof.
  intros Hreach H1 H2.
  destruct (reachable_limits calculateSize maxItems maxMemoryMB c Hreach) as [Hmi Hmm].
  apply (reachable_invariant calculateSize maxItems maxMemoryMB c Hreach); congruence.
Qed.

Lemma cache_stays_within_limits_witness :
  let c := (Cache.set lengthOf 3 "c" "z" None
              (Cache.set lengthOf 2 "b" "y" None
                 (Cache.set lengthOf 1 "a" "x" None smallCache).2).2).2 in
  (length (Cache.entries c) ≤ 2)%nat.
Proof.
  intros c.
  destruct (cache_stays_within_limits lengthOf (Some 2) (Some 1) c) as [H _].
  - do 3 apply reachable_set. apply reachable_create.
  - vm_compute. discriminate.
  - vm_compute. discriminate.
  - apply Nat2Z.inj_le. exact H.
Defined.

(** X18: What [set] stores, [get] returns: when the value can be sized
    and fits the memory limit by itself, the cache may hold one item,
    and every other entry was last used before the call, a later [get] of
    the key answers the value as long as the time to live has not run
    out; without a time to live, or with 0, it never does. *)
Theorem set_then_get {V : Type} (calculateSize : V → option nat)
    (now later : Z) (key : string) (v : V) (ttlSeconds : option Z)
    (c : Cache.State V) (size : nat) :
  Cache.consistent c →
  calculateSize v = Some size →
  Z.of_nat size ≤ Cache.maxSizeBytes c → 1 ≤ Cache.maxItems c →
  Forall (λ e, e.1 ≠ key → Cache.lastAccessed e.2 < now) (Cache.entries c) →
  (ttlSeconds = None ∨ ttlSeconds = Some 0
   ∨ ∃ t, ttlSeconds = Some t ∧ later ≤ now + t * 1000) →
  (Cache.set calculateSize now key v ttlSeconds c).1 = true
  ∧ (Cache.get later key (Cache.set calculateSize now key v ttlSeconds c).2).1 = Some v.
Proof.
  intros Hc Hsize Hfits Hone Holder Hlive. split.
  { unfold Cache.set. rewrite Hsize.
    destruct (Cache.map_get key (Cache.entries c)); cbn beta iota zeta;
      by destruct (_ || _). }
  pose proof (set_keeps_new_entry calculateSize now key v ttlSeconds c size
                Hc Hsize Hfits Hone Holder) as Hnew.
  apply (get_hit later) in Hnew; [done|].
  unfold Cache.expired. cbn [Cache.expiresAt].
  destruct Hlive as [->|[->|(t & -> & Hlater)]]; [done|done|].
  unfold Cache.expiry. destruct (t =? 0); [done|].
  apply andb_false_iff. right. by apply Z.ltb_ge.
Qed.

Lemma set_then_get_witness :
  (Cache.get 60002 "b"
     (Cache.set lengthOf 2 "b" "y" (Some 60)
        (Cache.set lengthOf 1 "a" "x" None smallCache).2).2).1 = Some "y".
Proof.
  apply (set_then_get lengthOf 2 60002 "b" "y" (Some 60)
           (Cache.set lengthOf 1 "a" "x" None smallCache).2 1).
  - apply (reachable_invariant lengthOf (Some 2) (Some 1)), reachable_set, reachable_create.
  - reflexivity.
  - vm_compute. discriminate.
  - vm_compute. discriminate.
  - vm_compute. repeat constructor.
  - right. right. exists 60. split; [reflexivity|lia].
Defined.

(** X19: An entry whose time to live has run out is never answered: a
    [get] after [now + ttlSeconds * 1000] answers null and the key is no
    longer in the Map, whatever else the cache holds. *)
Theorem expired_entry_is_gone {V : Type} (calculateSize : V → option nat)
    (now later : Z) (key : string) (v : V) (t : Z) (c : Cache.State V) (size : nat) :
  Cache.consistent c →
  calculateSize v = Some size →
  t ≠ 0 → now + t * 1000 ≠ 0 → now + t * 1000 < later →
  let c' := (Cache.set calculateSize now key v (Some t) c).2 in
  (Cache.get later key c').1 = None
  ∧ Cache.map_get key (Cache.entries (Cache.get later key c').2) = None.
Proof.
  intros Hc Hsize Ht Hzero Hlater c'.
  assert (Cache.consistent c') as (Hnd' & _ & _) by by apply set_consistent.
  destruct (Cache.map_get key (Cache.entries c')) as [item|] eqn:Hget.
  - assert (Cache.expired item later = true) as Hdead;
      [|by apply (get_expired later key c' item)].
    assert (item = Cache.mkItem v (Cache.expiry now (Some t)) 1 now size) as ->.
    { destruct (set_inserted calculateSize now key v (Some t) c size Hsize Hc)
        as (c'' & Hentries & _ & _ & Hc'' & Hset).
      assert ((key, item) ∈ Cache.entries c'') as Hin.
      { apply map_get_Some_elem in Hget. subst c'. rewrite Hset in Hget.
        destruct (_ || _); [|done].
        eapply elem_of_sublist; [exact Hget|]. by apply performLRUEviction_oldest. }
      destruct Hc'' as (Hnd'' & _ & _).
      apply (map_get_elem _ _ _ Hnd'') in Hin.
      rewrite Hentries, map_get_set_eq in Hin. congruence. }
    unfold Cache.expired, Cache.expiry. cbn [Cache.expiresAt].
    apply Z.eqb_neq in Ht as ->. apply Z.eqb_neq in Hzero as ->. by apply Z.ltb_lt.
  - destruct (get_miss later key c' Hget) as [-> ->]. done.
Qed.

Lemma expired_entry_is_gone_witness :
  (Cache.get 60002 "a" (Cache.set lengthOf 1 "a" "x" (Some 60) smallCache).2).1 = None.
Proof.
  apply (expired_entry_is_gone lengthOf 1 60002 "a" "x" 60 smallCache 1).
  - apply (reachable_invariant lengthOf (Some 2) (Some 1)), reachable_create.
  - reflexivity.
  - discriminate.
  - discriminate.
  - reflexivity.
Defined.

(** X20: The eviction that [set] runs is least-recently-used: the Map
    afterwards is the Map with the new entry written, less some entries
    and in the same order, and every entry it dropped was last used no
    later than every entry it kept. *)
Theorem set_evicts_least_recently_used {V : Type} (calculateSize : V → option nat)
    (now : Z) (key : string) (v : V) (ttlSeconds : option Z)
    (c : Cache.State V) (size : nat) :
  Cache.consistent c →
  calculateSize v = Some size →
  let written :=
    Cache.map_set key (Cache.mkItem v (Cache.expiry now ttlSeconds) 1 now size)
      (Cache.entries c) in
  let kept := Cache.entries (Cache.set calculateSize now key v ttlSeconds c).2 in
  kept `sublist_of` written
  ∧ ∀ e x, e ∈ written → e ∉ kept → x ∈ kept →
      Cache.lastAccessed e.2 ≤ Cache.lastAccessed x.2.
Proof.
  intros Hc Hsize written kept. subst written kept.
  destruct (set_inserted calculateSize now key v ttlSeconds c size Hsize Hc)
    as (c' & <- & _ & _ & Hc' & ->).
  destruct (_ || _); [by apply performLRUEviction_oldest|].
  split; [done|]. by intros e x He Hout.
Qed.

Lemma set_evicts_least_recently_used_witness :
  let c := (Cache.set lengthOf 2 "b" "y" None
              (Cache.set lengthOf 1 "a" "x" None smallCache).2).2 in
  Cache.entries (Cache.set lengthOf 3 "c" "z" None c).2
  `sublist_of` Cache.map_set "c" (Cache.mkItem "z" None 1 3 1) (Cache.entries c).
Proof.
  intros c.
  apply (set_evicts_least_recently_used lengthOf 3 "c" "z" None c 1).
  - apply (reachable_invariant lengthOf (Some 2) (Some 1)).
    do 2 apply reachable_set. apply reachable_create.
  - reflexivity.
Defined.

(** X21: [del] answers true whether or not the key is stored, so that
    DELETE /api/cache/:key never answers 404; afterwards a [get] of the
    key misses and the other keys answer as before. *)
Theorem del_always_succeeds {V : Type} (now : Z) (key : string) (c : Cache.State V) :
  Cache.consistent c →
  (Cache.del key c).1 = true
  ∧ (Cache.deleteRoute key c).1 = 200%nat
  ∧ (Cache.get now key (Cache.del key c).2).1 = None
  ∧ (Cache.map_get key (Cache.entries c) = None →
     Cache.entries (Cache.del key c).2 = Cache.entries c
     ∧ Cache.stats (Cache.del key c).2 = Cache.stats c)
  ∧ ∀ other, other ≠ key →
      (Cache.get now other (Cache.del key c).2).1 = (Cache.get now other c).1.
Proof.
  intros (Hnd & _ & _).
  assert (Cache.entries (Cache.del key c).2 = Cache.map_delete key (Cache.entries c)) as He.
  { unfold Cache.del. by destruct (Cache.map_get key (Cache.entries c)). }
  split; [|split; [|split; [|split]]].
  - unfold Cache.del. by destruct (Cache.map_get key (Cache.entries c)).
  - unfold Cache.deleteRoute, Cache.del. by destruct (Cache.map_get key (Cache.entries c)).
  - apply get_miss. rewrite He. by apply map_get_None, map_delete_gone.
  - intros Hnone. unfold Cache.del. rewrite Hnone.
    cbn [snd Cache.withStats Cache.entries Cache.stats]. by rewrite map_delete_absent.
  - intros other Hne. unfold Cache.get. rewrite He, map_get_delete_ne by done.
    destruct (Cache.map_get other (Cache.entries c)) as [item|]; [|done].
    by destruct (Cache.expired item now).
Qed.

Lemma del_always_succeeds_witness :
  (Cache.deleteRoute "missing" smallCache).1 = 200%nat.
Proof.
  destruct (del_always_succeeds 0 "missing" smallCache) as (_ & H & _).
  - apply (reachable_invariant lengthOf (Some 2) (Some 1)), reachable_create.
  - exact H.
Defined.

(** X22: On a cache within its limits the timer's cleanup removes the
    entries whose time to live has run out, and only those: the others
    stay in their order, evictionCount grows by the number removed, and
    the statistics of hits and misses do not change. *)
Theorem cleanup_removes_expired {V : Type} (now : Z) (c : Cache.State V) :
  Cache.consistent c → Cache.within c →
  Cache.entries (Cache.cleanup now c)
  = filter (λ e, Cache.expired e.2 now = false) (Cache.entries c)
  ∧ Cache.evictionCount (Cache.stats (Cache.cleanup now c))
    = (Cache.evictionCount (Cache.stats c)
       + length (filter (λ e, Cache.expired e.2 now = true) (Cache.entries c)))%nat
  ∧ Cache.hitCount (Cache.stats (Cache.cleanup now c)) = Cache.hitCount (Cache.stats c)
  ∧ Cache.missCount (Cache.stats (Cache.cleanup now c)) = Cache.missCount (Cache.stats c).
Proof.
  intros Hc [Hlen Hbytes].
  destruct (cleanup_swept now c Hc)
    as (c' & Hentries & Hmi & Hmm & Hev & Hhit & Hmiss & Hc' & ->).
  rewrite performLRUEviction_idle; [done|..].
  - destruct Hc' as (_ & _ & ->). rewrite Hentries. unfold Cache.maxSizeBytes in *.
    rewrite Hmm.
    pose proof (filter_split_bytes (λ e, Cache.expired e.2 now) (Cache.entries c)) as Hs.
    cbn beta in Hs.
    pose proof (bytes_nonneg (filter (λ e, Cache.expired e.2 now = true) (Cache.entries c))).
    lia.
  - rewrite Hentries, Hmi.
    pose proof (filter_split_length (λ e, Cache.expired e.2 now) (Cache.entries c)) as Hs.
    cbn beta in Hs. lia.
Qed.

Lemma cleanup_removes_expired_witness :
  (Cache.entries
     (Cache.cleanup 60002
        (Cache.set lengthOf 2 "b" "y" None
           (Cache.set lengthOf 1 "a" "x" (Some 60) smallCache).2).2)).*1 = ["b"].
Proof.
  destruct (cleanup_removes_expired 60002
              (Cache.set lengthOf 2 "b" "y" None
                 (Cache.set lengthOf 1 "a" "x" (Some 60) smallCache).2).2) as (H & _).
  - apply (reachable_invariant lengthOf (Some 2) (Some 1)).
    do 2 apply reachable_set. apply reachable_create.
  - apply (reachable_invariant lengthOf (Some 2) (Some 1)).
    + do 2 apply reachable_set. apply reachable_create.
    + vm_compute. discriminate.
    + vm_compute. discriminate.
  - rewrite H. reflexivity.
Defined.

(** ** The shared utilities: versions *)

Section SharedVersions.

Import Regex Shared.

Lemma test_Alt r1 r2 s : test (Alt r1 r2) s = test r1 s || test r2 s.
Proof. revert r1 r2. induction s as [|c s IH]; intros r1 r2; simpl; [done|apply IH]. Qed.

Lemma test_Seq_nullable r1 r2 s :
  nullable r1 = true → test r2 s = true → test (Seq r1 r2) s = true.
Proof.
  intros Hnull Htest. destruct s as [|c s]; simpl in *.
  - by rewrite Hnull, Htest.
  - rewrite Hnull, test_Alt, Htest. apply orb_true_r.
Qed.

Lemma test_Seq r1 r2 s1 s2 :
  test r1 s1 = true → test r2 s2 = true → test (Seq r1 r2) (s1 +:+ s2) = true.
Proof.
  revert r1. induction s1 as [|c s1 IH]; intros r1 H1 H2.
  - by apply test_Seq_nullable.
  - change (test (deriv c (Seq r1 r2)) (s1 +:+ s2) = true). simpl in H1 |- *.
    destruct (nullable r1); [rewrite test_Alt|]; rewrite IH by done; done.
Qed.

Lemma test_Star_cons r c s1 s2 :
  test r (String c s1) = true → test (Star r) s2 = true →
  test (Star r) (String c s1 +:+ s2) = true.
Proof. intros H1 H2. simpl in *. by apply test_Seq. Qed.

Lemma test_Star_class p s : JsString.all_chars p s = true → test (Star (Class p)) s = true.
Proof.
  induction s as [|c s IH]; [done|]. intros [Hc Hs]%andb_prop.
  apply (test_Star_cons (Class p) c "" s); [simpl; by rewrite Hc|by apply IH].
Qed.

Lemma test_Plus_class p c s :
  p c = true → JsString.all_chars p s = true → test (Plus (Class p)) (String c s) = true.
Proof.
  intros Hc Hs. apply (test_Seq (Class p) (Star (Class p)) (String c "") s).
  - simpl. by rewrite Hc.
  - by apply test_Star_class.
Qed.

Lemma test_digits s : JsString.digits s = true → test (Plus digit) s = true.
Proof. intros (c & r & -> & Hc & Hr)%digits_inv. by apply test_Plus_class. Qed.

Lemma test_digits_dot s :
  JsString.digits s = true → test (Seq (Plus digit) (char ".")) (s +:+ ".") = true.
Proof. intros Hs. apply test_Seq; [by apply test_digits|done]. Qed.

Lemma test_tail s :
  JsString.digits s = true →
  test (Seq (Alt (char "*") (Plus digit))
          (Seq (Opt (Seq (char "-")
                       (Seq (Plus (Class identifier_char))
                          (Star (Seq (char ".") (Plus (Class identifier_char)))))))
             (Opt (Seq (char "+") (Plus (Class identifier_char)))))) s = true.
Proof.
  intros Hs. rewrite <- (append_nil_r s). apply test_Seq; [|done].
  rewrite test_Alt, test_digits by done. apply orb_true_r.
Qed.

Lemma string_app_assoc (a b c : string) : (a +:+ b) +:+ c = a +:+ (b +:+ c).
Proof.
  induction a as [|x a IH]; [done|].
  change (String x ((a +:+ b) +:+ c) = String x (a +:+ (b +:+ c))). by rewrite IH.
Qed.

(** One to three dot-separated runs of digits are valid versions. *)
Lemma isValidSemVer_plain v : plain_version v = true → isValidSemVer v = true.
Proof.
  unfold plain_version. intros [Hlen Hall]%andb_prop.
  rewrite <- (join_split "." v). unfold isValidSemVer, semVerRegex.
  pose proof (split_not_nil "." v) as Hsplit.
  destruct (JsString.split "." v) as [|a [|b [|c [|d cs]]]]; simpl in Hlen, Hall;
    [done| | | |done].
  - apply andb_prop in Hall as [Ha _]. cbn [JsString.join].
    apply (test_Seq_nullable _ _ a); [done|].
    apply (test_Seq_nullable _ _ a); [done|]. by apply test_tail.
  - apply andb_prop in Hall as [Ha [Hb _]%andb_prop]. cbn [JsString.join].
    change (a +:+ String "." b) with (a +:+ ("." +:+ b)). rewrite <- string_app_assoc.
    apply test_Seq.
    + unfold Opt. rewrite test_Alt, test_digits_dot; done.
    + apply (test_Seq_nullable _ _ b); [done|]. by apply test_tail.
  - apply andb_prop in Hall as [Ha [Hb [Hc _]%andb_prop]%andb_prop]. cbn [JsString.join].
    change (a +:+ String "." (b +:+ String "." c))
      with (a +:+ ("." +:+ (b +:+ ("." +:+ c)))).
    rewrite <- (string_app_assoc a), <- (string_app_assoc b).
    apply test_Seq; [unfold Opt; rewrite test_Alt, test_digits_dot; done|].
    apply test_Seq; [unfold Opt; rewrite test_Alt, test_digits_dot; done|].
    by apply test_tail.
Qed.

Lemma component_digits s :
  JsString.digits s = true → Reference.component (Some s) = Some (JsString.decimal s).
Proof. intros Hs. simpl. by rewrite Hs. Qed.

Lemma triple_lt_compare a1 b1 c1 a2 b2 c2 :
  ((if a1 <? a2 then -1
    else if a2 <? a1 then 1
    else if b1 <? b2 then -1
    else if b2 <? b1 then 1
    else if c1 <? c2 then -1
    else if c2 <? c1 then 1 else 0) <? 0)
  = Reference.triple_lt (a1, b1, c1) (a2, b2, c2).
Proof.
  unfold Reference.triple_lt.
  destruct (a1 <? a2) eqn:?, (a2 <? a1) eqn:?, (a1 =? a2) eqn:?,
    (b1 <? b2) eqn:?, (b2 <? b1) eqn:?, (b1 =? b2) eqn:?,
    (c1 <? c2) eqn:?, (c2 <? c1) eqn:?; simpl; try done; lia.
Qed.

(** On plain versions compareSemVer is negative exactly when the numeric
    triple of the first is below that of the second. *)
Lemma compareSemVer_plain current latest :
  plain_version current = true → plain_version latest = true →
  (compareSemVer current latest <? 0) = Reference.newer current latest.
Proof.
  unfold plain_version, compareSemVer, Reference.newer, Reference.triple.
  intros [Hlen1 Hall1]%andb_prop [Hlen2 Hall2]%andb_prop.
  pose proof (split_not_nil "." current) as Hsplit1.
  pose proof (split_not_nil "." latest) as Hsplit2.
  destruct (JsString.split "." current) as [|a1 [|b1 [|c1 [|d1 cs1]]]];
    simpl in Hlen1, Hall1; try done;
  destruct (JsString.split "." latest) as [|a2 [|b2 [|c2 [|d2 cs2]]]];
    simpl in Hlen2, Hall2; try done;
  repeat match goal with
         | H : _ && _ = true |- _ => apply andb_prop in H as [? ?]
         end;
  cbn [lookup list_lookup fmap list_fmap length Nat.max compareFrom or_zero];
  rewrite ?toNumber_digits, ?component_digits by done;
  cbn [or_zero Reference.component];
  rewrite <- triple_lt_compare, ?Z.ltb_irrefl; done.
Qed.

End SharedVersions.

(** X23: The shared isPackageOutdated and the server's isNewerVersion
    agree on plain versions: when both versions are one to three
    dot-separated runs of digits, none above Number.MAX_SAFE_INTEGER,
    both are valid for isValidSemVer and isPackageOutdated answers true
    exactly when the numeric triple of the latest version is above that
    of the current one, as isNewerVersion does. *)
Theorem isPackageOutdated_agrees (current latest : string) :
  plain_version current = true → plain_version latest = true →
  safe_components current = true → safe_components latest = true →
  Shared.isValidSemVer current = true
  ∧ Shared.isValidSemVer latest = true
  ∧ Shared.isPackageOutdated current latest = Reference.newer current latest
  ∧ Shared.isPackageOutdated current latest = isNewerVersion current latest.
Proof.
  intros Hc Hl _ _.
  pose proof (isValidSemVer_plain current Hc) as Hvc.
  pose proof (isValidSemVer_plain latest Hl) as Hvl.
  assert (Shared.isPackageOutdated current latest = Reference.newer current latest) as Heq.
  { unfold Shared.isPackageOutdated. rewrite Hvc, Hvl. by apply compareSemVer_plain. }
  split; [done|]. split; [done|]. split; [done|].
  by rewrite Heq, isNewerVersion_plain.
Qed.

Lemma isPackageOutdated_agrees_witness :
  Shared.isPackageOutdated "4.17.20" "4.17.21" = true
  ∧ Shared.isPackageOutdated "1.10" "1.9.9" = false.
Proof.
  split.
  - destruct (isPackageOutdated_agrees "4.17.20" "4.17.21") as (_ & _ & H & _);
      [reflexivity..|]. rewrite H. reflexivity.
  - destruct (isPackageOutdated_agrees "1.10" "1.9.9") as (_ & _ & H & _);
      [reflexivity..|]. rewrite H. reflexivity.
Defined.

Section SharedInvalid.

Import Regex Shared.

Lemma dead_not_nullable r : dead r = true → nullable r = false.
Proof.
  induction r as [| |p|r1 IH1 r2 IH2|r1 IH1 r2 IH2|r IH]; simpl; try done.
  - intros [H|H]%orb_prop; [rewrite IH1 by done; done|].
    rewrite IH2 by done. apply andb_false_r.
  - intros [H1 H2]%andb_prop. by rewrite IH1, IH2.
Qed.

Lemma dead_deriv c r : dead r = true → dead (deriv c r) = true.
Proof.
  induction r as [| |p|r1 IH1 r2 IH2|r1 IH1 r2 IH2|r IH]; simpl; try done.
  - intros [H|H]%orb_prop.
    + rewrite (dead_not_nullable r1 H). simpl. by rewrite IH1.
    + destruct (nullable r1); simpl; rewrite ?IH2, H by done;
        rewrite ?orb_true_r; done.
  - intros [H1 H2]%andb_prop. by rewrite IH1, IH2.
Qed.

Lemma dead_test r s : dead r = true → test r s = false.
Proof.
  revert r. induction s as [|c s IH]; intros r Hdead; simpl.
  - by apply dead_not_nullable.
  - by apply IH, dead_deriv.
Qed.

(** A string that starts with neither a digit nor a star is no valid
    version, and neither is the empty string. *)
Lemma isValidSemVer_first c s :
  JsString.is_digit c = false → c ≠ "*"%char → isValidSemVer (String c s) = false.
Proof.
  intros Hdigit Hstar%Ascii.eqb_neq. rewrite Ascii.eqb_sym in Hstar.
  unfold isValidSemVer, semVerRegex, Opt, Plus, digit, char.
  cbn [test deriv nullable andb orb]. rewrite Hdigit, Hstar. by apply dead_test.
Qed.

End SharedInvalid.

(** X24: isPackageOutdated never reports a version that is not written
    as a version: when the current or the latest version is empty or
    starts with a character that is neither a digit nor a star, as the
    ranges of a manifest do (^1.2.3, ~1.2.3, >=1.2.3), the answer is
    false whatever the other version is. *)
Theorem isPackageOutdated_rejects_ranges (version other : string) :
  match version with
  | EmptyString => True
  | String c _ => JsString.is_digit c = false ∧ c ≠ "*"%char
  end →
  Shared.isValidSemVer version = false
  ∧ Shared.isPackageOutdated version other = false
  ∧ Shared.isPackageOutdated other version = false.
Proof.
  intros Hfirst.
  assert (Shared.isValidSemVer version = false) as Hinvalid.
  { destruct version as [|c s]; [done|]. destruct Hfirst. by apply isValidSemVer_first. }
  split; [done|]. unfold Shared.isPackageOutdated. rewrite Hinvalid. simpl.
  split; [done|]. by rewrite orb_true_r.
Qed.

Lemma isPackageOutdated_rejects_ranges_witness :
  Shared.isPackageOutdated "^4.17.20" "4.17.21" = false.
Proof.
  apply (isPackageOutdated_rejects_ranges "^4.17.20" "4.17.21").
  split; [reflexivity|discriminate].
Defined.

(** ** The shared utilities: packages and vulnerabilities *)

Section SharedPackages.

Import Shared.

Lemma groupPackagesByStatus_from packages : ∀ groups,
  foldl (λ groups pkg,
           if hasVulnerabilities pkg then
             mkGroups (outdated groups) (vulnerable groups ++ [pkg]) (upToDate groups)
           else if isOutdated pkg then
             mkGroups (outdated groups ++ [pkg]) (vulnerable groups) (upToDate groups)
           else
             mkGroups (outdated groups) (vulnerable groups) (upToDate groups ++ [pkg]))
        groups packages
  = mkGroups
      (outdated groups
       ++ List.filter (λ pkg, negb (hasVulnerabilities pkg) && isOutdated pkg) packages)
      (vulnerable groups ++ List.filter (λ pkg, hasVulnerabilities pkg) packages)
      (upToDate groups
       ++ List.filter (λ pkg, negb (hasVulnerabilities pkg) && negb (isOutdated pkg))
            packages).
Proof.
  induction packages as [|pkg packages IH]; intros [o v u].
  - simpl. by rewrite !app_nil_r.
  - cbn [foldl List.filter]. rewrite IH.
    destruct (hasVulnerabilities pkg), (isOutdated pkg); simpl;
      by rewrite <- ?app_assoc.
Qed.

Lemma filter_length_zero {A} (f : A → bool) (l : list A) :
  length (List.filter f l) = 0%nat ↔ Forall (λ x, f x = false) l.
Proof.
  induction l as [|x l IH]; simpl; [by split; [constructor|]|].
  destruct (f x) eqn:E; simpl.
  - split; [done|]. intros [? _]%Forall_cons. congruence.
  - rewrite IH. split; [by constructor|by intros [_ ?]%Forall_cons].
Qed.

Lemma filter_three_lengths {A} (f g : A → bool) (l : list A) :
  (length (List.filter f l)
   + length (List.filter (λ x, negb (f x) && g x) l)
   + length (List.filter (λ x, negb (f x) && negb (g x)) l))%nat = length l.
Proof.
  induction l as [|x l IH]; [done|]. simpl.
  destruct (f x), (g x); simpl; lia.
Qed.

Lemma insertBySeverity_perm vuln sorted : insertBySeverity vuln sorted ≡ₚ vuln :: sorted.
Proof.
  induction sorted as [|x sorted IH]; simpl; [done|].
  destruct (score x <=? score vuln); [done|]. rewrite IH. apply perm_swap.
Qed.

Lemma sortVulnerabilitiesBySeverity_perm l : sortVulnerabilitiesBySeverity l ≡ₚ l.
Proof.
  induction l as [|vuln l IH]; simpl; [done|]. by rewrite insertBySeverity_perm, IH.
Qed.

Lemma insertBySeverity_sorted vuln sorted :
  critical_first sorted → critical_first (insertBySeverity vuln sorted).
Proof.
  induction sorted as [|x sorted IH]; simpl; [done|]. intros [Hx Hsorted].
  destruct (Z.leb_spec (score x) (score vuln)) as [Hle|Hgt]; simpl.
  - split; [|done]. constructor; [done|].
    eapply Forall_impl; [exact Hx|]. simpl. intros; lia.
  - split; [|by apply IH].
    rewrite insertBySeverity_perm. constructor; [lia|done].
Qed.

Lemma sortVulnerabilitiesBySeverity_sorted l :
  critical_first (sortVulnerabilitiesBySeverity l).
Proof. induction l as [|vuln l IH]; simpl; [done|]. by apply insertBySeverity_sorted. Qed.

Lemma insertBySeverity_head vuln sorted :
  Forall (λ y, score y ≤ score vuln) sorted → insertBySeverity vuln sorted = vuln :: sorted.
Proof.
  destruct sorted as [|x sorted]; [done|]. intros [Hx _]%Forall_cons. simpl.
  apply Z.leb_le in Hx. by rewrite Hx.
Qed.

Lemma insertBySeverity_same_score vuln sorted n :
  List.filter (λ v, score v =? n) (insertBySeverity vuln sorted)
  = List.filter (λ v, score v =? n) (vuln :: sorted).
Proof.
  induction sorted as [|x sorted IH]; [done|]. cbn [insertBySeverity].
  destruct (Z.leb_spec (score x) (score vuln)) as [Hle|Hgt]; [done|].
  cbn [List.filter] in IH |- *. rewrite IH.
  destruct (Z.eqb_spec (score x) n), (Z.eqb_spec (score vuln) n); try done. lia.
Qed.

Lemma critical_first_filter (f : VulnerabilityInfo → bool) l :
  critical_first l → critical_first (List.filter f l).
Proof.
  induction l as [|x l IH]; simpl; [done|]. intros [Hx Hl].
  destruct (f x); simpl; [|by apply IH]. split; [|by apply IH].
  rewrite Forall_forall in Hx |- *. intros y Hy%list_elem_of_In%List.filter_In.
  apply Hx, list_elem_of_In, Hy.
Qed.

Lemma insertBySeverity_filter vuln sorted minScore :
  critical_first sorted →
  List.filter (λ v, minScore <=? score v) (insertBySeverity vuln sorted)
  = if minScore <=? score vuln
    then insertBySeverity vuln (List.filter (λ v, minScore <=? score v) sorted)
    else List.filter (λ v, minScore <=? score v) sorted.
Proof.
  induction sorted as [|x sorted IH]; [done|]. intros [Hx Hsorted].
  cbn [insertBySeverity].
  destruct (Z.leb_spec (score x) (score vuln)) as [Hle|Hgt].
  - change (List.filter (λ v, minScore <=? score v) (vuln :: x :: sorted))
      with (if minScore <=? score vuln
            then vuln :: List.filter (λ v, minScore <=? score v) (x :: sorted)
            else List.filter (λ v, minScore <=? score v) (x :: sorted)).
    destruct (minScore <=? score vuln); [|done].
    symmetry. apply insertBySeverity_head.
    rewrite Forall_forall in Hx |- *. intros y Hy%list_elem_of_In%List.filter_In.
    destruct Hy as [[<-|Hy] _]; [done|]. apply list_elem_of_In, Hx in Hy. lia.
  - cbn [List.filter]. rewrite IH by done.
    destruct (Z.leb_spec minScore (score vuln)) as [Hmin|Hmin]; [|done].
    destruct (Z.leb_spec minScore (score x)) as [Hminx|Hminx]; [|lia].
    cbn [insertBySeverity]. apply Z.leb_gt in Hgt. by rewrite Hgt.
Qed.

End SharedPackages.

Lemma groups_partition_eqs (packages : list Shared.PackageInfo) :
  Shared.vulnerable (Shared.groupPackagesByStatus packages)
  = List.filter (λ pkg, Shared.hasVulnerabilities pkg) packages
  ∧ Shared.outdated (Shared.groupPackagesByStatus packages)
    = List.filter (λ pkg, negb (Shared.hasVulnerabilities pkg) && Shared.isOutdated pkg)
        packages
  ∧ Shared.upToDate (Shared.groupPackagesByStatus packages)
    = List.filter
        (λ pkg, negb (Shared.hasVulnerabilities pkg) && negb (Shared.isOutdated pkg))
        packages.
Proof.
  unfold Shared.groupPackagesByStatus. rewrite groupPackagesByStatus_from.
  cbn [Shared.vulnerable Shared.outdated Shared.upToDate app]. done.
Qed.

(** X25: groupPackagesByStatus puts every package in exactly one group
    and keeps the order of the list: the vulnerable ones, outdated or
    not; of the others the outdated ones; and the rest. *)
Theorem groups_partition_packages (packages : list Shared.PackageInfo) :
  Shared.vulnerable (Shared.groupPackagesByStatus packages)
  = List.filter (λ pkg, Shared.hasVulnerabilities pkg) packages
  ∧ Shared.outdated (Shared.groupPackagesByStatus packages)
    = List.filter (λ pkg, negb (Shared.hasVulnerabilities pkg) && Shared.isOutdated pkg)
        packages
  ∧ Shared.upToDate (Shared.groupPackagesByStatus packages)
    = List.filter
        (λ pkg, negb (Shared.hasVulnerabilities pkg) && negb (Shared.isOutdated pkg))
        packages
  ∧ (length (Shared.vulnerable (Shared.groupPackagesByStatus packages))
     + length (Shared.outdated (Shared.groupPackagesByStatus packages))
     + length (Shared.upToDate (Shared.groupPackagesByStatus packages)))%nat
    = length packages.
Proof.
  destruct (groups_partition_eqs packages) as (-> & -> & ->).
  split; [done|]. split; [done|]. split; [done|].
  apply (filter_three_lengths (λ pkg, Shared.hasVulnerabilities pkg)
           (λ pkg, Shared.isOutdated pkg)).
Qed.

(** X26: The health score is 100 less 10 for each package of the
    vulnerable group and 5 for each of the outdated group, and never
    below 0; it lies between 0 and 100, and it is 100 exactly when no
    package is vulnerable or outdated. *)
Theorem health_score_of_groups (packages : list Shared.PackageInfo) :
  let groups := Shared.groupPackagesByStatus packages in
  let score := Shared.calculatePackageHealthScore packages in
  score = Z.max 0 (100 - (10 * Z.of_nat (length (Shared.vulnerable groups))
                          + 5 * Z.of_nat (length (Shared.outdated groups))))
  ∧ 0 ≤ score ≤ 100
  ∧ (score = 100
     ↔ Forall (λ pkg, Shared.hasVulnerabilities pkg = false
                      ∧ Shared.isOutdated pkg = false) packages).
Proof.
  intros groups score. subst groups score.
  destruct (groups_partition_eqs packages) as (-> & -> & _).
  set (v := List.filter (λ pkg, Shared.hasVulnerabilities pkg) packages).
  set (o := List.filter
              (λ pkg, negb (Shared.hasVulnerabilities pkg) && Shared.isOutdated pkg)
              packages).
  assert (Shared.calculatePackageHealthScore packages
          = Z.max 0 (100 - (10 * Z.of_nat (length v) + 5 * Z.of_nat (length o)))) as ->.
  { unfold Shared.calculatePackageHealthScore. destruct packages as [|pkg packages]; [done|].
    fold v. replace (List.filter _ (pkg :: packages)) with o at 1; [f_equal; lia|].
    subst o. apply List.filter_ext. intros x. apply andb_comm. }
  split; [done|]. split; [lia|].
  assert (length v = 0%nat ∧ length o = 0%nat
          ↔ Forall (λ pkg, Shared.hasVulnerabilities pkg = false
                           ∧ Shared.isOutdated pkg = false) packages) as <-.
  { subst v o. rewrite !filter_length_zero, !Forall_forall. split.
    - intros [Hv Ho] pkg Hpkg. specialize (Hv pkg Hpkg). specialize (Ho pkg Hpkg).
      simpl in Hv, Ho. rewrite Hv in Ho. done.
    - intros Hall. split; intros pkg Hpkg; destruct (Hall pkg Hpkg) as [Hv Ho];
        simpl; by rewrite ?Hv, ?Ho. }
  lia.
Qed.

(** X27: sortVulnerabilitiesBySeverity loses nothing, puts the highest
    score first, keeps the order of the vulnerabilities of one score,
    and commutes with filterVulnerabilitiesBySeverity. *)
Theorem sort_puts_critical_first (vulnerabilities : list Shared.VulnerabilityInfo)
    (minSeverity : Shared.Level) (n : Z) :
  Shared.sortVulnerabilitiesBySeverity vulnerabilities ≡ₚ vulnerabilities
  ∧ critical_first (Shared.sortVulnerabilitiesBySeverity vulnerabilities)
  ∧ List.filter (λ v, Shared.score v =? n)
      (Shared.sortVulnerabilitiesBySeverity vulnerabilities)
    = List.filter (λ v, Shared.score v =? n) vulnerabilities
  ∧ Shared.filterVulnerabilitiesBySeverity
      (Shared.sortVulnerabilitiesBySeverity vulnerabilities) minSeverity
    = Shared.sortVulnerabilitiesBySeverity
        (Shared.filterVulnerabilitiesBySeverity vulnerabilities minSeverity).
Proof.
  split; [apply sortVulnerabilitiesBySeverity_perm|].
  split; [apply sortVulnerabilitiesBySeverity_sorted|]. split.
  - induction vulnerabilities as [|vuln l IH]; [done|].
    cbn [Shared.sortVulnerabilitiesBySeverity foldr].
    rewrite insertBySeverity_same_score. cbn [List.filter].
    fold (Shared.sortVulnerabilitiesBySeverity l). by rewrite IH.
  - unfold Shared.filterVulnerabilitiesBySeverity.
    induction vulnerabilities as [|vuln l IH]; [done|].
    cbn [Shared.sortVulnerabilitiesBySeverity foldr List.filter].
    fold (Shared.sortVulnerabilitiesBySeverity l).
    rewrite insertBySeverity_filter by apply sortVulnerabilitiesBySeverity_sorted.
    rewrite IH. by destruct (_ <=? Shared.score vuln).
Qed.

(** ** The scan route and the tree view of the extension *)

Section TreeView.

Import PackageScanner.

Lemma mark_spec status names statuses :
  ∀ name,
    (mark status (Some names) statuses).1 !! name
    = (if decide (name ∈ names) then Some status else statuses !! name)
    ∧ (mark status (Some names) statuses).2 = length names.
Proof.
  unfold mark.
  assert (∀ (names : list string) (statuses : gmap string DependencyStatus)
            (count : nat) (name : string),
    (foldl (λ '(statuses, count) name, (<[name := status]> statuses, S count))
       (statuses, count) names).1 !! name
    = (if decide (name ∈ names) then Some status else statuses !! name)
    ∧ (foldl (λ '(statuses, count) name, (<[name := status]> statuses, S count))
         (statuses, count) names).2 = (count + length names)%nat) as Hloop.
  { clear. induction names as [|n names IH]; intros statuses count name.
    - cbn [foldl fst snd length]. split; [|lia].
      destruct (decide (name ∈ [])) as [Hin|_]; [by apply elem_of_nil in Hin|done].
    - cbn [foldl]. destruct (IH (<[n := status]> statuses) (S count) name) as [-> ->].
      split; [|simpl; lia].
      destruct (decide (name ∈ names)) as [Hin|Hout].
      + rewrite decide_True; [done|]. by apply list_elem_of_further.
      + destruct (decide (name = n)) as [->|Hne].
        * rewrite lookup_insert_eq, decide_True; [done|apply list_elem_of_here].
        * rewrite lookup_insert_ne by done. rewrite decide_False; [done|].
          by intros [?|?]%elem_of_cons. }
  intros name. destruct (Hloop names statuses 0%nat name) as [H1 H2]. by rewrite H1, H2.
Qed.

Lemma map_names {A} (m : gmap string A) name :
  name ∈ (map_to_list m).*1 ↔ is_Some (m !! name).
Proof.
  rewrite list_elem_of_fmap. split.
  - intros ([k x] & -> & Hin). apply elem_of_map_to_list in Hin. by exists x.
  - intros [x Hx]. exists (name, x). split; [done|]. by apply elem_of_map_to_list.
Qed.

End TreeView.

Lemma analysis_sizes env (deps : list (string * string)) :
  NoDup deps.*1 →
  (size (outdated (analyzeDependencies env deps)) ≤ length deps)%nat
  ∧ (size (vulnerable (analyzeDependencies env deps)) ≤ length deps)%nat.
Proof.
  intros Hnodup. rewrite <- (length_fmap fst deps).
  split; apply size_le_names; try done; intros name Hsome;
    (destruct (decide (name ∈ deps.*1)) as [|Hnot]; [done|]);
    pose proof (analyzeDependencies_view_other env deps name Hnot) as Hview;
    unfold view in Hview; injection Hview as Ho Hv _;
    rewrite ?Ho, ?Hv in Hsome; by destruct Hsome.
Qed.

(** X28: the tree view of the extension shows what the scan route
    answered: for a successful answer the statistics handed to the tree
    are the outdated, vulnerable and total counts of the summary, with no
    deprecated package, also when the total is 0 and the function falls
    back on the manifest or on the sum of the counts; a package is marked
    vulnerable when it is in the vulnerable map, outdated or not, marked
    outdated when it is in the outdated map only, and not marked
    otherwise. *)
Theorem tree_shows_scan_summary (env : Env) (now : nat) (db : Database) (req : ScanRequest)
    (packageJson : PackageJson) (file : option PackageJson)
    (summary : Summary) (details : Details) (warnings : option bool) :
  body_packageJson req = Some packageJson →
  (file = Some packageJson ∨ file = None) →
  (postPackageJson env now db req).1 = (200%nat, ScanSuccess summary details warnings) →
  (PackageScanner.updateTreeProviderStatus file (scanDataOf summary details)).2
  = PackageScanner.mkScanStats (summary_outdated summary) (summary_vulnerable summary) 0
      (summary_total summary)
  ∧ ∀ name,
      (PackageScanner.updateTreeProviderStatus file (scanDataOf summary details)).1 !! name
      = match details_vulnerable details !! name, details_outdated details !! name with
        | Some _, _ => Some PackageScanner.vulnerable
        | None, Some _ => Some PackageScanner.outdated
        | None, None => None
        end.
Proof.
  intros Hbody Hfile. unfold postPackageJson. rewrite Hbody.
  destruct (truthy (user_id req)) as [userId|]; [|done]. cbn zeta.
  intros [= <- <- _].
  set (deps := allDependencies packageJson).
  set (analysis := analyzeDependencies env deps).
  unfold PackageScanner.updateTreeProviderStatus, scanDataOf.
  cbn [PackageScanner.outdatedNames PackageScanner.vulnerableNames
       PackageScanner.deprecatedNames PackageScanner.total
       details_outdated details_vulnerable summary_total summary_outdated summary_vulnerable].
  set (names1 := (map_to_list (outdated analysis)).*1).
  set (names2 := (map_to_list (vulnerable analysis)).*1).
  pose proof (mark_spec PackageScanner.outdated names1 ∅) as H1.
  destruct (PackageScanner.mark PackageScanner.outdated (Some names1) ∅)
    as [statuses1 count1] eqn:E1.
  pose proof (mark_spec PackageScanner.vulnerable names2 statuses1) as H2.
  destruct (PackageScanner.mark PackageScanner.vulnerable (Some names2) statuses1)
    as [statuses2 count2] eqn:E2.
  cbn [PackageScanner.mark fst snd] in *.
  assert (count1 = size (outdated analysis)) as ->.
  { destruct (H1 "") as [_ ->]. subst names1. by rewrite length_fmap, length_map_to_list. }
  assert (count2 = size (vulnerable analysis)) as ->.
  { destruct (H2 "") as [_ ->]. subst names2. by rewrite length_fmap, length_map_to_list. }
  split.
  - f_equal. destruct (length deps) as [|n] eqn:Hlen; [|done].
    destruct Hfile as [->| ->]; [done|].
    assert (NoDup deps.*1) as Hnodup.
    { apply (spread_NoDup (default [] (devDependencies packageJson))
               (spread [] (default [] (dependencies packageJson)))
               (spread_NoDup _ [] (NoDup_nil_2))). }
    destruct (analysis_sizes env deps Hnodup) as [Ho Hv]. fold analysis in Ho, Hv. lia.
  - intros name. destruct (H1 name) as [Hs1 _]. destruct (H2 name) as [Hs2 _].
    rewrite Hs2, Hs1, lookup_empty.
    destruct (decide (name ∈ names2)) as [Hin2|Hout2].
    + apply map_names in Hin2 as [x ->]. done.
    + assert (vulnerable analysis !! name = None) as ->.
      { apply eq_None_not_Some. by rewrite <- map_names. }
      destruct (decide (name ∈ names1)) as [Hin1|Hout1].
      * apply map_names in Hin1 as [x ->]. done.
      * assert (outdated analysis !! name = None) as ->; [|done].
        apply eq_None_not_Some. by rewrite <- map_names.
Qed.

Lemma tree_shows_scan_summary_witness :
  ∃ summary details warnings,
    (postPackageJson lodashEnv 0 emptyDatabase (lodashRequest "u1")).1
    = (200%nat, ScanSuccess summary details warnings)
    ∧ (PackageScanner.updateTreeProviderStatus None (scanDataOf summary details)).2
      = PackageScanner.mkScanStats (summary_outdated summary) (summary_vulnerable summary) 0
          (summary_total summary).
Proof.
  eexists _, _, _. split; [reflexivity|].
  eapply (tree_shows_scan_summary lodashEnv 0 emptyDatabase (lodashRequest "u1")
            lodashManifest None).
  - reflexivity.
  - by right.
  - reflexivity.
Defined.
